(** * sk-buffer: circular_buffer and dynamic_buffer

    A shallow embedding of [sk/buffer/circular_buffer.hxx] and
    [sk/buffer/dynamic_buffer.hxx], and the properties of the two buffers.

    Conventions of the embedding:
    - an iterator into [data] is the offset from [data.begin()], a [Z];
      [data.begin()] is [0] and [data.end()] is [buffer_size + 1];
    - a [std::span] is its first offset and its size;
    - [assert] is modelled as a failure of the operation: every function that
      contains one returns a [result]; an assertion that an unsigned count
      is not negative ([assert(can_write >= 0)] and the like) cannot fail
      and is left out;
    - counts are [std::size_t]; they are integers that are not negative, and
      where the source subtracts one from another the first is the larger;
    - [extents[i]] with [i] not below [extents.size()] is undefined in the
      source; the model stops there with [OutOfRange];
    - a [for (;;)] loop is a fixpoint on a fuel argument. *)

From Stdlib Require Import Ascii String.
From Stdlib Require Import ZArith List Lia Bool.
Import ListNotations.

(** ** Results of operations *)

Inductive result (T : Type) : Type :=
| Ok (v : T)
| AssertionFailure
| OutOfRange
| OutOfFuel.

Arguments Ok {T} v.
Arguments AssertionFailure {T}.
Arguments OutOfRange {T}.
Arguments OutOfFuel {T}.

Definition bind {T U : Type} (r : result T) (k : T -> result U) : result U :=
  match r with
  | Ok v => k v
  | AssertionFailure => AssertionFailure
  | OutOfRange => OutOfRange
  | OutOfFuel => OutOfFuel
  end.

Notation "'do' x <- r ; k" := (bind r (fun x => k))
  (at level 10, x pattern, r at level 100, k at level 200).

Definition assert (b : bool) : result unit :=
  if b then Ok tt else AssertionFailure.

(** ** Contiguous storage and spans *)

Section Storage.
Context {A : Type}.

(** [std::span]: the offset of its first element and its size. *)
Record span : Type := { span_begin : Z; span_size : Z }.

(** [std::span(first, last)]. *)
Definition make_span (first last : Z) : span :=
  {| span_begin := first; span_size := (last - first)%Z |}.

Definition span_empty (s : span) : bool := (span_size s =? 0)%Z.

(** The elements a span of [storage] designates. *)
Definition subrange (storage : list A) (first size : Z) : list A :=
  firstn (Z.to_nat size) (skipn (Z.to_nat first) storage).

Definition view (storage : list A) (s : span) : list A :=
  subrange storage (span_begin s) (span_size s).

(** [std::ranges::copy(src, storage.begin() + first)]. *)
Definition copy_at (src : list A) (first : Z) (storage : list A) : list A :=
  firstn (Z.to_nat first) storage ++ src
    ++ skipn (Z.to_nat first + length src) storage.

(** [s.size()] of a list used as a span. *)
Definition size (l : list A) : Z := Z.of_nat (length l).

(** [s.subspan(0, n)] and [s.subspan(n)] of a list used as a span. *)
Definition subspan_to (n : Z) (l : list A) : list A := firstn (Z.to_nat n) l.
Definition subspan_from (n : Z) (l : list A) : list A := skipn (Z.to_nat n) l.

Definition empty (l : list A) : bool :=
  match l with [] => true | _ :: _ => false end.
End Storage.

(** [static_cast<size_type>] of a pointer difference, [size_type] being the
    64-bit [std::size_t]. *)
Definition size_type_modulus : Z := 2 ^ 64.
Definition size_cast (z : Z) : Z := (z mod size_type_modulus)%Z.

(** ** circular_buffer *)

Module circular_buffer.
Section Defs.
Context {A : Type}.
(** The template parameter [buffer_size]; [data] has [buffer_size + 1]
    elements. *)
Variable buffer_size : Z.

Local Open Scope Z_scope.

Record t : Type := {
  data : list A;
  read_pointer : Z;
  write_pointer : Z
}.

Definition data_begin : Z := 0.
Definition data_end : Z := buffer_size + 1.

Definition set_data (d : list A) (b : t) : t :=
  {| data := d; read_pointer := read_pointer b;
     write_pointer := write_pointer b |}.
Definition set_read_pointer (p : Z) (b : t) : t :=
  {| data := data b; read_pointer := p; write_pointer := write_pointer b |}.
Definition set_write_pointer (p : Z) (b : t) : t :=
  {| data := data b; read_pointer := read_pointer b; write_pointer := p |}.

(** A new buffer: both pointers at [data.begin()]; the array holds whatever
    the storage held. *)
Definition create (storage : list A) : t :=
  {| data := storage; read_pointer := data_begin;
     write_pointer := data_begin |}.

Definition clear (b : t) : t :=
  {| data := data b; read_pointer := data_begin;
     write_pointer := data_begin |}.

Definition push_nonempty (s : span) (ret : list span) : list span :=
  if span_empty s then ret else ret ++ [s].

Definition writable_ranges (b : t) : list span :=
  let ret := [] in
  let theoretical_write_pointer := write_pointer b in
  let '(ret, theoretical_write_pointer) :=
    if read_pointer b <=? theoretical_write_pointer then
      let wend := data_end in
      let wend := if read_pointer b =? data_begin then wend - 1 else wend in
      let s := make_span theoretical_write_pointer
                 (theoretical_write_pointer
                  + (wend - theoretical_write_pointer)) in
      let ret := push_nonempty s ret in
      let theoretical_write_pointer :=
        theoretical_write_pointer + span_size s in
      let theoretical_write_pointer :=
        if (theoretical_write_pointer =? data_end)
           && negb (read_pointer b =? data_begin)
        then data_begin else theoretical_write_pointer in
      (ret, theoretical_write_pointer)
    else (ret, theoretical_write_pointer) in
  if theoretical_write_pointer <? read_pointer b then
    let s := make_span theoretical_write_pointer (read_pointer b - 1) in
    push_nonempty s ret
  else ret.

Definition commit (n : Z) (b : t) : result (t * Z) :=
  let bytes_left := n in
  let bytes_written := 0 in
  let '(b, bytes_left, bytes_written) :=
    if read_pointer b <=? write_pointer b then
      let wend := data_end in
      let wend := if read_pointer b =? data_begin then wend - 1 else wend in
      let can_write :=
        Z.min (size_cast (wend - write_pointer b)) bytes_left in
      let bytes_left := bytes_left - can_write in
      let bytes_written := bytes_written + can_write in
      let b := set_write_pointer (write_pointer b + can_write) b in
      let b :=
        if (write_pointer b =? data_end)
           && negb (read_pointer b =? data_begin)
        then set_write_pointer data_begin b else b in
      (b, bytes_left, bytes_written)
    else (b, bytes_left, bytes_written) in
  if write_pointer b <? read_pointer b then
    let can_write :=
      Z.min (size_cast (read_pointer b - data_begin - 1)) bytes_left in
    let bytes_written := bytes_written + can_write in
    let b := set_write_pointer (write_pointer b + can_write) b in
    do _ <- assert (write_pointer b <? read_pointer b);
    Ok (b, bytes_written)
  else Ok (b, bytes_written).

(** The loop of [write] over the writable ranges: [storage] is [data],
    which the ranges point into. *)
Fixpoint write_loop (ranges : list span) (data_left : list A)
    (storage : list A) (bytes_written : Z) : list A * Z :=
  match ranges with
  | [] => (storage, bytes_written)
  | range :: ranges =>
      let can_write := Z.min (size data_left) (span_size range) in
      let storage :=
        copy_at (subspan_to can_write data_left) (span_begin range)
          storage in
      let data_left := subspan_from can_write data_left in
      let bytes_written := bytes_written + can_write in
      if empty data_left then (storage, bytes_written)
      else write_loop ranges data_left storage bytes_written
  end.

Definition write (buf : list A) (b : t) : result (t * Z) :=
  let '(storage, bytes_written) :=
    write_loop (writable_ranges b) buf (data b) 0 in
  let b := set_data storage b in
  do (b, _) <- commit bytes_written b;
  Ok (b, bytes_written).

Definition readable_ranges (b : t) : result (list span) :=
  let ret := [] in
  if read_pointer b =? write_pointer b then Ok ret
  else
    let theoretical_read_pointer := read_pointer b in
    let '(ret, theoretical_read_pointer) :=
      if write_pointer b <? theoretical_read_pointer then
        let can_read := size_cast (data_end - theoretical_read_pointer) in
        let s := make_span theoretical_read_pointer
                   (theoretical_read_pointer + can_read) in
        let ret := push_nonempty s ret in
        let theoretical_read_pointer :=
          theoretical_read_pointer + can_read in
        let theoretical_read_pointer :=
          if theoretical_read_pointer =? data_end then data_begin
          else theoretical_read_pointer in
        (ret, theoretical_read_pointer)
      else (ret, theoretical_read_pointer) in
    let '(ret, theoretical_read_pointer) :=
      if theoretical_read_pointer <? write_pointer b then
        let can_read :=
          size_cast (write_pointer b - theoretical_read_pointer) in
        let s := make_span theoretical_read_pointer
                   (theoretical_read_pointer + can_read) in
        let ret := push_nonempty s ret in
        (ret, theoretical_read_pointer + can_read)
      else (ret, theoretical_read_pointer) in
    do _ <- assert (theoretical_read_pointer <? data_end);
    Ok ret.

Definition discard (n : Z) (b : t) : result (t * Z) :=
  if read_pointer b =? write_pointer b then Ok (b, 0)
  else
    let bytes_left := n in
    let bytes_read := 0 in
    let '(b, bytes_left, bytes_read) :=
      if write_pointer b <? read_pointer b then
        let can_read :=
          Z.min bytes_left (size_cast (data_end - read_pointer b)) in
        let bytes_left := bytes_left - can_read in
        let bytes_read := bytes_read + can_read in
        let b := set_read_pointer (read_pointer b + can_read) b in
        let b :=
          if read_pointer b =? data_end then set_read_pointer data_begin b
          else b in
        (b, bytes_left, bytes_read)
      else (b, bytes_left, bytes_read) in
    let '(b, bytes_read) :=
      if read_pointer b <? write_pointer b then
        let can_read :=
          Z.min bytes_left
            (size_cast (write_pointer b - read_pointer b)) in
        let b := set_read_pointer (read_pointer b + can_read) b in
        (b, bytes_read + can_read)
      else (b, bytes_read) in
    do _ <- assert (read_pointer b <? data_end);
    Ok (b, bytes_read).

(** The loop of [read] over the readable ranges.  The destination is kept
    as the part already filled, [filled], and the part still to fill,
    [data_left]. *)
Fixpoint read_loop (ranges : list span) (storage : list A)
    (filled data_left : list A) (bytes_read : Z) : list A * Z :=
  match ranges with
  | [] => (filled ++ data_left, bytes_read)
  | range :: ranges =>
      let can_read := Z.min (size data_left) (span_size range) in
      let data_left :=
        copy_at (subrange storage (span_begin range) can_read) 0
          data_left in
      let filled := filled ++ subspan_to can_read data_left in
      let data_left := subspan_from can_read data_left in
      let bytes_read := bytes_read + can_read in
      if empty data_left then (filled ++ data_left, bytes_read)
      else read_loop ranges storage filled data_left bytes_read
  end.

(** [read] returns the buffer, the destination as it is after the call and
    the count. *)
Definition read (buf : list A) (b : t) : result (t * list A * Z) :=
  do ranges <- readable_ranges b;
  let '(buf, bytes_read) := read_loop ranges (data b) [] buf 0 in
  do (b, _) <- discard bytes_read b;
  Ok (b, buf, bytes_read).

(** The unread data, front to back: what [readable_ranges] designates. *)
Definition contents (b : t) : list A :=
  match readable_ranges b with
  | Ok ranges => concat (map (view (data b)) ranges)
  | _ => []
  end.

(** The writable space, front to back: what [writable_ranges] designates. *)
Definition writable_space (b : t) : list A :=
  concat (map (view (data b)) (writable_ranges b)).

Definition total_size (ranges : list span) : Z :=
  fold_right (fun s acc => span_size s + acc) 0 ranges.

(** Number of unread units. *)
Definition readable_size (b : t) : Z :=
  match readable_ranges b with
  | Ok ranges => total_size ranges
  | _ => 0
  end.

(** Free space: the total size of the writable ranges. *)
Definition writable_size (b : t) : Z := total_size (writable_ranges b).

End Defs.
Arguments t : clear implicits.
End circular_buffer.

(** ** fixed_buffer *)

Module fixed_buffer.
Section Defs.
Context {A : Type}.
Variable buffer_size : Z.

Local Open Scope Z_scope.

(** Modelled from the spec: [sk/buffer/fixed_buffer.hxx], the extent type
    of [dynamic_buffer], is not among the sources.  The spec gives it as
    one contiguous, non-wrapping region with independent read and write
    cursors and the read/write/commit/discard contract of every buffer;
    [dynamic_buffer] uses its members [read_window] and [write_window]
    and its [write], [read], [commit] and [discard].  It does not wrap and
    is not reset: space that was read is not written again (the comment
    on [circular_buffer] says so, and [remove_front] expects extents with
    neither unread data nor write capacity). *)
Record t : Type := {
  data : list A;
  read_cursor : Z;
  write_cursor : Z
}.

(** Modelled from the spec: a new extent, nothing written and nothing
    read; [storage] is what its array holds. *)
Definition create (storage : list A) : t :=
  {| data := storage; read_cursor := 0; write_cursor := 0 |}.

(** Modelled from the spec: the member [read_window], the data written
    and not yet read. *)
Definition read_window (e : t) : span :=
  make_span (read_cursor e) (write_cursor e).

(** Modelled from the spec: the member [write_window], the space not yet
    written. *)
Definition write_window (e : t) : span :=
  make_span (write_cursor e) buffer_size.

(** Modelled from the spec: [write] copies as much of the source as fits
    in the write window and returns the count. *)
Definition write (buf : list A) (e : t) : t * Z :=
  let can_write := Z.min (size buf) (span_size (write_window e)) in
  ({| data := copy_at (subspan_to can_write buf) (write_cursor e) (data e);
      read_cursor := read_cursor e;
      write_cursor := write_cursor e + can_write |}, can_write).

(** Modelled from the spec: [commit] marks up to [n] units at the front
    of the write window as written and returns the count;
    [dynamic_buffer::commit] calls it to commit as much as possible in
    one extent. *)
Definition commit (n : Z) (e : t) : t * Z :=
  let can_write := Z.min n (span_size (write_window e)) in
  ({| data := data e; read_cursor := read_cursor e;
      write_cursor := write_cursor e + can_write |}, can_write).

(** Modelled from the spec: [discard] removes up to [n] units from the
    front of the read window and returns the count. *)
Definition discard (n : Z) (e : t) : t * Z :=
  let can_read := Z.min n (span_size (read_window e)) in
  ({| data := data e; read_cursor := read_cursor e + can_read;
      write_cursor := write_cursor e |}, can_read).

(** Modelled from the spec: [read] copies as much unread data as the
    destination takes and removes it.  It returns the extent, the
    destination as it is after the call and the count. *)
Definition read (buf : list A) (e : t) : t * list A * Z :=
  let can_read := Z.min (size buf) (span_size (read_window e)) in
  ({| data := data e; read_cursor := read_cursor e + can_read;
      write_cursor := write_cursor e |},
   copy_at (subrange (data e) (read_cursor e) can_read) 0 buf,
   can_read).

(** Modelled from the spec: a caller storing [v] through a span obtained
    from [write_window]. *)
Definition store (offset : Z) (v : A) (e : t) : t :=
  if (write_cursor e <=? offset) && (offset <? buffer_size) then
    {| data := copy_at [v] offset (data e); read_cursor := read_cursor e;
       write_cursor := write_cursor e |}
  else e.
End Defs.
Arguments t : clear implicits.
End fixed_buffer.

(** ** dynamic_buffer *)

Section Deque.
Context {T : Type}.

(** [extents[i]]. *)
Definition at_index (i : nat) (l : list T) : result T :=
  match nth_error l i with
  | Some x => Ok x
  | None => OutOfRange
  end.

(** [extents[i] = x], for [i] in range. *)
Fixpoint replace_at (i : nat) (x : T) (l : list T) : list T :=
  match l, i with
  | [], _ => []
  | _ :: l, O => x :: l
  | y :: l, S i => y :: replace_at i x l
  end.
End Deque.

Module dynamic_buffer.
Section Defs.
Context {A : Type}.
(** The static member [extent_size], computed from the template parameter
    [extent_bytes] by [extent_size_from_bytes]. *)
Variable extent_size : Z.
(** What the storage of a newly allocated extent holds. *)
Variable blank : A.

Local Open Scope Z_scope.

Local Abbreviation extent_type := (fixed_buffer.t A).

Definition minfree : Z := extent_size / 2.

Record t : Type := {
  extents : list extent_type;
  write_pointer : nat
}.

Definition create : t := {| extents := []; write_pointer := 0%nat |}.

Definition read_window_size (e : extent_type) : Z :=
  span_size (fixed_buffer.read_window e).
Definition write_window_size (e : extent_type) : Z :=
  span_size (fixed_buffer.write_window extent_size e).

Definition set_extents (l : list extent_type) (b : t) : t :=
  {| extents := l; write_pointer := write_pointer b |}.
Definition set_write_pointer (p : nat) (b : t) : t :=
  {| extents := extents b; write_pointer := p |}.

(** [extents.emplace_back()]. *)
Definition emplace_back (b : t) : t :=
  set_extents
    (extents b
     ++ [fixed_buffer.create (repeat blank (Z.to_nat extent_size))]) b.

(** [extents.empty() || extents.back().write_window.size() < minfree]. *)
Definition needs_space (b : t) : bool :=
  match rev (extents b) with
  | [] => true
  | back :: _ => write_window_size back <? minfree
  end.

Definition ensure_minfree (b : t) : result t :=
  if needs_space b then
    let b := emplace_back b in
    do e <- at_index (write_pointer b) (extents b);
    if write_window_size e =? 0
    then Ok (set_write_pointer (S (write_pointer b)) b)
    else Ok b
  else Ok b.

Definition remove_front (b : t) : result t :=
  match extents b with
  | [] => AssertionFailure
  | front :: rest =>
      do _ <- assert ((0 <? write_pointer b)%nat
                      || (write_window_size front =? 0));
      let b :=
        if (0 <? write_pointer b)%nat
        then set_write_pointer (Nat.pred (write_pointer b)) b else b in
      Ok (set_extents rest b)
  end.

(** The loop of [writable_ranges] over the extents from [write_pointer]
    on; a range is the index of its extent and the span in that extent's
    storage. *)
Fixpoint writable_loop (wp i : nat) (l : list extent_type)
    (ret : list (nat * span)) : result (list (nat * span)) :=
  match l with
  | [] => Ok ret
  | e :: l =>
      do _ <- assert (0 <? write_window_size e);
      do _ <- assert ((i =? wp)%nat || (write_window_size e =? extent_size));
      writable_loop wp (S i) l
        (ret ++ [(i, fixed_buffer.write_window extent_size e)])
  end.

Definition writable_ranges (b : t) : result (t * list (nat * span)) :=
  do b <- ensure_minfree b;
  do _ <- assert ((write_pointer b <? length (extents b))%nat);
  do ret <- writable_loop (write_pointer b) (write_pointer b)
              (skipn (write_pointer b) (extents b)) [];
  Ok (b, ret).

(** The loop of [commit].  Of its two entry assertions the model keeps the
    first: the second, [write_pointer] below the largest
    [difference_type], follows from it, a deque never holding that many
    elements. *)
Fixpoint commit_loop (fuel : nat) (n left : Z) (b : t) : result (t * Z) :=
  match fuel with
  | O => OutOfFuel
  | S fuel =>
      do _ <- assert ((write_pointer b <? length (extents b))%nat);
      do e <- at_index (write_pointer b) (extents b);
      let '(e, m) := fixed_buffer.commit extent_size left e in
      let b := set_extents (replace_at (write_pointer b) e (extents b)) b in
      do _ <- assert (0 <? m);
      let left := left - m in
      if left =? 0 then
        do b <- ensure_minfree b;
        Ok (b, n)
      else commit_loop fuel n left (set_write_pointer (S (write_pointer b)) b)
  end.

Definition commit (fuel : nat) (n : Z) (b : t) : result (t * Z) :=
  let left := n in
  if n =? 0 then Ok (b, 0)
  else
    do _ <- assert ((write_pointer b <? length (extents b))%nat);
    commit_loop fuel n left b.

Fixpoint write_loop (fuel : nat) (buf : list A) (b : t) : result t :=
  match fuel with
  | O => OutOfFuel
  | S fuel =>
      let b :=
        if (write_pointer b =? length (extents b))%nat
        then emplace_back b else b in
      do e <- at_index (write_pointer b) (extents b);
      let '(e, n) := fixed_buffer.write extent_size buf e in
      let b := set_extents (replace_at (write_pointer b) e (extents b)) b in
      let buf := subspan_from n buf in
      if size buf =? 0 then ensure_minfree b
      else write_loop fuel buf (set_write_pointer (S (write_pointer b)) b)
  end.

Definition write (fuel : nat) (data : list A) (b : t) : result (t * Z) :=
  let buf := data in
  if size buf =? 0 then Ok (b, 0)
  else
    do _ <- assert ((write_pointer b <=? length (extents b))%nat);
    do b <- write_loop fuel buf b;
    Ok (b, size data).

Fixpoint readable_loop (i : nat) (l : list extent_type)
    (ret : list (nat * span)) : list (nat * span) :=
  match l with
  | [] => ret
  | ext :: l =>
      if read_window_size ext =? 0 then readable_loop (S i) l ret
      else readable_loop (S i) l (ret ++ [(i, fixed_buffer.read_window ext)])
  end.

Definition readable_ranges (b : t) : list (nat * span) :=
  readable_loop 0 (extents b) [].

Definition dead (e : extent_type) : bool :=
  (read_window_size e =? 0) && (write_window_size e =? 0).

Fixpoint discard_loop (fuel : nat) (n nleft discards : Z) (b : t)
    : result (t * Z) :=
  match fuel with
  | O => OutOfFuel
  | S fuel =>
      match extents b with
      | [] => Ok (b, discards)
      | front :: rest =>
          if read_window_size front =? 0 then Ok (b, discards)
          else
            let '(front, m) := fixed_buffer.discard nleft front in
            let b := set_extents (front :: rest) b in
            let nleft := nleft - m in
            let discards := discards + m in
            do b <- (if dead front then remove_front b else Ok b);
            if discards =? n then Ok (b, discards)
            else discard_loop fuel n nleft discards b
      end
  end.

Definition discard (fuel : nat) (n : Z) (b : t) : result (t * Z) :=
  discard_loop fuel n n 0 b.

(** The loop of [read].  The destination is kept as the part already
    filled, [filled], and the part still to fill, [buf]; [total] is
    [std::ranges::size(data)]. *)
Fixpoint read_loop (fuel : nat) (total : Z) (filled buf : list A)
    (bytes_read : Z) (b : t) : result (t * list A * Z) :=
  match fuel with
  | O => OutOfFuel
  | S fuel =>
      match extents b with
      | [] => Ok (b, filled ++ buf, bytes_read)
      | front :: rest =>
          if read_window_size front =? 0
          then Ok (b, filled ++ buf, bytes_read)
          else
            let '(front, buf, n) := fixed_buffer.read buf front in
            let b := set_extents (front :: rest) b in
            let filled := filled ++ subspan_to n buf in
            let buf := subspan_from n buf in
            let bytes_read := bytes_read + n in
            do b <- (if dead front then remove_front b else Ok b);
            if bytes_read =? total then Ok (b, filled ++ buf, bytes_read)
            else read_loop fuel total filled buf bytes_read b
      end
  end.

Definition read (fuel : nat) (data : list A) (b : t)
    : result (t * list A * Z) :=
  let buf := data in
  let bytes_read := 0 in
  if size buf =? 0 then Ok (b, data, 0)
  else read_loop fuel (size data) [] buf bytes_read b.

(** A caller storing [v] through a span obtained from [writable_ranges]. *)
Definition store (i : nat) (offset : Z) (v : A) (b : t) : t :=
  match nth_error (extents b) i with
  | Some e =>
      set_extents
        (replace_at i (fixed_buffer.store extent_size offset v e)
           (extents b)) b
  | None => b
  end.

(** The unread data, front to back: what [readable_ranges] designates. *)
Definition range_view (b : t) (r : nat * span) : list A :=
  match nth_error (extents b) (fst r) with
  | Some e => view (fixed_buffer.data e) (snd r)
  | None => []
  end.

Definition contents (b : t) : list A :=
  concat (map (range_view b) (readable_ranges b)).

Definition total_size (ranges : list (nat * span)) : Z :=
  fold_right (fun r acc => span_size (snd r) + acc) 0 ranges.

Definition readable_size (b : t) : Z := total_size (readable_ranges b).

End Defs.
Arguments t : clear implicits.
End dynamic_buffer.

(** ** Well-formed states, operation sequences and reachable states *)

Section RingStates.
Context {A : Type}.
Variable buffer_size : Z.

Local Open Scope Z_scope.

(** A span that lies inside [storage]. *)
Definition span_inside (storage : list A) (s : span) : Prop :=
  0 <= span_begin s /\ 0 <= span_size s
  /\ span_begin s + span_size s <= size storage.

(** [buffer_size + 1] is the size of an array: it is positive and a
    pointer difference ([std::ptrdiff_t], 64 bits) holds it. *)
Definition valid_buffer_size : Prop := 0 <= buffer_size < 2 ^ 63 - 1.

(** Both pointers are inside [data]; neither sits at [data.end()]. *)
Definition ring_wf (b : circular_buffer.t A) : Prop :=
  size (circular_buffer.data b) = buffer_size + 1
  /\ 0 <= circular_buffer.read_pointer b < buffer_size + 1
  /\ 0 <= circular_buffer.write_pointer b < buffer_size + 1.

(** [readable_ranges] returns: [contents] and [readable_size] are about
    its ranges. *)
Definition readable_ok (b : circular_buffer.t A) : Prop :=
  exists ranges,
    circular_buffer.readable_ranges buffer_size b = Ok ranges
    /\ circular_buffer.contents buffer_size b
       = concat (map (view (circular_buffer.data b)) ranges)
    /\ circular_buffer.readable_size buffer_size b
       = circular_buffer.total_size ranges.

(** [offset] lies in one of the spans. *)
Definition in_ranges (offset : Z) (ranges : list span) : bool :=
  existsb
    (fun s => (span_begin s <=? offset)
              && (offset <? span_begin s + span_size s))
    ranges.

(** The calls a user of the buffer makes.  Counts are [size_type], hence
    not negative; [ring_store] is a store through a span obtained from
    [writable_ranges]. *)
Inductive ring_op : Type :=
| ring_write (src : list A)
| ring_commit (n : nat)
| ring_read (dst : list A)
| ring_discard (n : nat)
| ring_clear
| ring_store (offset : Z) (v : A).

Definition ring_step (op : ring_op) (b : circular_buffer.t A)
    : result (circular_buffer.t A) :=
  match op with
  | ring_write src =>
      do (b, _) <- circular_buffer.write buffer_size src b; Ok b
  | ring_commit n =>
      do (b, _) <- circular_buffer.commit buffer_size (Z.of_nat n) b; Ok b
  | ring_read dst =>
      do (b, _, _) <- circular_buffer.read buffer_size dst b; Ok b
  | ring_discard n =>
      do (b, _) <- circular_buffer.discard buffer_size (Z.of_nat n) b; Ok b
  | ring_clear => Ok (circular_buffer.clear b)
  | ring_store offset v =>
      if in_ranges offset (circular_buffer.writable_ranges buffer_size b)
      then Ok (circular_buffer.set_data
                 (copy_at [v] offset (circular_buffer.data b)) b)
      else Ok b
  end.

Fixpoint ring_run (ops : list ring_op) (b : circular_buffer.t A)
    : result (circular_buffer.t A) :=
  match ops with
  | [] => Ok b
  | op :: ops => do b <- ring_step op b; ring_run ops b
  end.
End RingStates.

Section DynamicStates.
Context {A : Type}.
Variable extent_size : Z.
Variable blank : A.

Local Open Scope Z_scope.

Local Abbreviation extent := (fixed_buffer.t A).
Local Abbreviation buffer := (dynamic_buffer.t A).

(** What [emplace_back] appends. *)
Definition new_extent : extent :=
  fixed_buffer.create (repeat blank (Z.to_nat extent_size)).

Definition extent_wf (e : extent) : Prop :=
  size (fixed_buffer.data e) = extent_size
  /\ 0 <= fixed_buffer.read_cursor e
  /\ fixed_buffer.read_cursor e <= fixed_buffer.write_cursor e
  /\ fixed_buffer.write_cursor e <= extent_size.

(** No write capacity left. *)
Definition extent_full (e : extent) : Prop :=
  fixed_buffer.write_cursor e = extent_size.

(** Never written, never read. *)
Definition extent_fresh (e : extent) : Prop :=
  fixed_buffer.read_cursor e = 0 /\ fixed_buffer.write_cursor e = 0.

(** Not dead: unread data or write capacity is left. *)
Definition extent_live (e : extent) : Prop :=
  dynamic_buffer.dead extent_size e = false.

(** The shape of the queue of extents: full extents before
    [write_pointer], never used ones after it, no dead one anywhere. *)
Definition dynamic_inv (b : buffer) : Prop :=
  Forall extent_wf (dynamic_buffer.extents b)
  /\ Forall extent_live (dynamic_buffer.extents b)
  /\ (dynamic_buffer.write_pointer b
      <= length (dynamic_buffer.extents b))%nat
  /\ Forall extent_full
       (firstn (dynamic_buffer.write_pointer b) (dynamic_buffer.extents b))
  /\ Forall extent_fresh
       (skipn (S (dynamic_buffer.write_pointer b))
          (dynamic_buffer.extents b)).

(** The states the public operations lead to from a new buffer.  Counts
    are [size_type], hence not negative; [reach_store] is a store through
    a span obtained from [writable_ranges]. *)
Inductive reachable : buffer -> Prop :=
| reach_create : reachable dynamic_buffer.create
| reach_write fuel src b b' n :
    reachable b ->
    dynamic_buffer.write extent_size blank fuel src b = Ok (b', n) ->
    reachable b'
| reach_read fuel dst b b' dst' n :
    reachable b ->
    dynamic_buffer.read extent_size fuel dst b = Ok (b', dst', n) ->
    reachable b'
| reach_discard fuel n b b' m :
    reachable b -> 0 <= n ->
    dynamic_buffer.discard extent_size fuel n b = Ok (b', m) ->
    reachable b'
| reach_commit fuel n b b' m :
    reachable b -> 0 <= n ->
    dynamic_buffer.commit extent_size blank fuel n b = Ok (b', m) ->
    reachable b'
| reach_writable_ranges b b' ranges :
    reachable b ->
    dynamic_buffer.writable_ranges extent_size blank b = Ok (b', ranges) ->
    reachable b'
| reach_ensure_minfree b b' :
    reachable b ->
    dynamic_buffer.ensure_minfree extent_size blank b = Ok b' ->
    reachable b'
| reach_store i offset v b :
    reachable b ->
    reachable (dynamic_buffer.store extent_size i offset v b).

(** The unread data of one extent. *)
Definition extent_contents (e : extent) : list A :=
  view (fixed_buffer.data e) (fixed_buffer.read_window e).

Definition extents_contents (l : list extent) : list A :=
  concat (map extent_contents l).

(** The number of unread units in a queue of extents. *)
Definition extents_readable (l : list extent) : Z :=
  fold_right (fun e acc => dynamic_buffer.read_window_size e + acc) 0 l.

(** The write capacity left in a queue of extents. *)
Definition extents_writable (l : list extent) : Z :=
  fold_right
    (fun e acc => dynamic_buffer.write_window_size extent_size e + acc) 0 l.

(** The extent [write_pointer] designates. *)
Definition write_target (b : buffer) : option extent :=
  nth_error (dynamic_buffer.extents b) (dynamic_buffer.write_pointer b).

(** [write_pointer] designates an extent, unless there is none yet. *)
Definition dynamic_ready (b : buffer) : Prop :=
  (dynamic_buffer.write_pointer b
   < length (dynamic_buffer.extents b))%nat
  \/ dynamic_buffer.extents b = [].

(** Turns the loops of [read] and [discard] still take: at most two per
    extent, one less when the front extent has nothing to read. *)
Definition drain_measure (b : buffer) : nat :=
  2 * length (dynamic_buffer.extents b)
  + match dynamic_buffer.extents b with
    | front :: _ =>
        if dynamic_buffer.read_window_size front =? 0 then 0 else 1
    | [] => 0
    end.

(** Fuel that lets [write] finish: one turn of the loop per extent from
    [write_pointer] on and at most one per unit of input. *)
Definition write_fuel (src : list A) (b : buffer) : nat :=
  S (length src + length (dynamic_buffer.extents b)).

(** Fuel that lets [read] and [discard] finish: at most two turns of the
    loop per extent. *)
Definition drain_fuel (b : buffer) : nat :=
  2 * length (dynamic_buffer.extents b) + 2.
End DynamicStates.

Section Scenario.
Context {T : Type}.
Variables A B C D E F G H I J K : T.

Local Open Scope Z_scope.

(** The wraparound scenario on a ring buffer of [buffer_size] with
    storage [s], the destinations holding [d4] and [d7] beforehand. *)
Definition wraparound (buffer_size : Z) (s d4 d7 : list T) : Prop :=
  exists b1 b2 b3 b4,
    circular_buffer.write buffer_size [A; B; C; D; E; F]
      (circular_buffer.create s) = Ok (b1, 6)
    /\ circular_buffer.read buffer_size d4 b1 = Ok (b2, [A; B; C; D], 4)
    /\ circular_buffer.contents buffer_size b2 = [E; F]
    /\ circular_buffer.write buffer_size [G; H; I; J; K] b2 = Ok (b3, 5)
    /\ circular_buffer.write_pointer b3 < circular_buffer.write_pointer b2
    /\ circular_buffer.read buffer_size d7 b3
       = Ok (b4, [E; F; G; H; I; J; K], 7)
    /\ circular_buffer.contents buffer_size b4 = [].
End Scenario.

(** ** Instances: extents of four characters, a ring of seven *)

Section Instances.
Local Open Scope Z_scope.
Local Open Scope char_scope.

Definition letters (s : string) : list ascii := list_ascii_of_string s.

Local Abbreviation extent4 d r w :=
  {| fixed_buffer.data := d; fixed_buffer.read_cursor := r;
     fixed_buffer.write_cursor := w |}.

(** A new segmented buffer after [ensure_minfree]. *)
Definition example_one_extent : dynamic_buffer.t ascii :=
  {| dynamic_buffer.extents := [extent4 ["."; "."; "."; "."] 0 0];
     dynamic_buffer.write_pointer := 0 |}.

(** [example_one_extent] after [commit(2)]. *)
Definition example_two_units : dynamic_buffer.t ascii :=
  {| dynamic_buffer.extents := [extent4 ["."; "."; "."; "."] 0 2];
     dynamic_buffer.write_pointer := 0 |}.

(** A new segmented buffer after [write("ABC")]: the first extent has one
    unit of write capacity left, a second extent was appended. *)
Definition example_abc : dynamic_buffer.t ascii :=
  {| dynamic_buffer.extents :=
       [extent4 ["A"; "B"; "C"; "."] 0 3;
        extent4 ["."; "."; "."; "."] 0 0];
     dynamic_buffer.write_pointer := 0 |}.

(** [example_abc] after [write("D")]: the first extent is full and
    [write_pointer] still designates it. *)
Definition example_abcd : dynamic_buffer.t ascii :=
  {| dynamic_buffer.extents :=
       [extent4 ["A"; "B"; "C"; "D"] 0 4;
        extent4 ["."; "."; "."; "."] 0 0];
     dynamic_buffer.write_pointer := 0 |}.

(** [example_abc] after a [read] of three units. *)
Definition example_drained : dynamic_buffer.t ascii :=
  {| dynamic_buffer.extents :=
       [extent4 ["A"; "B"; "C"; "."] 3 3;
        extent4 ["."; "."; "."; "."] 0 0];
     dynamic_buffer.write_pointer := 0 |}.

(** A ring buffer of seven after [write("ABCDEF")]. *)
Definition example_ring_abcdef : circular_buffer.t ascii :=
  {| circular_buffer.data := ["A"; "B"; "C"; "D"; "E"; "F"; "."; "."];
     circular_buffer.read_pointer := 0;
     circular_buffer.write_pointer := 6 |}.

(** [example_ring_abcdef] after a [read] of four units. *)
Definition example_ring_ef : circular_buffer.t ascii :=
  {| circular_buffer.data := ["A"; "B"; "C"; "D"; "E"; "F"; "."; "."];
     circular_buffer.read_pointer := 4;
     circular_buffer.write_pointer := 6 |}.

(** A ring buffer of seven after the calls of the wraparound scenario, a
    [commit(0)], a [discard(2)] and a store at offset 3. *)
Definition example_ring : circular_buffer.t ascii :=
  {| circular_buffer.data := ["I"; "J"; "K"; "x"; "E"; "F"; "G"; "H"];
     circular_buffer.read_pointer := 6;
     circular_buffer.write_pointer := 3 |}.
End Instances.

(** ** The buffers as queues, and more about the ranges *)

Section RingQueue.
Context {A : Type}.
Variable buffer_size : Z.

Local Open Scope Z_scope.

Definition is_commit (op : ring_op (A:=A)) : bool :=
  match op with ring_commit _ => true | _ => false end.

(** What a call other than [commit] does to a queue of at most
    [buffer_size] units: [write] appends what fits, [read] and [discard]
    take from the front, [clear] empties, a store into writable space
    changes nothing. *)
Definition ring_queue_step (op : ring_op (A:=A)) (q : list A) : list A :=
  match op with
  | ring_write src =>
      q ++ subspan_to (Z.min (size src) (buffer_size - size q)) src
  | ring_read dst => subspan_from (Z.min (size dst) (size q)) q
  | ring_discard n => subspan_from (Z.min (Z.of_nat n) (size q)) q
  | ring_clear => []
  | ring_store _ _ => q
  | ring_commit _ => q
  end.

Definition ring_queue_run (ops : list (ring_op (A:=A))) (q : list A)
    : list A :=
  fold_left (fun q op => ring_queue_step op q) ops q.

(** Two spans that share no element. *)
Definition spans_apart (s t : span) : Prop :=
  span_begin s + span_size s <= span_begin t
  \/ span_begin t + span_size t <= span_begin s.
End RingQueue.

Section DynamicQueue.
Context {A : Type}.
Variable extent_size : Z.
Variable blank : A.

Local Open Scope Z_scope.

Local Abbreviation extent := (fixed_buffer.t A).
Local Abbreviation buffer := (dynamic_buffer.t A).

(** The calls that move data through the buffer. *)
Inductive dynamic_op : Type :=
| dynamic_write (src : list A)
| dynamic_read (dst : list A)
| dynamic_discard (n : nat).

(** One call, its loop given the fuel [write_fuel] or [drain_fuel]. *)
Definition dynamic_step (op : dynamic_op) (b : buffer) : result buffer :=
  match op with
  | dynamic_write src =>
      do (b, _) <- dynamic_buffer.write extent_size blank
                     (write_fuel src b) src b;
      Ok b
  | dynamic_read dst =>
      do (b, _, _) <- dynamic_buffer.read extent_size (drain_fuel b) dst b;
      Ok b
  | dynamic_discard n =>
      do (b, _) <- dynamic_buffer.discard extent_size (drain_fuel b)
                     (Z.of_nat n) b;
      Ok b
  end.

Fixpoint dynamic_run (ops : list dynamic_op) (b : buffer) : result buffer :=
  match ops with
  | [] => Ok b
  | op :: ops => do b <- dynamic_step op b; dynamic_run ops b
  end.

(** What a call does to a queue without bound: [write] appends all of its
    source, [read] and [discard] take from the front. *)
Definition dynamic_queue_step (op : dynamic_op) (q : list A) : list A :=
  match op with
  | dynamic_write src => q ++ src
  | dynamic_read dst => subspan_from (Z.min (size dst) (size q)) q
  | dynamic_discard n => subspan_from (Z.min (Z.of_nat n) (size q)) q
  end.

Definition dynamic_queue_run (ops : list dynamic_op) (q : list A) : list A :=
  fold_left (fun q op => dynamic_queue_step op q) ops q.

(** The extent [write_pointer] designates has no write capacity left. *)
Definition write_target_full (b : buffer) : bool :=
  match write_target b with
  | Some e => dynamic_buffer.write_window_size extent_size e =? 0
  | None => false
  end.

(** The write capacity of one extent, and of the extents from
    [write_pointer] on, front to back. *)
Definition extent_space (e : extent) : list A :=
  view (fixed_buffer.data e) (fixed_buffer.write_window extent_size e).

Definition dynamic_writable_space (b : buffer) : list A :=
  concat (map extent_space
            (skipn (dynamic_buffer.write_pointer b)
               (dynamic_buffer.extents b))).

Definition dynamic_writable_size (b : buffer) : Z :=
  extents_writable extent_size
    (skipn (dynamic_buffer.write_pointer b) (dynamic_buffer.extents b)).

(** A range designates a non-empty span inside the storage of an extent
    of [b]. *)
Definition range_inside (b : buffer) (r : nat * span) : Prop :=
  0 < span_size (snd r)
  /\ exists e,
       nth_error (dynamic_buffer.extents b) (fst r) = Some e
       /\ span_inside (fixed_buffer.data e) (snd r).

(** [e'] is [e] after writes and commits: what [e] held below its write
    cursor is still there. *)
Definition extent_extends (e e' : extent) : Prop :=
  size (fixed_buffer.data e') = size (fixed_buffer.data e)
  /\ fixed_buffer.read_cursor e' = fixed_buffer.read_cursor e
  /\ fixed_buffer.write_cursor e <= fixed_buffer.write_cursor e'
  /\ forall s,
       0 <= span_begin s -> 0 <= span_size s ->
       span_begin s + span_size s <= fixed_buffer.write_cursor e ->
       view (fixed_buffer.data e') s = view (fixed_buffer.data e) s.

(** Every extent of [l] is still in its place in [l'], extended. *)
Definition extents_extend (l l' : list extent) : Prop :=
  forall i e,
    nth_error l i = Some e ->
    exists e', nth_error l' i = Some e' /\ extent_extends e e'.

(** No extent is held that is not needed: at most two extents are not
    before [write_pointer], and only the front extent has been read
    from. *)
Definition dynamic_tight (b : buffer) : Prop :=
  (length (dynamic_buffer.extents b)
   <= dynamic_buffer.write_pointer b + 2)%nat
  /\ forall i e,
       nth_error (dynamic_buffer.extents b) (S i) = Some e ->
       fixed_buffer.read_cursor e = 0.
End DynamicQueue.

(** ** Instances: states inside and after calls *)

Section MoreInstances.
Local Open Scope Z_scope.
Local Open Scope char_scope.

(** A new segmented buffer in [write("ABCD")], at the call of
    [ensure_minfree]: the only extent was just filled and
    [write_pointer] designates it. *)
Definition example_full_target : dynamic_buffer.t ascii :=
  {| dynamic_buffer.extents :=
       [{| fixed_buffer.data := ["A"; "B"; "C"; "D"];
           fixed_buffer.read_cursor := 0;
           fixed_buffer.write_cursor := 4 |}];
     dynamic_buffer.write_pointer := 0 |}.


End MoreInstances.

(** ** Lemmas on storage *)

Section StorageLemmas.
Context {A : Type}.
Implicit Types (d src l : list A).

Local Open Scope Z_scope.

Lemma size_nonneg l : 0 <= size l.
Proof. unfold size. lia. Qed.

Lemma size_app l l' : size (l ++ l') = size l + size l'.
Proof. unfold size. rewrite length_app. lia. Qed.

Lemma size_nil : size (@nil A) = 0.
Proof. reflexivity. Qed.

Lemma empty_size l : empty l = (size l =? 0).
Proof. destruct l; reflexivity. Qed.

Lemma subrange_empty d a n : n <= 0 -> subrange d a n = [].
Proof.
  intros H. unfold subrange.
  replace (Z.to_nat n) with 0%nat by lia. reflexivity.
Qed.

Lemma size_subrange d a n :
  0 <= a -> 0 <= n -> a + n <= size d -> size (subrange d a n) = n.
Proof.
  unfold size, subrange. intros Ha Hn H.
  rewrite length_firstn, length_skipn. lia.
Qed.

Lemma firstn_plus (n m : nat) l :
  firstn (n + m) l = firstn n l ++ firstn m (skipn n l).
Proof.
  revert l. induction n as [|n IH]; intros [|x l]; simpl;
    try rewrite firstn_nil; try reflexivity.
  now rewrite IH.
Qed.

Lemma subrange_split d a n m :
  0 <= a -> 0 <= n -> 0 <= m ->
  subrange d a (n + m) = subrange d a n ++ subrange d (a + n) m.
Proof.
  intros Ha Hn Hm. unfold subrange.
  rewrite Z2Nat.inj_add, firstn_plus, skipn_skipn by lia.
  do 3 f_equal. lia.
Qed.

Lemma size_copy_at src a d :
  0 <= a -> a + size src <= size d -> size (copy_at src a d) = size d.
Proof.
  unfold size, copy_at. intros Ha H.
  rewrite !length_app, length_firstn, length_skipn. lia.
Qed.

Lemma subrange_copy_at_same src a d :
  0 <= a -> a + size src <= size d ->
  subrange (copy_at src a d) a (size src) = src.
Proof.
  unfold size, subrange, copy_at. intros Ha H.
  rewrite skipn_app, length_firstn.
  rewrite (skipn_all2 (firstn _ _)) by (rewrite length_firstn; lia).
  replace (Z.to_nat a - Nat.min (Z.to_nat a) (length d))%nat with 0%nat
    by lia.
  simpl. rewrite firstn_app, Nat2Z.id, Nat.sub_diag, firstn_all.
  simpl. apply app_nil_r.
Qed.

Lemma subrange_copy_at_before src a d b n :
  0 <= b -> 0 <= n -> b + n <= a -> a <= size d ->
  subrange (copy_at src a d) b n = subrange d b n.
Proof.
  unfold size, subrange, copy_at. intros Hb Hn H Ha.
  rewrite skipn_app, firstn_app.
  rewrite length_skipn, length_firstn.
  replace (Z.to_nat n - (Nat.min (Z.to_nat a) (length d) - Z.to_nat b))%nat
    with 0%nat by lia.
  simpl. rewrite app_nil_r.
  rewrite skipn_firstn_comm, firstn_firstn.
  f_equal. lia.
Qed.

Lemma subrange_copy_at_after src a d b n :
  0 <= a -> a + size src <= b -> a + size src <= size d ->
  subrange (copy_at src a d) b n = subrange d b n.
Proof.
  unfold size, subrange, copy_at. intros Ha H Hd. f_equal.
  rewrite !skipn_app.
  rewrite (skipn_all2 (firstn _ _)) by (rewrite length_firstn; lia).
  rewrite (skipn_all2 src) by (rewrite length_firstn; lia).
  simpl. rewrite skipn_skipn. f_equal.
  rewrite length_firstn. lia.
Qed.

Lemma subspan_to_from (n m : Z) src :
  0 <= n -> 0 <= m ->
  subspan_to n src ++ subspan_to m (subspan_from n src)
  = subspan_to (n + m) src.
Proof.
  intros Hn Hm. unfold subspan_to, subspan_from.
  now rewrite Z2Nat.inj_add, firstn_plus by lia.
Qed.

Lemma size_subspan_to n src :
  0 <= n <= size src -> size (subspan_to n src) = n.
Proof.
  unfold size, subspan_to. intros H. rewrite length_firstn. lia.
Qed.

Lemma size_subspan_from n src :
  0 <= n <= size src -> size (subspan_from n src) = size src - n.
Proof.
  unfold size, subspan_from. intros H. rewrite length_skipn. lia.
Qed.

Lemma subspan_to_all n src : size src <= n -> subspan_to n src = src.
Proof. unfold size, subspan_to. intros H. apply firstn_all2. lia. Qed.

Lemma subspan_from_all n src : size src <= n -> subspan_from n src = [].
Proof. unfold size, subspan_from. intros H. apply skipn_all2. lia. Qed.

Lemma size_zero_nil l : size l = 0 -> l = [].
Proof. destruct l; [reflexivity | unfold size; simpl; lia]. Qed.

Lemma size_cast_small z : 0 <= z < 2 ^ 64 -> size_cast z = z.
Proof. intros H. unfold size_cast, size_type_modulus. now apply Z.mod_small. Qed.

Lemma subrange_join d a n a' m :
  a' = a + n -> 0 <= a -> 0 <= n -> 0 <= m ->
  subrange d a n ++ subrange d a' m = subrange d a (n + m).
Proof. intros -> Ha Hn Hm. now rewrite subrange_split. Qed.

Lemma subrange_join_app (d : list A) a n a' m l :
  a' = a + n -> 0 <= a -> 0 <= n -> 0 <= m ->
  subrange d a n ++ subrange d a' m ++ l = subrange d a (n + m) ++ l.
Proof. intros -> Ha Hn Hm. now rewrite subrange_split, app_assoc. Qed.

Lemma subspan_to_subrange (d : list A) a n m :
  subspan_to n (subrange d a m) = subrange d a (Z.min n m).
Proof.
  unfold subspan_to, subrange. rewrite firstn_firstn.
  f_equal. lia.
Qed.

Lemma subspan_from_subrange (d : list A) a n m :
  0 <= a -> 0 <= n ->
  subspan_from n (subrange d a m) = subrange d (a + n) (m - n).
Proof.
  intros Ha Hn. unfold subspan_from, subrange.
  rewrite skipn_firstn_comm, skipn_skipn. f_equal; [lia | f_equal; lia].
Qed.

Lemma subspan_to_app (l l' : list A) n :
  subspan_to n (l ++ l') = subspan_to n l ++ subspan_to (n - size l) l'.
Proof.
  unfold subspan_to, size. rewrite firstn_app. do 2 f_equal. lia.
Qed.

Lemma subspan_from_app (l l' : list A) n :
  subspan_from n (l ++ l')
  = subspan_from n l ++ subspan_from (n - size l) l'.
Proof.
  unfold subspan_from, size. rewrite skipn_app. do 2 f_equal. lia.
Qed.

Lemma subspan_from_nonpos (l : list A) n : n <= 0 -> subspan_from n l = l.
Proof.
  intros H. unfold subspan_from. now replace (Z.to_nat n) with 0%nat by lia.
Qed.

Lemma subspan_to_nonpos (l : list A) n : n <= 0 -> subspan_to n l = [].
Proof.
  intros H. unfold subspan_to. now replace (Z.to_nat n) with 0%nat by lia.
Qed.

Lemma mod_wrap x n : 0 < n -> n <= x < 2 * n -> x mod n = x - n.
Proof.
  intros Hn Hx. symmetry. apply (Z.mod_unique x n 1 (x - n)); lia.
Qed.

Lemma size_view (d : list A) s :
  span_inside d s -> size (view d s) = span_size s.
Proof.
  intros (Hb & Hs & Hd). unfold view. rewrite size_subrange; lia.
Qed.

Lemma size_subspan_to_gen n src :
  size (subspan_to n src) = Z.min (Z.max 0 n) (size src).
Proof. unfold size, subspan_to. rewrite length_firstn. lia. Qed.

Lemma size_subspan_from_gen n src :
  size (subspan_from n src) = size src - Z.min (Z.max 0 n) (size src).
Proof. unfold size, subspan_from. rewrite length_skipn. lia. Qed.

Lemma size_subrange_gen d a n :
  size (subrange d a n)
  = Z.min (Z.max 0 n) (Z.max 0 (size d - Z.max 0 a)).
Proof.
  unfold size, subrange. rewrite length_firstn, length_skipn. lia.
Qed.

Lemma size_copy_at_gen src a d :
  size (copy_at src a d)
  = Z.min (Z.max 0 a) (size d) + size src
    + Z.max 0 (size d - (Z.max 0 a + size src)).
Proof.
  unfold size, copy_at.
  rewrite !length_app, length_firstn, length_skipn. lia.
Qed.

Lemma subspan_to_subspan_to n m src :
  subspan_to n (subspan_to m src) = subspan_to (Z.min n m) src.
Proof.
  unfold subspan_to. rewrite firstn_firstn. f_equal. lia.
Qed.

Lemma subspan_to_join n n' m src :
  n' = n -> 0 <= n -> 0 <= m ->
  subspan_to n src ++ subspan_to m (subspan_from n' src)
  = subspan_to (n + m) src.
Proof. intros -> Hn Hm. now apply subspan_to_from. Qed.

Lemma subspan_to_copy_at src d n :
  n = size src -> size src <= size d ->
  subspan_to n (copy_at src 0 d) = src.
Proof.
  intros -> H. unfold subspan_to, copy_at, size in *. simpl.
  rewrite firstn_app, Nat2Z.id, Nat.sub_diag, firstn_all. simpl.
  apply app_nil_r.
Qed.

Lemma subspan_from_copy_at src d n :
  n = size src -> size src <= size d ->
  subspan_from n (copy_at src 0 d) = subspan_from n d.
Proof.
  intros -> H. unfold subspan_from, copy_at, size in *. simpl.
  rewrite skipn_app, Nat2Z.id, Nat.sub_diag, skipn_all. reflexivity.
Qed.

Lemma subspan_from_subspan_from n m l :
  0 <= n -> 0 <= m ->
  subspan_from n (subspan_from m l) = subspan_from (m + n) l.
Proof.
  intros Hn Hm. unfold subspan_from. rewrite skipn_skipn. f_equal. lia.
Qed.

Lemma subrange_copy_at_here src a d n :
  0 <= a -> a + size src <= size d -> n = size src ->
  subrange (copy_at src a d) a n = src.
Proof. intros Ha H ->. now apply subrange_copy_at_same. Qed.
End StorageLemmas.

(** Sizes of storage expressions, for [lia]. *)
Ltac sizes :=
  rewrite ?size_copy_at_gen, ?size_subspan_to_gen, ?size_subspan_from_gen,
    ?size_subrange_gen, ?size_app in *.

Ltac storage_lia := sizes; lia.

(** Minima and maxima that the context decides. *)
Ltac minmax :=
  repeat first
    [ rewrite Z.min_l by lia | rewrite Z.min_r by lia
    | rewrite Z.max_l by lia | rewrite Z.max_r by lia ].

(** Subranges of a storage that was copied into. *)
Ltac copied :=
  repeat first
    [ rewrite subrange_copy_at_here by storage_lia
    | rewrite subrange_copy_at_before by storage_lia
    | rewrite subrange_copy_at_after by storage_lia ].

(** ** circular_buffer: the ranges, commit and discard *)

Section RingLemmas.
Context {A : Type}.
Variable buffer_size : Z.
Hypothesis Hsize : valid_buffer_size buffer_size.

Local Open Scope Z_scope.
Import circular_buffer.

Implicit Types b : circular_buffer.t A.

Lemma two_63_lt_64 : 2 ^ 63 < 2 ^ 64.
Proof. reflexivity. Qed.

Ltac ring_unfold :=
  unfold contents, readable_size, writable_space, writable_size,
    readable_ranges, writable_ranges, commit, discard, assert, bind,
    push_nonempty, span_empty, make_span, set_write_pointer,
    set_read_pointer, set_data, data_end, data_begin, view in *;
  cbn [data read_pointer write_pointer span_begin span_size fst snd] in *.

Ltac size_lia :=
  pose proof two_63_lt_64; unfold valid_buffer_size in *; lia.

Ltac ring_cases :=
  repeat (first
    [ rewrite size_cast_small by size_lia
    | match goal with
      | H : context [size_cast _] |- _ =>
          rewrite size_cast_small in H by size_lia
      | |- context [Z.eqb ?a ?b] => destruct (Z.eqb_spec a b)
      | |- context [Z.leb ?a ?b] => destruct (Z.leb_spec a b)
      | |- context [Z.ltb ?a ?b] => destruct (Z.ltb_spec a b)
      | |- context [Z.min ?a ?b] =>
          let Hm := fresh "Hm" in
          destruct (Z.min_spec a b) as [[? Hm] | [? Hm]];
          rewrite Hm in *; clear Hm
      end ];
    cbn [data read_pointer write_pointer span_begin span_size fst snd
         andb negb orb map concat app total_size fold_right] in *;
    try lia).

(** Both sides are concatenations of subranges of the same storage. *)
Ltac ranges_eq :=
  repeat first
    [ rewrite subspan_to_app | rewrite subspan_from_app
    | rewrite subspan_to_subrange
    | rewrite subspan_from_nonpos by lia
    | rewrite subspan_from_subrange by lia
    | rewrite size_subrange by lia
    | rewrite size_app ];
  repeat match goal with
  | |- context [Z.min ?a ?b] =>
      let Hm := fresh "Hm" in
      destruct (Z.min_spec a b) as [[? Hm] | [? Hm]];
      rewrite Hm in *; clear Hm
  end;
  repeat match goal with
  | |- context [subrange ?d ?a ?n] =>
      rewrite (subrange_empty d a n) by lia
  end;
  rewrite ?app_nil_r; cbn [app]; rewrite <- ?app_assoc;
  repeat match goal with
  | |- context [subrange ?d ?a ?n ++ subrange ?d ?a' ?m ++ ?l] =>
      rewrite (subrange_join_app d a n a' m l) by lia
  | |- context [subrange ?d ?a ?n ++ subrange ?d ?a' ?m] =>
      rewrite (subrange_join d a n a' m) by lia
  end;
  repeat (f_equal; try lia).

Ltac ring_finish := ranges_eq.

Ltac mod_lia :=
  first [ rewrite Z.mod_small by lia; lia | rewrite mod_wrap by lia; lia ].

(** The unread data are [data[read_pointer, write_pointer)], around the
    end of [data] when the write pointer has wrapped. *)
Lemma ring_contents_eq b :
  ring_wf buffer_size b ->
  contents buffer_size b
  = if read_pointer b <=? write_pointer b
    then subrange (data b) (read_pointer b)
           (write_pointer b - read_pointer b)
    else subrange (data b) (read_pointer b)
           (buffer_size + 1 - read_pointer b)
         ++ subrange (data b) 0 (write_pointer b).
Proof.
  intros (Hd & Hr & Hw). ring_unfold. ring_cases; ring_finish.
Qed.

Lemma ring_readable_size_eq b :
  ring_wf buffer_size b ->
  readable_size buffer_size b
  = if read_pointer b <=? write_pointer b
    then write_pointer b - read_pointer b
    else buffer_size + 1 - read_pointer b + write_pointer b.
Proof.
  intros (Hd & Hr & Hw). ring_unfold. ring_cases.
Qed.

Lemma ring_size_contents b :
  ring_wf buffer_size b ->
  size (contents buffer_size b) = readable_size buffer_size b.
Proof.
  intros Hwf. rewrite ring_contents_eq, ring_readable_size_eq by assumption.
  destruct Hwf as (Hd & Hr & Hw).
  ring_cases; rewrite ?size_app, !size_subrange by lia; lia.
Qed.

(** The free space and the unread data fill all of [data] but one slot. *)
Lemma ring_writable_size_eq b :
  ring_wf buffer_size b ->
  writable_size buffer_size b = buffer_size - readable_size buffer_size b.
Proof.
  intros Hwf. rewrite ring_readable_size_eq by assumption.
  destruct Hwf as (Hd & Hr & Hw). ring_unfold. ring_cases.
Qed.

Lemma ring_writable_space_eq b :
  ring_wf buffer_size b ->
  writable_space buffer_size b
  = if read_pointer b <=? write_pointer b
    then if read_pointer b =? 0
         then subrange (data b) (write_pointer b)
                (buffer_size - write_pointer b)
         else subrange (data b) (write_pointer b)
                (buffer_size + 1 - write_pointer b)
              ++ subrange (data b) 0 (read_pointer b - 1)
    else subrange (data b) (write_pointer b)
           (read_pointer b - 1 - write_pointer b).
Proof.
  intros (Hd & Hr & Hw). ring_unfold. ring_cases; ring_finish.
Qed.

Lemma ring_readable_size_bound b :
  ring_wf buffer_size b ->
  0 <= readable_size buffer_size b <= buffer_size.
Proof.
  intros Hwf. rewrite ring_readable_size_eq by assumption.
  destruct Hwf as (Hd & Hr & Hw). ring_cases.
Qed.

(** [commit n], for [n] within the writable space. *)
Lemma ring_commit_spec n b :
  ring_wf buffer_size b ->
  0 <= n <= writable_size buffer_size b ->
  exists b',
    commit buffer_size n b = Ok (b', n)
    /\ data b' = data b
    /\ read_pointer b' = read_pointer b
    /\ write_pointer b' = (write_pointer b + n) mod (buffer_size + 1)
    /\ ring_wf buffer_size b'
    /\ contents buffer_size b'
       = contents buffer_size b
         ++ subspan_to n (writable_space buffer_size b).
Proof.
  intros Hwf Hn. rewrite ring_writable_size_eq, ring_readable_size_eq in Hn by assumption.
  rewrite (ring_contents_eq b Hwf), (ring_writable_space_eq b Hwf).
  destruct Hwf as (Hd & Hr & Hw).
  unfold commit, assert, bind, set_write_pointer, data_end, data_begin in *;
  cbn [data read_pointer write_pointer span_begin span_size fst snd] in *.
  ring_cases;
    (eexists; split; [do 2 f_equal; lia | ]);
    cbn [data read_pointer write_pointer];
    match goal with
    | |- _ /\ _ /\ _ /\ ring_wf _ ?b' /\ _ =>
        assert (Hwf' : ring_wf buffer_size b')
          by (unfold ring_wf; cbn [data read_pointer write_pointer]; lia);
        rewrite (ring_contents_eq b' Hwf')
    end;
    cbn [data read_pointer write_pointer];
    (split; [reflexivity | split; [reflexivity | ] ]);
    (split; [mod_lia | ]);
    (split; [assumption | ]);
    ring_cases; ranges_eq.
Qed.

(** [discard n]. *)
Lemma ring_discard_spec n b :
  ring_wf buffer_size b ->
  0 <= n ->
  exists b',
    discard buffer_size n b = Ok (b', Z.min n (readable_size buffer_size b))
    /\ data b' = data b
    /\ write_pointer b' = write_pointer b
    /\ ring_wf buffer_size b'
    /\ contents buffer_size b'
       = subspan_from (Z.min n (readable_size buffer_size b))
           (contents buffer_size b).
Proof.
  intros Hwf Hn. rewrite ring_readable_size_eq by assumption.
  rewrite (ring_contents_eq b Hwf).
  destruct Hwf as (Hd & Hr & Hw).
  unfold discard, assert, bind, set_read_pointer, data_end, data_begin
    in *;
  cbn [data read_pointer write_pointer span_begin span_size fst snd] in *.
  ring_cases;
    (eexists; split; [do 2 f_equal; lia | ]);
    cbn [data read_pointer write_pointer];
    match goal with
    | |- _ /\ _ /\ ring_wf _ ?b' /\ _ =>
        assert (Hwf' : ring_wf buffer_size b')
          by (unfold ring_wf; cbn [data read_pointer write_pointer]; lia);
        rewrite (ring_contents_eq b' Hwf')
    end;
    cbn [data read_pointer write_pointer];
    (split; [reflexivity | split; [reflexivity | ] ]);
    (split; [assumption | ]);
    ring_cases; ranges_eq.
Qed.

(** The loop of [write] fills the front of the writable space and leaves
    the unread data alone. *)
Lemma ring_write_loop_spec src b :
  ring_wf buffer_size b ->
  exists d',
    write_loop (writable_ranges buffer_size b) src (data b) 0
    = (d', Z.min (size src) (writable_size buffer_size b))
    /\ ring_wf buffer_size (set_data d' b)
    /\ contents buffer_size (set_data d' b) = contents buffer_size b
    /\ subspan_to (Z.min (size src) (writable_size buffer_size b))
         (writable_space buffer_size (set_data d' b))
       = subspan_to (Z.min (size src) (writable_size buffer_size b)) src.
Proof.
  intros Hwf. rewrite ring_writable_size_eq, ring_readable_size_eq by assumption.
  rewrite (ring_contents_eq b Hwf).
  destruct Hwf as (Hd & Hr & Hw).
  pose proof (size_nonneg src) as Hsrc.
  unfold writable_ranges, push_nonempty, span_empty, make_span, data_end,
    data_begin in *;
  cbn [data read_pointer write_pointer span_begin span_size fst snd] in *.
  ring_cases; cbn [write_loop]; rewrite ?empty_size;
  cbn [data read_pointer write_pointer span_begin span_size fst snd app] in *.
  all: repeat (sizes; ring_cases).
  all: (eexists; split; [f_equal; lia | ]).
  all: match goal with
    | |- ring_wf _ ?b' /\ _ =>
        assert (Hwf' : ring_wf buffer_size b')
          by (unfold ring_wf, set_data;
              cbn [data read_pointer write_pointer];
              repeat split; [storage_lia | lia ..]);
        split; [exact Hwf' | ];
        rewrite (ring_contents_eq b' Hwf'), (ring_writable_space_eq b' Hwf')
    end;
    unfold set_data; cbn [data read_pointer write_pointer].
  all: ring_cases.
  all: split; [copied; reflexivity | ].
  all: repeat first
    [ rewrite subspan_to_app | rewrite subspan_to_subrange
    | rewrite subspan_to_subspan_to | progress sizes ].
  all: minmax.
  all: repeat match goal with
    | |- context [subrange ?d ?a ?n] =>
        rewrite (subrange_empty d a n) by lia
    | |- context [subspan_to ?n ?l] =>
        rewrite (subspan_to_nonpos l n) by lia
    end; rewrite ?app_nil_r.
  all: copied.
  all: repeat first
    [ rewrite subspan_to_subspan_to
    | rewrite subspan_to_join by lia ]; minmax.
  all: repeat (f_equal; try lia).
Qed.

Lemma writable_size_set_data d b :
  writable_size buffer_size (set_data d b) = writable_size buffer_size b.
Proof. reflexivity. Qed.

(** [write]: a prefix of the source is appended to the unread data, as
    long as the free space allows. *)
Lemma ring_write_spec src b :
  ring_wf buffer_size b ->
  exists b',
    write buffer_size src b
    = Ok (b', Z.min (size src) (writable_size buffer_size b))
    /\ ring_wf buffer_size b'
    /\ read_pointer b' = read_pointer b
    /\ contents buffer_size b'
       = contents buffer_size b
         ++ subspan_to (Z.min (size src) (writable_size buffer_size b)) src.
Proof.
  intros Hwf.
  destruct (ring_write_loop_spec src b Hwf) as (d' & Hl & Hwf' & Hc & Hs).
  assert (Hk : 0 <= Z.min (size src) (writable_size buffer_size b)
               <= writable_size buffer_size (set_data d' b)).
  { rewrite writable_size_set_data, ring_writable_size_eq by assumption.
    pose proof (ring_readable_size_bound b Hwf). pose proof (size_nonneg src).
    lia. }
  destruct (ring_commit_spec _ _ Hwf' Hk) as (b' & Hcm & _ & Hrp & _ & Hwf'' & Hc').
  exists b'. unfold write. rewrite Hl, Hcm. cbn [bind].
  split; [reflexivity | ]. split; [assumption | ].
  split; [exact Hrp | ].
  rewrite Hc', Hc, Hs. reflexivity.
Qed.

(** The loop of [read] copies the front of what the ranges designate to
    the front of the destination. *)
Lemma ring_read_loop_spec ranges (d filled data_left : list A) bytes_read :
  Forall (span_inside d) ranges ->
  let unread := concat (map (view d) ranges) in
  let k := Z.min (size data_left) (size unread) in
  read_loop ranges d filled data_left bytes_read
  = (filled ++ subspan_to k unread ++ subspan_from k data_left,
     bytes_read + k).
Proof.
  intros Hin. revert filled data_left bytes_read.
  induction Hin as [|s ranges Hs Hin IH]; intros filled data_left bytes_read;
    cbn [read_loop map concat].
  - cbn zeta. rewrite size_nil.
    pose proof (size_nonneg data_left).
    rewrite Z.min_r, subspan_from_nonpos by lia.
    f_equal. lia.
  - cbn zeta. rewrite size_app, (size_view d s Hs).
    pose proof (size_nonneg (concat (map (view d) ranges))) as Hu.
    pose proof (size_nonneg data_left) as Hl.
    pose proof Hs as (Hs1 & Hs2 & Hs3).
    set (can_read := Z.min (size data_left) (span_size s)).
    assert (Hx : size (subrange d (span_begin s) can_read) = can_read)
      by (apply size_subrange; lia).
    rewrite subspan_to_copy_at, subspan_from_copy_at by lia.
    rewrite empty_size, size_subspan_from by lia.
    fold (view d s). rewrite subspan_to_app, (size_view d s Hs).
    unfold view at 2. rewrite subspan_to_subrange.
    fold can_read.
    assert (Hcr : can_read = Z.min (size data_left) (span_size s))
      by reflexivity.
    clearbody can_read.
    destruct (Z.eqb_spec (size data_left - can_read) 0) as [He | He].
    + replace (Z.min (size data_left) (span_size s + size _))
        with (size data_left) by lia.
      rewrite (subspan_to_nonpos (concat _)) by lia.
      rewrite (subspan_from_all (size data_left)) by lia.
      rewrite (subspan_from_all can_read) by lia.
      rewrite !app_nil_r, <- Hcr. f_equal. lia.
    + rewrite IH. cbn zeta. rewrite size_subspan_from by lia.
      rewrite subspan_from_subspan_from by lia.
      rewrite <- !app_assoc.
      replace (Z.min (size data_left) (span_size s + size _))
        with (can_read + Z.min (size data_left - can_read)
                           (size (concat (map (view d) ranges)))) by lia.
      replace (can_read + Z.min (size data_left - can_read)
                            (size (concat (map (view d) ranges)))
               - span_size s)
        with (Z.min (size data_left - can_read)
                (size (concat (map (view d) ranges)))) by lia.
      repeat (f_equal; try lia).
Qed.

Lemma readable_ranges_inside b :
  ring_wf buffer_size b ->
  exists ranges,
    readable_ranges buffer_size b = Ok ranges
    /\ Forall (span_inside (data b)) ranges.
Proof.
  intros (Hd & Hr & Hw).
  unfold readable_ranges, push_nonempty, span_empty, make_span, data_end,
    data_begin, assert, bind, span_inside in *;
  cbn [data read_pointer write_pointer span_begin span_size fst snd] in *.
  ring_cases; (eexists; split; [reflexivity | ]);
    repeat constructor;
    cbn [data read_pointer write_pointer span_begin span_size]; lia.
Qed.

Lemma ring_readable_ok b :
  ring_wf buffer_size b -> readable_ok buffer_size b.
Proof.
  intros Hwf. destruct (readable_ranges_inside b Hwf) as (ranges & Hr & _).
  exists ranges. unfold contents, readable_size. rewrite Hr. auto.
Qed.

(** [read]: the front of the unread data goes to the front of the
    destination and leaves the buffer. *)
Lemma ring_read_spec dst b :
  ring_wf buffer_size b ->
  let k := Z.min (size dst) (readable_size buffer_size b) in
  exists b',
    read buffer_size dst b
    = Ok (b', subspan_to k (contents buffer_size b) ++ subspan_from k dst,
          k)
    /\ ring_wf buffer_size b'
    /\ write_pointer b' = write_pointer b
    /\ contents buffer_size b' = subspan_from k (contents buffer_size b).
Proof.
  intros Hwf k.
  pose proof (ring_size_contents b Hwf) as Hsz.
  destruct (readable_ranges_inside b Hwf) as (ranges & Hr & Hin).
  pose proof (size_nonneg dst) as Hdst.
  pose proof (ring_readable_size_bound b Hwf) as Hb.
  assert (Hk : 0 <= k) by (unfold k; lia).
  destruct (ring_discard_spec k b Hwf Hk) as (b' & Hdis & _ & Hwp & Hwf' & Hc).
  replace (Z.min k (readable_size buffer_size b)) with k in * by (unfold k; lia).
  exists b'. unfold read. rewrite Hr. cbn [bind].
  rewrite (ring_read_loop_spec ranges (data b) [] dst 0 Hin). cbn zeta.
  assert (Hcs : concat (map (view (data b)) ranges) = contents buffer_size b)
    by (unfold contents; now rewrite Hr).
  rewrite Hcs, Hsz. fold k. cbn [app]. rewrite Z.add_0_l, Hdis. cbn [bind].
  repeat split; try assumption; apply Hwf'.
Qed.

(** *** What every operation keeps *)

Lemma ring_commit_wf n b b' m :
  ring_wf buffer_size b -> 0 <= n ->
  commit buffer_size n b = Ok (b', m) ->
  ring_wf buffer_size b'.
Proof.
  intros (Hd & Hr & Hw) Hn. unfold ring_wf.
  unfold commit, assert, bind, set_write_pointer, data_end, data_begin;
  cbn [data read_pointer write_pointer span_begin span_size fst snd].
  ring_cases; intros Hok; inversion Hok; subst;
    cbn [data read_pointer write_pointer]; lia.
Qed.

Lemma writable_ranges_inside b :
  ring_wf buffer_size b ->
  Forall (span_inside (data b)) (writable_ranges buffer_size b).
Proof.
  intros (Hd & Hr & Hw).
  unfold writable_ranges, push_nonempty, span_empty, make_span, data_end,
    data_begin, span_inside in *;
  cbn [data read_pointer write_pointer span_begin span_size fst snd] in *.
  ring_cases; repeat constructor;
    cbn [data read_pointer write_pointer span_begin span_size]; lia.
Qed.

Lemma in_ranges_inside (d : list A) offset ranges :
  Forall (span_inside d) ranges ->
  in_ranges offset ranges = true ->
  0 <= offset < size d.
Proof.
  induction 1 as [|s ranges (H1 & H2 & H3) _ IH]; simpl;
    [discriminate | ].
  destruct (Z.leb_spec (span_begin s) offset);
    destruct (Z.ltb_spec offset (span_begin s + span_size s));
    simpl; auto; lia.
Qed.

Lemma ring_step_wf op b b' :
  ring_wf buffer_size b ->
  ring_step buffer_size op b = Ok b' ->
  ring_wf buffer_size b'.
Proof.
  intros Hwf. destruct op as [src | n | dst | n | | offset v];
    cbn [ring_step].
  - destruct (ring_write_spec src b Hwf) as (b1 & -> & Hwf1 & _).
    cbn [bind]. now intros [= <-].
  - destruct (commit buffer_size (Z.of_nat n) b) as [(b1, m) | | | ] eqn:Hc;
      cbn [bind]; try discriminate.
    intros [= <-].
    apply (ring_commit_wf (Z.of_nat n) b b1 m Hwf); [lia | exact Hc].
  - destruct (ring_read_spec dst b Hwf) as (b1 & -> & Hwf1 & _).
    cbn [bind]. now intros [= <-].
  - destruct (ring_discard_spec (Z.of_nat n) b Hwf) as (b1 & -> & _ & _ & Hwf1 & _);
      [lia | ].
    cbn [bind]. now intros [= <-].
  - intros [= <-]. destruct Hwf as (Hd & _).
    unfold ring_wf, clear, data_begin.
    cbn [data read_pointer write_pointer].
    unfold valid_buffer_size in Hsize. lia.
  - destruct (in_ranges _ _) eqn:Hin; intros [= <-]; [ | assumption].
    pose proof (in_ranges_inside _ _ _ (writable_ranges_inside b Hwf) Hin).
    destruct Hwf as (Hd & Hr & Hw). unfold ring_wf, set_data.
    cbn [data read_pointer write_pointer].
    rewrite size_copy_at; [auto | lia | ]. unfold size at 1. simpl. lia.
Qed.

Lemma ring_run_wf ops : forall b b',
  ring_wf buffer_size b ->
  ring_run buffer_size ops b = Ok b' ->
  ring_wf buffer_size b'.
Proof.
  induction ops as [|op ops IH]; intros b b' Hwf; cbn [ring_run].
  - now intros [= <-].
  - destruct (ring_step buffer_size op b) as [b1 | | | ] eqn:Hs;
      cbn [bind]; try discriminate.
    apply IH. eapply ring_step_wf; eassumption.
Qed.

Lemma ring_create_wf (storage : list A) :
  size storage = buffer_size + 1 ->
  ring_wf buffer_size (create storage).
Proof.
  intros H. unfold ring_wf, create, data_begin.
  cbn [data read_pointer write_pointer].
  unfold valid_buffer_size in Hsize. lia.
Qed.

(** Calls other than a [commit] beyond the writable space return. *)
Lemma ring_step_total op b :
  ring_wf buffer_size b ->
  (forall n, op = ring_commit n ->
             Z.of_nat n <= writable_size buffer_size b) ->
  exists b', ring_step buffer_size op b = Ok b'.
Proof.
  intros Hwf Hop. destruct op as [src | n | dst | n | | offset v];
    cbn [ring_step].
  - destruct (ring_write_spec src b Hwf) as (b1 & -> & _). now exists b1.
  - destruct (ring_commit_spec (Z.of_nat n) b Hwf) as (b1 & -> & _);
      [split; [lia | now apply Hop] | now exists b1].
  - destruct (ring_read_spec dst b Hwf) as (b1 & -> & _). now exists b1.
  - destruct (ring_discard_spec (Z.of_nat n) b Hwf) as (b1 & -> & _);
      [lia | now exists b1].
  - eauto.
  - destruct (in_ranges _ _); eauto.
Qed.

(** *** The empty buffer *)

Lemma empty_pointers b :
  ring_wf buffer_size b ->
  readable_size buffer_size b = 0 <-> read_pointer b = write_pointer b.
Proof.
  intros Hwf. rewrite ring_readable_size_eq by assumption.
  destruct Hwf as (Hd & Hr & Hw). ring_cases.
Qed.

Lemma empty_ring b :
  read_pointer b = write_pointer b ->
  readable_ranges buffer_size b = Ok []
  /\ (forall n, discard buffer_size n b = Ok (b, 0))
  /\ (forall dst, read buffer_size dst b = Ok (b, dst, 0)).
Proof.
  intros He.
  assert (Hr : readable_ranges buffer_size b = Ok [])
    by (unfold readable_ranges; rewrite He, Z.eqb_refl; reflexivity).
  assert (Hd : forall n, discard buffer_size n b = Ok (b, 0))
    by (intros n; unfold discard; rewrite He, Z.eqb_refl; reflexivity).
  split; [exact Hr | ]. split; [exact Hd | ].
  intros dst. unfold read. rewrite Hr. cbn [bind read_loop app].
  rewrite Hd. reflexivity.
Qed.
End RingLemmas.

(** ** dynamic_buffer: the queue of extents *)

Section DequeLemmas.
Context {T : Type}.
Implicit Types (l pre post : list T) (x e : T).

Lemma at_index_app pre e post :
  at_index (length pre) (pre ++ e :: post) = Ok e.
Proof.
  unfold at_index. rewrite nth_error_app2, Nat.sub_diag by lia. reflexivity.
Qed.

Lemma replace_at_app pre e x post :
  replace_at (length pre) x (pre ++ e :: post) = pre ++ x :: post.
Proof. induction pre as [|y pre IH]; simpl; now rewrite ?IH. Qed.

Lemma length_replace_at i x l : length (replace_at i x l) = length l.
Proof.
  revert i. induction l as [|y l IH]; intros [|i]; simpl; auto.
Qed.

(** A list around the element at an index in range. *)
Lemma split_at i l :
  (i < length l)%nat ->
  exists e, l = firstn i l ++ e :: skipn (S i) l /\ length (firstn i l) = i.
Proof.
  revert i. induction l as [|y l IH]; intros [|i] H; simpl in *; try lia.
  - exists y. split; reflexivity.
  - destruct (IH i) as (e & He & Hl); [lia | ].
    exists e. split; [now rewrite <- He | now rewrite Hl].
Qed.

Lemma firstn_length_app pre post : firstn (length pre) (pre ++ post) = pre.
Proof.
  rewrite firstn_app, Nat.sub_diag, firstn_all. simpl. apply app_nil_r.
Qed.

Lemma skipn_length_app pre post : skipn (length pre) (pre ++ post) = post.
Proof.
  rewrite skipn_app, Nat.sub_diag, skipn_all. reflexivity.
Qed.

Lemma skipn_S_length_app pre e post :
  skipn (S (length pre)) (pre ++ e :: post) = post.
Proof.
  replace (S (length pre)) with (1 + length pre)%nat by lia.
  now rewrite <- skipn_skipn, skipn_length_app.
Qed.

Lemma Forall_swap (P : T -> Prop) pre e e' post :
  (P e -> P e') ->
  Forall P (pre ++ e :: post) -> Forall P (pre ++ e' :: post).
Proof.
  intros He H. apply Forall_app in H as (H1 & H2).
  inversion H2; subst. apply Forall_app. split; [assumption | ].
  constructor; auto.
Qed.

Lemma Forall_firstn_swap (P : T -> Prop) pre e e' post n :
  (P e -> P e') ->
  Forall P (firstn n (pre ++ e :: post)) ->
  Forall P (firstn n (pre ++ e' :: post)).
Proof.
  intros He. rewrite !firstn_app. intros H.
  apply Forall_app in H as (H1 & H2). apply Forall_app.
  split; [assumption | ].
  destruct (n - length pre)%nat; simpl in *; [constructor | ].
  inversion H2; subst. constructor; auto.
Qed.

Lemma Forall_skipn_swap (P : T -> Prop) pre e e' post n :
  (P e -> P e') ->
  Forall P (skipn n (pre ++ e :: post)) ->
  Forall P (skipn n (pre ++ e' :: post)).
Proof.
  intros He. rewrite !skipn_app. intros H.
  apply Forall_app in H as (H1 & H2). apply Forall_app.
  split; [assumption | ].
  destruct (n - length pre)%nat; simpl in *; [ | assumption].
  inversion H2; subst. constructor; auto.
Qed.

Lemma firstn_S_length_app pre e post :
  firstn (S (length pre)) (pre ++ e :: post) = pre ++ [e].
Proof.
  rewrite firstn_app, firstn_all2 by lia.
  replace (S (length pre) - length pre)%nat with 1%nat by lia.
  reflexivity.
Qed.
End DequeLemmas.

Section DynamicLemmas.
Context {A : Type}.
Variable extent_size : Z.
Variable blank : A.

Local Open Scope Z_scope.

Hypothesis Hextent : 0 < extent_size.
Import dynamic_buffer.

Local Abbreviation extent := (fixed_buffer.t A).
Local Abbreviation buffer := (dynamic_buffer.t A).
Local Abbreviation inv := (dynamic_inv extent_size).
Local Abbreviation wf := (extent_wf extent_size).
Local Abbreviation full := (extent_full extent_size).
Local Abbreviation live := (extent_live extent_size).

Implicit Types (b : buffer) (e : extent) (l pre post : list extent).

Ltac ext_unfold :=
  unfold extent_wf, extent_full, extent_fresh, extent_live, dead,
    extent_contents, read_window_size, write_window_size,
    fixed_buffer.read_window, fixed_buffer.write_window, make_span, view,
    fixed_buffer.write, fixed_buffer.commit, fixed_buffer.discard,
    fixed_buffer.read, fixed_buffer.create, fixed_buffer.store in *;
  cbn [fixed_buffer.data fixed_buffer.read_cursor fixed_buffer.write_cursor
       span_begin span_size fst snd] in *.

Ltac splits :=
  repeat match goal with |- _ /\ _ => split end; try assumption.

Ltac bool_lia :=
  repeat match goal with
  | H : context [Z.eqb ?a ?b] |- _ => destruct (Z.eqb_spec a b)
  | H : context [Z.ltb ?a ?b] |- _ => destruct (Z.ltb_spec a b)
  | H : context [Z.leb ?a ?b] |- _ => destruct (Z.leb_spec a b)
  | |- context [Z.eqb ?a ?b] => destruct (Z.eqb_spec a b)
  | |- context [Z.ltb ?a ?b] => destruct (Z.ltb_spec a b)
  | |- context [Z.leb ?a ?b] => destruct (Z.leb_spec a b)
  end; cbn [andb orb negb] in *; try congruence; try lia.

(** *** Extents *)

Lemma new_extent_wf : wf (new_extent extent_size blank).
Proof.
  unfold new_extent. ext_unfold. unfold size. rewrite repeat_length. lia.
Qed.

Lemma new_extent_fresh : extent_fresh (new_extent extent_size blank).
Proof. unfold new_extent. ext_unfold. lia. Qed.

Lemma fresh_live e : extent_fresh e -> live e.
Proof. ext_unfold. intros (Hr & Hw). rewrite Hr, Hw. bool_lia. Qed.

Lemma fresh_contents e : extent_fresh e -> extent_contents e = [].
Proof.
  ext_unfold. intros (Hr & Hw). apply subrange_empty. lia.
Qed.

Lemma fresh_all_contents l :
  Forall extent_fresh l -> extents_contents l = [].
Proof.
  unfold extents_contents.
  induction 1 as [|e l He _ IH]; simpl; [reflexivity | ].
  now rewrite IH, fresh_contents.
Qed.

Lemma extents_contents_app l l' :
  extents_contents (l ++ l') = extents_contents l ++ extents_contents l'.
Proof. unfold extents_contents. now rewrite map_app, concat_app. Qed.

Lemma extents_contents_cons e l :
  extents_contents (e :: l) = extent_contents e ++ extents_contents l.
Proof. reflexivity. Qed.

Lemma size_extent_contents e :
  wf e -> size (extent_contents e) = read_window_size e.
Proof.
  ext_unfold. intros (Hd & Hr & Hrw & Hw). rewrite size_subrange; lia.
Qed.

(** *** The invariant, around the extent at [write_pointer] *)

Lemma Forall_skipn_of {T} (P : T -> Prop) n (l : list T) :
  Forall P l -> Forall P (skipn n l).
Proof.
  intros H. rewrite <- (firstn_skipn n l) in H.
  now apply Forall_app in H.
Qed.

Lemma inv_at pre e post :
  inv {| extents := pre ++ e :: post; write_pointer := length pre |}
  <-> Forall wf (pre ++ e :: post) /\ Forall live (pre ++ e :: post)
      /\ Forall full pre /\ Forall extent_fresh post.
Proof.
  unfold dynamic_inv. cbn [extents write_pointer].
  rewrite firstn_length_app, skipn_S_length_app, length_app. simpl.
  intuition lia.
Qed.

Lemma inv_end l :
  inv {| extents := l; write_pointer := length l |}
  <-> Forall wf l /\ Forall live l /\ Forall full l.
Proof.
  unfold dynamic_inv. cbn [extents write_pointer].
  rewrite firstn_all, skipn_all2 by lia.
  intuition auto.
Qed.

(** A state whose [write_pointer] is in range, around the extent there. *)
Lemma inv_split b :
  (write_pointer b < length (extents b))%nat ->
  exists pre e post,
    b = {| extents := pre ++ e :: post; write_pointer := length pre |}.
Proof.
  intros H. destruct (split_at _ _ H) as (e & He & Hl).
  exists (firstn (write_pointer b) (extents b)), e,
    (skipn (S (write_pointer b)) (extents b)).
  rewrite <- He, Hl. now destruct b.
Qed.

Lemma inv_here b :
  inv b -> (write_pointer b < length (extents b))%nat
  \/ b = {| extents := extents b; write_pointer := length (extents b) |}.
Proof.
  intros (_ & _ & Hwp & _).
  destruct (Nat.eq_dec (write_pointer b) (length (extents b))) as [He | He].
  - right. rewrite <- He. now destruct b.
  - left. lia.
Qed.

Lemma contents_at pre e post :
  Forall extent_fresh post ->
  extents_contents (pre ++ e :: post)
  = extents_contents pre ++ extent_contents e.
Proof.
  intros H. rewrite extents_contents_app, extents_contents_cons.
  now rewrite (fresh_all_contents post H), app_nil_r.
Qed.

(** *** One extent *)

Lemma extent_write_spec buf e :
  wf e -> live e ->
  exists e',
    fixed_buffer.write extent_size buf e
    = (e', Z.min (size buf) (write_window_size extent_size e))
    /\ wf e' /\ live e'
    /\ extent_contents e'
       = extent_contents e
         ++ subspan_to (Z.min (size buf) (write_window_size extent_size e))
              buf
    /\ (Z.min (size buf) (write_window_size extent_size e) < size buf ->
        full e').
Proof.
  intros (Hd & Hr & Hrw & Hw) Hl. pose proof (size_nonneg buf) as Hb.
  eexists. split; [reflexivity | ]. ext_unfold.
  assert (Hs : size (subspan_to
                       (Z.min (size buf)
                          (extent_size - fixed_buffer.write_cursor e)) buf)
               = Z.min (size buf)
                   (extent_size - fixed_buffer.write_cursor e))
    by (apply size_subspan_to; lia).
  split; [ | split; [ | split ] ].
  - repeat split; try lia. rewrite size_copy_at; lia.
  - bool_lia.
  - replace (fixed_buffer.write_cursor e
             + Z.min (size buf) (extent_size - fixed_buffer.write_cursor e)
             - fixed_buffer.read_cursor e)
      with ((fixed_buffer.write_cursor e - fixed_buffer.read_cursor e)
            + Z.min (size buf)
                (extent_size - fixed_buffer.write_cursor e)) by lia.
    rewrite subrange_split by lia.
    rewrite subrange_copy_at_before by lia.
    f_equal.
    replace (fixed_buffer.read_cursor e
             + (fixed_buffer.write_cursor e - fixed_buffer.read_cursor e))
      with (fixed_buffer.write_cursor e) by lia.
    apply subrange_copy_at_here; lia.
  - lia.
Qed.

Lemma new_extent_live : live (new_extent extent_size blank).
Proof. apply fresh_live, new_extent_fresh. Qed.

(** *** ensure_minfree *)

Lemma minfree_le : minfree extent_size <= extent_size.
Proof.
  unfold minfree. pose proof (Z.div_le_upper_bound extent_size 2 extent_size).
  lia.
Qed.

Lemma inv_advance pre e post :
  inv {| extents := pre ++ e :: post; write_pointer := length pre |} ->
  full e ->
  inv {| extents := pre ++ e :: post; write_pointer := S (length pre) |}.
Proof.
  intros H He. apply inv_at in H as (Hw & Hl & Hf & Hp).
  unfold dynamic_inv. cbn [extents write_pointer].
  rewrite firstn_S_length_app, length_app. cbn [length].
  repeat split; try assumption; try lia.
  - apply Forall_app. split; [assumption | now constructor].
  - rewrite <- (skipn_skipn 1 (S (length pre))), skipn_S_length_app.
    now apply Forall_skipn_of.
Qed.

Lemma needs_space_new l wp :
  needs_space extent_size
    {| extents := l ++ [new_extent extent_size blank];
       write_pointer := wp |} = false.
Proof.
  unfold needs_space. cbn [extents]. rewrite rev_app_distr. simpl.
  pose proof minfree_le. unfold new_extent. ext_unfold. bool_lia.
Qed.

Lemma ensure_minfree_spec b :
  inv b ->
  exists b',
    ensure_minfree extent_size blank b = Ok b'
    /\ inv b'
    /\ extents_contents (extents b') = extents_contents (extents b)
    /\ needs_space extent_size b' = false
    /\ ((write_pointer b < length (extents b))%nat \/ extents b = [] ->
        (write_pointer b' < length (extents b'))%nat).
Proof.
  intros Hinv. unfold ensure_minfree.
  destruct (needs_space extent_size b) eqn:Hn.
  - unfold emplace_back, set_extents, set_write_pointer.
    fold (new_extent extent_size blank).
    cbn [extents write_pointer].
    assert (Hc : extents_contents
                   (extents b ++ [new_extent extent_size blank])
                 = extents_contents (extents b)).
    { rewrite extents_contents_app, (fresh_all_contents [_]), app_nil_r;
        [reflexivity | ].
      constructor; [apply new_extent_fresh | constructor]. }
    destruct (inv_here b Hinv) as [Hlt | Heq].
    + destruct (inv_split b Hlt) as (pre & e & post & ->).
      cbn [extents write_pointer] in *.
      rewrite <- app_assoc, <- app_comm_cons in *.
      rewrite at_index_app. cbn [bind].
      assert (Hinv' : inv {| extents := pre ++ e :: post
                               ++ [new_extent extent_size blank];
                             write_pointer := length pre |}).
      { apply inv_at in Hinv as (Hw & Hl & Hf & Hp). apply inv_at.
        rewrite app_comm_cons, app_assoc.
        repeat split; try assumption.
        - apply Forall_app. split; [assumption | ].
          constructor; [apply new_extent_wf | constructor].
        - apply Forall_app. split; [assumption | ].
          constructor; [apply new_extent_live | constructor].
        - apply Forall_app. split; [assumption | ].
          constructor; [apply new_extent_fresh | constructor]. }
      destruct (Z.eqb_spec (write_window_size extent_size e) 0) as [He | He];
        eexists; (split; [reflexivity | ]); cbn [extents write_pointer].
      * split; [apply inv_advance; [assumption | ext_unfold; lia] | ].
        split; [assumption | ].
        split; [rewrite app_comm_cons, app_assoc; apply needs_space_new | ].
        intros _. rewrite !length_app. simpl. rewrite length_app. simpl. lia.
      * split; [assumption | ]. split; [assumption | ].
        split; [rewrite app_comm_cons, app_assoc; apply needs_space_new | ].
        intros _. rewrite !length_app. simpl. lia.
    + rewrite Heq in *. cbn [extents write_pointer] in *.
      rewrite at_index_app. cbn [bind].
      replace (write_window_size extent_size (new_extent extent_size blank)
               =? 0) with false
        by (unfold new_extent; ext_unfold; bool_lia).
      eexists. split; [reflexivity | ]. cbn [extents write_pointer].
      split.
      { apply inv_end in Hinv as (Hw & Hl & Hf). apply inv_at.
        repeat split; try assumption; try constructor.
        - apply Forall_app. split; [assumption | ].
          constructor; [apply new_extent_wf | constructor].
        - apply Forall_app. split; [assumption | ].
          constructor; [apply new_extent_live | constructor]. }
      split; [assumption | ].
      split; [apply needs_space_new | ].
      intros _. rewrite length_app. simpl. lia.
  - exists b. split; [reflexivity | ]. split; [assumption | ].
    split; [reflexivity | ]. split; [assumption | ].
    intros [H | H]; [assumption | ].
    unfold needs_space in Hn. rewrite H in Hn. discriminate.
Qed.

(** *** write *)

Lemma emplace_back_end l :
  inv {| extents := l; write_pointer := length l |} ->
  inv {| extents := l ++ [new_extent extent_size blank];
         write_pointer := length l |}.
Proof.
  intros H. apply inv_end in H as (Hw & Hl & Hf). apply inv_at.
  repeat split; try assumption; try constructor.
  - apply Forall_app. split; [assumption | ].
    constructor; [apply new_extent_wf | constructor].
  - apply Forall_app. split; [assumption | ].
    constructor; [apply new_extent_live | constructor].
Qed.

(** One turn of the loop of [write], at an extent in range: the extent
    takes a prefix of the input. *)
Lemma dynamic_write_step_spec fuel buf pre e post :
  inv {| extents := pre ++ e :: post; write_pointer := length pre |} ->
  0 < size buf ->
  let n := Z.min (size buf) (write_window_size extent_size e) in
  exists e',
    inv {| extents := pre ++ e' :: post; write_pointer := length pre |}
    /\ extent_contents e' = extent_contents e ++ subspan_to n buf
    /\ (n < size buf -> full e')
    /\ write_loop extent_size blank (S fuel) buf
         {| extents := pre ++ e :: post; write_pointer := length pre |}
       = if size (subspan_from n buf) =? 0
         then ensure_minfree extent_size blank
                {| extents := pre ++ e' :: post;
                   write_pointer := length pre |}
         else write_loop extent_size blank fuel (subspan_from n buf)
                {| extents := pre ++ e' :: post;
                   write_pointer := S (length pre) |}.
Proof.
  intros Hinv Hbuf n. apply inv_at in Hinv as (Hw & Hl & Hf & Hp).
  pose proof Hw as Hw'. pose proof Hl as Hl'.
  apply Forall_app in Hw' as (Hw1 & Hw2). inversion Hw2 as [|? ? Hwe Hw3]; subst.
  apply Forall_app in Hl' as (Hl1 & Hl2). inversion Hl2 as [|? ? Hle Hl3]; subst.
  destruct (extent_write_spec buf e Hwe Hle) as (e' & He & Hwe' & Hle' & Hc & Hfull).
  exists e'. split; [ | split; [exact Hc | split; [exact Hfull | ] ] ].
  - apply inv_at. repeat split; try assumption.
    + apply Forall_app. split; [assumption | now constructor].
    + apply Forall_app. split; [assumption | now constructor].
  - cbn [write_loop extents write_pointer].
    replace (length pre =? length (pre ++ e :: post))%nat with false
      by (symmetry; apply Nat.eqb_neq; rewrite length_app; simpl; lia).
    cbn [extents write_pointer].
    rewrite at_index_app. cbn [bind]. rewrite He.
    unfold set_extents, set_write_pointer. cbn [extents write_pointer].
    rewrite replace_at_app. reflexivity.
Qed.

Lemma dynamic_write_loop_spec fuel : forall buf b,
  inv b -> 0 < size buf ->
  (length buf + (length (extents b) - write_pointer b) < fuel)%nat ->
  exists b',
    write_loop extent_size blank fuel buf b = Ok b'
    /\ inv b'
    /\ extents_contents (extents b')
       = extents_contents (extents b) ++ buf
    /\ needs_space extent_size b' = false
    /\ (write_pointer b' < length (extents b'))%nat.
Proof.
  induction fuel as [|fuel IH]; intros buf b Hinv Hbuf Hfuel; [lia | ].
  (* the extent written to, appended first when the queue is used up *)
  assert (Hat : exists pre e post,
             inv {| extents := pre ++ e :: post;
                    write_pointer := length pre |}
             /\ write_loop extent_size blank (S fuel) buf b
                = write_loop extent_size blank (S fuel) buf
                    {| extents := pre ++ e :: post;
                       write_pointer := length pre |}
             /\ extents_contents (pre ++ e :: post)
                = extents_contents (extents b)
             /\ (length post = length (extents b) - write_pointer b - 1
                 /\ (write_pointer b < length (extents b))%nat
                 \/ post = [] /\ e = new_extent extent_size blank
                    /\ write_pointer b = length (extents b))%nat).
  { destruct (inv_here b Hinv) as [Hlt | Heq].
    - destruct (inv_split b Hlt) as (pre & e & post & ->).
      exists pre, e, post. split; [assumption | ].
      split; [reflexivity | ]. split; [reflexivity | ].
      left. cbn [extents write_pointer]. rewrite length_app. simpl. lia.
    - rewrite Heq in *. exists (extents b), (new_extent extent_size blank), [].
      split; [now apply emplace_back_end | ].
      split.
      + cbn [write_loop extents write_pointer].
        rewrite Nat.eqb_refl, length_app, Nat.add_comm. simpl.
        replace (length (extents b) =? S (length (extents b)))%nat
          with false by (symmetry; apply Nat.eqb_neq; lia).
        reflexivity.
      + split; [ | right; auto ].
        rewrite extents_contents_app, (fresh_all_contents [_]), app_nil_r;
          [reflexivity | ].
        constructor; [apply new_extent_fresh | constructor]. }
  destruct Hat as (pre & e & post & Hinv1 & -> & Hc1 & Hlen).
  destruct (dynamic_write_step_spec fuel buf pre e post Hinv1 Hbuf)
    as (e' & Hinv2 & Hce & Hfull & ->).
  set (n := Z.min (size buf) (write_window_size extent_size e)) in *.
  assert (Hn : 0 <= n <= size buf).
  { apply inv_at in Hinv1 as (Hw & _).
    apply Forall_app in Hw as (_ & Hw). inversion Hw as [|? ? Hwe _]; subst.
    unfold n. ext_unfold. lia. }
  assert (Hc2 : extents_contents (pre ++ e' :: post)
                = extents_contents (extents b) ++ subspan_to n buf).
  { rewrite <- Hc1. apply inv_at in Hinv2 as (_ & _ & _ & Hp).
    rewrite !contents_at, Hce, app_assoc by assumption. reflexivity. }
  destruct (Z.eqb_spec (size (subspan_from n buf)) 0) as [Hz | Hz].
  - destruct (ensure_minfree_spec _ Hinv2) as (b' & He & Hinv' & Hc' & Hns & Hwp).
    exists b'. split; [exact He | ]. split; [exact Hinv' | ].
    split; [ | split; [exact Hns | ] ].
    + rewrite Hc'. cbn [extents]. rewrite Hc2. f_equal.
      apply subspan_to_all. rewrite size_subspan_from in Hz; lia.
    + apply Hwp. left. cbn [extents write_pointer].
      rewrite length_app. simpl. lia.
  - rewrite size_subspan_from in Hz by lia.
    assert (Hinv3 : inv {| extents := pre ++ e' :: post;
                           write_pointer := S (length pre) |})
      by (apply inv_advance; [assumption | apply Hfull; lia]).
    destruct (IH (subspan_from n buf) _ Hinv3) as (b' & Hw & Hinv' & Hc' & Hns & Hwp).
    + rewrite size_subspan_from; lia.
    + cbn [extents write_pointer]. rewrite length_app. cbn [length].
      assert (Hl : Z.of_nat (length (subspan_from n buf)) = size buf - n)
        by (fold (size (subspan_from n buf)); apply size_subspan_from; lia).
      unfold size in *.
      destruct Hlen as [(Hlen & Hlt) | (-> & -> & Heq)].
      * lia.
      * assert (1 <= n).
        { unfold n, new_extent. ext_unfold. unfold size. lia. }
        simpl. lia.
    + exists b'. split; [exact Hw | ]. split; [exact Hinv' | ].
      split; [ | split; assumption ].
      rewrite Hc'. cbn [extents]. rewrite Hc2, <- app_assoc. f_equal.
      unfold subspan_to, subspan_from. apply firstn_skipn.
Qed.

Lemma dynamic_write_spec fuel src b :
  inv b ->
  (write_fuel src b <= fuel)%nat ->
  exists b',
    write extent_size blank fuel src b = Ok (b', size src)
    /\ inv b'
    /\ extents_contents (extents b')
       = extents_contents (extents b) ++ src
    /\ (dynamic_ready b -> dynamic_ready b').
Proof.
  intros Hinv Hfuel. unfold write, write_fuel in *.
  destruct (Z.eqb_spec (size src) 0) as [Hz | Hz].
  - exists b. rewrite (size_zero_nil _ Hz), app_nil_r. auto.
  - pose proof (size_nonneg src).
    pose proof Hinv as (Hw & Hl & Hwp & Hrest).
    replace (write_pointer b <=? length (extents b))%nat with true
      by (symmetry; now apply Nat.leb_le).
    cbn [assert bind].
    destruct (dynamic_write_loop_spec fuel src b) as (b' & Hwr & Hinv' & Hc & _ & Hlt);
      [assumption | lia | lia | ].
    exists b'. rewrite Hwr. cbn [bind].
    split; [reflexivity | ]. split; [assumption | ].
    split; [assumption | ]. intros _. now left.
Qed.

(** *** The front of the queue *)

Lemma inv_fresh l :
  Forall wf l -> Forall extent_fresh l ->
  inv {| extents := l; write_pointer := 0 |}.
Proof.
  intros Hw Hf. unfold dynamic_inv. cbn [extents write_pointer firstn].
  repeat split; try assumption; try lia; try constructor.
  - eapply Forall_impl; [ | exact Hf]. apply fresh_live.
  - now apply Forall_skipn_of.
Qed.

Lemma inv_cons e l wp :
  inv {| extents := e :: l; write_pointer := wp |}
  <-> wf e /\ live e
      /\ match wp with
         | O => Forall wf l /\ Forall extent_fresh l
         | S k => full e /\ inv {| extents := l; write_pointer := k |}
         end.
Proof.
  unfold dynamic_inv. cbn [extents write_pointer]. destruct wp as [|k].
  - cbn [firstn skipn length]. split.
    + intros (Hw & Hl & _ & _ & Hf).
      inversion Hw; inversion Hl; subst. auto.
    + intros (Hw & Hl & Hwl & Hf).
      assert (Hll : Forall live l)
        by (eapply Forall_impl; [ | exact Hf]; apply fresh_live).
      splits; try lia; constructor; assumption.
  - cbn [firstn skipn length]. split.
    + intros (Hw & Hl & Hwp & Hf & Hp).
      inversion Hw; inversion Hl; inversion Hf; subst.
      splits; lia.
    + intros (Hw & Hl & Hf & Hwl & Hll & Hwp & Hfl & Hp).
      splits; try lia; constructor; assumption.
Qed.

Lemma extents_readable_nonneg l : Forall wf l -> 0 <= extents_readable l.
Proof.
  induction 1 as [|e l He _ IH]; simpl; [lia | ].
  ext_unfold. lia.
Qed.

Lemma extents_readable_fresh l :
  Forall extent_fresh l -> extents_readable l = 0.
Proof.
  induction 1 as [|e l He _ IH]; simpl; [reflexivity | ].
  rewrite IH. ext_unfold. lia.
Qed.

Lemma size_extents_contents l :
  Forall wf l -> size (extents_contents l) = extents_readable l.
Proof.
  induction 1 as [|e l He _ IH]; [reflexivity | ].
  rewrite extents_contents_cons, size_app, IH, size_extent_contents
    by assumption.
  reflexivity.
Qed.

(** When the front extent has nothing to read, no extent has. *)
Lemma front_empty_all_empty e l wp :
  inv {| extents := e :: l; write_pointer := wp |} ->
  read_window_size e = 0 ->
  Forall extent_fresh l.
Proof.
  intros H Hr. apply inv_cons in H as (Hw & Hl & H).
  destruct wp as [|k]; [apply H | ].
  destruct H as (Hf & _). exfalso. ext_unfold. bool_lia.
Qed.

(** *** discard and read *)

Lemma extents_readable_cons e l :
  extents_readable (e :: l) = read_window_size e + extents_readable l.
Proof. reflexivity. Qed.

(** The front extent gives up [m] units and is removed if that leaves it
    dead. *)
Lemma drain_step front rest wp m :
  let b := {| extents := front :: rest; write_pointer := wp |} in
  let front' := fst (fixed_buffer.discard m front) in
  let b1 := {| extents := front' :: rest; write_pointer := wp |} in
  inv b ->
  0 <= m <= read_window_size front ->
  exists b2,
    (if dead extent_size front' then remove_front extent_size b1
     else Ok b1) = Ok b2
    /\ inv b2
    /\ extents_contents (extents b2)
       = subspan_from m (extents_contents (extents b))
    /\ extents_readable (extents b2) = extents_readable (extents b) - m
    /\ (dynamic_ready b -> dynamic_ready b2)
    /\ (0 < read_window_size front -> m = read_window_size front ->
        (drain_measure b2 < drain_measure b)%nat).
Proof.
  intros b front' b1 Hinv Hm. subst b b1. cbn [extents write_pointer].
  apply inv_cons in Hinv as (Hw & Hl & Hrest).
  pose proof Hw as (Hd & Hr & Hrw & Hwc).
  assert (Hf' : fixed_buffer.discard m front
                = ({| fixed_buffer.data := fixed_buffer.data front;
                      fixed_buffer.read_cursor :=
                        fixed_buffer.read_cursor front + m;
                      fixed_buffer.write_cursor :=
                        fixed_buffer.write_cursor front |}, m)).
  { unfold fixed_buffer.discard. unfold read_window_size in Hm.
    rewrite Z.min_l by lia. reflexivity. }
  subst front'. rewrite Hf'. cbn [fst].
  set (front' := {| fixed_buffer.data := fixed_buffer.data front;
                    fixed_buffer.read_cursor :=
                      fixed_buffer.read_cursor front + m;
                    fixed_buffer.write_cursor :=
                      fixed_buffer.write_cursor front |}).
  assert (Hw' : wf front') by (subst front'; ext_unfold; lia).
  assert (Hc : extent_contents front'
               = subspan_from m (extent_contents front)).
  { subst front'. ext_unfold. rewrite subspan_from_subrange by lia.
    f_equal; lia. }
  assert (Hrd : read_window_size front' = read_window_size front - m)
    by (subst front'; ext_unfold; lia).
  assert (Hcs : subspan_from m (extents_contents (front :: rest))
                = subspan_from m (extent_contents front)
                  ++ extents_contents rest).
  { rewrite extents_contents_cons, subspan_from_app.
    rewrite size_extent_contents by assumption.
    now rewrite (subspan_from_nonpos (extents_contents rest)) by lia. }
  rewrite Hcs, extents_readable_cons.
  destruct (dead extent_size front') eqn:Hdead.
  - (* the front extent is dead and goes *)
    assert (Hz : read_window_size front' = 0
                 /\ write_window_size extent_size front' = 0)
      by (unfold dead in Hdead; bool_lia).
    destruct Hz as (Hz1 & Hz2).
    unfold remove_front. cbn [extents write_pointer].
    rewrite Hz2, Z.eqb_refl, orb_true_r. cbn [assert bind].
    unfold set_extents, set_write_pointer.
    assert (Hce : subspan_from m (extent_contents front) = []).
    { rewrite <- Hc. subst front'. ext_unfold. apply subrange_empty. lia. }
    rewrite Hce. cbn [app].
    destruct wp as [|k]; cbn [Nat.ltb Nat.leb Nat.pred extents write_pointer];
      eexists; (split; [reflexivity | ]); cbn [extents write_pointer].
    + destruct Hrest as (Hwr & Hfr).
      split; [now apply inv_fresh | ]. split; [reflexivity | ].
      split; [lia | ]. split.
      * intros _. unfold dynamic_ready. cbn [extents write_pointer].
        destruct rest; [now right | left; simpl; lia].
      * intros _ _. unfold drain_measure. cbn [extents length].
        destruct rest as [|e rest]; [lia | ].
        destruct (read_window_size e =? 0); destruct (read_window_size front =? 0); lia.
    + destruct Hrest as (Hfull & Hinv).
      split; [assumption | ]. split; [reflexivity | ].
      split; [lia | ]. split.
      * unfold dynamic_ready. cbn [extents write_pointer length].
        intros [H | H]; [left; lia | discriminate].
      * intros Hpos _. unfold drain_measure. cbn [extents length].
        replace (read_window_size front =? 0) with false by bool_lia.
        destruct rest as [|e rest]; [lia | ].
        destruct (read_window_size e =? 0); lia.
  - eexists. split; [reflexivity | ]. cbn [extents write_pointer].
    split; [ | split; [ | split; [ | split ] ] ].
    + apply inv_cons. split; [assumption | ]. split; [exact Hdead | ].
      destruct wp; [assumption | ].
      split; [ | apply Hrest]. destruct Hrest as (Hfull & _).
      subst front'. ext_unfold. lia.
    + now rewrite extents_contents_cons, Hc.
    + rewrite extents_readable_cons. lia.
    + unfold dynamic_ready. cbn [extents write_pointer length].
      intros [H | H]; [now left | discriminate].
    + intros Hpos ->. unfold drain_measure. cbn [extents length].
      replace (read_window_size front =? 0) with false by bool_lia.
      replace (read_window_size front' =? 0) with true by bool_lia.
      lia.
Qed.

Lemma dynamic_discard_loop_spec fuel : forall n nleft discards b,
  inv b -> 0 <= nleft -> discards + nleft = n ->
  (drain_measure b < fuel)%nat ->
  let k := Z.min nleft (extents_readable (extents b)) in
  exists b',
    discard_loop extent_size fuel n nleft discards b
    = Ok (b', discards + k)
    /\ inv b'
    /\ extents_contents (extents b')
       = subspan_from k (extents_contents (extents b))
    /\ extents_readable (extents b') = extents_readable (extents b) - k
    /\ (dynamic_ready b -> dynamic_ready b').
Proof.
  induction fuel as [|fuel IH]; intros n nleft discards b Hinv Hn Hsum Hfuel;
    cbn zeta; [lia | ].
  cbn [discard_loop]. destruct b as [[|front rest] wp]; cbn [extents] in *.
  - exists {| extents := []; write_pointer := wp |}.
    cbn [extents extents_readable fold_right].
    rewrite Z.min_r, Z.add_0_r by lia. splits; auto.
  - pose proof Hinv as Hinv0.
    apply inv_cons in Hinv0 as (Hw & Hl & Hrest).
    assert (Hwr : Forall wf rest)
      by (destruct wp; [apply Hrest | apply Hrest]).
    pose proof (extents_readable_nonneg rest Hwr) as Hrr.
    pose proof Hw as (Hd & Hr & Hrw & Hwc).
    rewrite extents_readable_cons.
    destruct (Z.eqb_spec (read_window_size front) 0) as [Hz | Hz].
    + exists {| extents := front :: rest; write_pointer := wp |}.
      pose proof (front_empty_all_empty front rest wp Hinv Hz) as Hf.
      rewrite (extents_readable_fresh rest Hf).
      rewrite Hz. rewrite Z.min_r, Z.add_0_r by lia. cbn [extents].
      splits; auto.
      rewrite extents_readable_cons, Hz, (extents_readable_fresh rest Hf).
      lia.
    + assert (Hpos : 0 < read_window_size front)
        by (unfold read_window_size in *; ext_unfold; lia).
      set (m := Z.min nleft (read_window_size front)).
      assert (Hm : 0 <= m <= read_window_size front) by lia.
      destruct (drain_step front rest wp m Hinv Hm)
        as (b2 & Hb2 & Hinv2 & Hc2 & Hr2 & Hrdy & Hmeas).
      assert (Hdis : fixed_buffer.discard nleft front
                     = (fst (fixed_buffer.discard m front), m)).
      { unfold fixed_buffer.discard, m, read_window_size. cbn [fst].
        rewrite (Z.min_l (Z.min _ _)) by lia. reflexivity. }
      rewrite Hdis. unfold set_extents. cbn [extents write_pointer].
      rewrite Hb2. cbn [bind]. cbn [extents] in *.
      rewrite extents_readable_cons in Hr2.
      destruct (Z.eqb_spec (discards + m) n) as [He | He].
      * exists b2.
        replace (Z.min nleft (read_window_size front + extents_readable rest))
          with m by lia.
        splits; auto.
      * assert (Hmr : m = read_window_size front) by lia.
        specialize (Hmeas Hpos Hmr).
        destruct (IH n (nleft - m) (discards + m) b2) as
          (b' & Hloop & Hinv' & Hc' & Hr' & Hrdy'); try assumption; try lia.
        exists b'. rewrite Hloop, Hr2.
        split; [do 2 f_equal; lia | ]. split; [assumption | ].
        split; [ | split; [ | auto ] ].
        -- rewrite Hc', Hc2, Hr2.
           rewrite subspan_from_subspan_from by lia. f_equal. lia.
        -- rewrite Hr', Hr2. lia.
Qed.

(** [discard n] takes [n] units off the front, or all there are. *)
Lemma dynamic_discard_spec fuel n b :
  inv b -> 0 <= n ->
  (drain_fuel b <= fuel)%nat ->
  let k := Z.min n (extents_readable (extents b)) in
  exists b',
    discard extent_size fuel n b = Ok (b', k)
    /\ inv b'
    /\ extents_contents (extents b')
       = subspan_from k (extents_contents (extents b))
    /\ extents_readable (extents b') = extents_readable (extents b) - k
    /\ (dynamic_ready b -> dynamic_ready b').
Proof.
  intros Hinv Hn Hfuel k. unfold discard.
  destruct (dynamic_discard_loop_spec fuel n n 0 b Hinv Hn) as (b' & H);
    [lia | | exists b'; exact H].
  unfold drain_fuel, drain_measure in *.
  destruct (extents b) as [|e l]; [lia | ].
  destruct (read_window_size e =? 0); lia.
Qed.

Lemma dynamic_read_loop_spec fuel : forall total filled buf bytes_read b,
  inv b -> bytes_read + size buf = total ->
  (drain_measure b < fuel)%nat ->
  let k := Z.min (size buf) (extents_readable (extents b)) in
  exists b',
    read_loop extent_size fuel total filled buf bytes_read b
    = Ok (b',
          filled ++ subspan_to k (extents_contents (extents b))
            ++ subspan_from k buf,
          bytes_read + k)
    /\ inv b'
    /\ extents_contents (extents b')
       = subspan_from k (extents_contents (extents b))
    /\ extents_readable (extents b') = extents_readable (extents b) - k
    /\ (dynamic_ready b -> dynamic_ready b').
Proof.
  induction fuel as [|fuel IH];
    intros total filled buf bytes_read b Hinv Hsum Hfuel;
    cbn zeta; [lia | ].
  pose proof (size_nonneg buf) as Hbuf.
  cbn [read_loop]. destruct b as [[|front rest] wp]; cbn [extents] in *.
  - exists {| extents := []; write_pointer := wp |}.
    cbn [extents extents_readable fold_right].
    rewrite Z.min_r, Z.add_0_r by lia.
    rewrite subspan_to_nonpos, subspan_from_nonpos by lia.
    cbn [app]. splits; auto.
  - pose proof Hinv as Hinv0.
    apply inv_cons in Hinv0 as (Hw & Hl & Hrest).
    assert (Hwr : Forall wf rest)
      by (destruct wp; [apply Hrest | apply Hrest]).
    pose proof (extents_readable_nonneg rest Hwr) as Hrr.
    pose proof Hw as (Hd & Hr & Hrw & Hwc).
    rewrite extents_readable_cons.
    destruct (Z.eqb_spec (read_window_size front) 0) as [Hz | Hz].
    + exists {| extents := front :: rest; write_pointer := wp |}.
      pose proof (front_empty_all_empty front rest wp Hinv Hz) as Hf.
      rewrite (extents_readable_fresh rest Hf).
      rewrite Hz. rewrite Z.min_r, Z.add_0_r by lia. cbn [extents].
      rewrite subspan_to_nonpos, subspan_from_nonpos by lia.
      cbn [app]. rewrite Z.add_0_r. splits; auto.
      rewrite extents_readable_cons, Hz, (extents_readable_fresh rest Hf).
      lia.
    + assert (Hpos : 0 < read_window_size front)
        by (unfold read_window_size in *; ext_unfold; lia).
      set (m := Z.min (size buf) (read_window_size front)).
      assert (Hm : 0 <= m <= read_window_size front) by lia.
      destruct (drain_step front rest wp m Hinv Hm)
        as (b2 & Hb2 & Hinv2 & Hc2 & Hr2 & Hrdy & Hmeas).
      set (C := extents_contents (front :: rest)) in *.
      assert (HX : subrange (fixed_buffer.data front)
                     (fixed_buffer.read_cursor front) m
                   = subspan_to m C).
      { subst C. rewrite extents_contents_cons, subspan_to_app.
        rewrite size_extent_contents by assumption.
        rewrite (subspan_to_nonpos (extents_contents rest)) by lia.
        rewrite app_nil_r. unfold extent_contents, view.
        rewrite subspan_to_subrange. unfold read_window_size in *.
        ext_unfold. f_equal. lia. }
      assert (HsC : size C = read_window_size front + extents_readable rest).
      { subst C. rewrite size_extents_contents by (now constructor).
        apply extents_readable_cons. }
      assert (HsX : size (subspan_to m C) = m)
        by (apply size_subspan_to; lia).
      assert (Hrd : fixed_buffer.read buf front
                    = (fst (fixed_buffer.discard m front),
                       copy_at (subspan_to m C) 0 buf, m)).
      { unfold fixed_buffer.read, fixed_buffer.discard, m, read_window_size.
        cbn [fst]. rewrite (Z.min_l (Z.min _ _)) by lia.
        fold (read_window_size front). fold m. now rewrite HX. }
      rewrite Hrd. unfold set_extents. cbn [extents write_pointer].
      rewrite Hb2. cbn [bind]. cbn [extents] in *.
      rewrite extents_readable_cons in Hr2.
      rewrite subspan_to_copy_at, subspan_from_copy_at by lia.
      destruct (Z.eqb_spec (bytes_read + m) total) as [He | He].
      * exists b2.
        replace (Z.min (size buf)
                   (read_window_size front + extents_readable rest))
          with m by lia.
        rewrite <- app_assoc. splits; auto.
      * assert (Hmr : m = read_window_size front) by lia.
        specialize (Hmeas Hpos Hmr).
        destruct (IH total (filled ++ subspan_to m C) (subspan_from m buf)
                    (bytes_read + m) b2)
          as (b' & Hloop & Hinv' & Hc' & Hr' & Hrdy'); try assumption;
          try lia.
        { rewrite size_subspan_from; lia. }
        rewrite size_subspan_from, Hr2 in Hloop, Hc', Hr' by lia.
        exists b'. rewrite Hloop, Hc2.
        set (k' := Z.min (size buf - m)
                     (read_window_size front + extents_readable rest - m))
          in *.
        replace (Z.min (size buf)
                   (read_window_size front + extents_readable rest))
          with (m + k') by lia.
        assert (Hk' : 0 <= k') by lia.
        rewrite <- (subspan_to_from m k' C) by lia.
        rewrite subspan_from_subspan_from, <- !app_assoc by lia.
        split; [do 2 f_equal; lia | ]. split; [assumption | ].
        split; [ | split; [ | auto ] ].
        -- rewrite Hc', Hc2.
           rewrite subspan_from_subspan_from by lia. reflexivity.
        -- rewrite Hr'. lia.
Qed.

(** [read] copies the front of the unread data to the front of the
    destination and takes it off the queue. *)
Lemma dynamic_read_spec fuel dst b :
  inv b ->
  (drain_fuel b <= fuel)%nat ->
  let k := Z.min (size dst) (extents_readable (extents b)) in
  exists b',
    read extent_size fuel dst b
    = Ok (b',
          subspan_to k (extents_contents (extents b))
            ++ subspan_from k dst,
          k)
    /\ inv b'
    /\ extents_contents (extents b')
       = subspan_from k (extents_contents (extents b))
    /\ extents_readable (extents b') = extents_readable (extents b) - k
    /\ (dynamic_ready b -> dynamic_ready b').
Proof.
  intros Hinv Hfuel k. unfold read.
  pose proof (size_nonneg dst) as Hdst.
  destruct (Z.eqb_spec (size dst) 0) as [Hz | Hz].
  - exists b. subst k. rewrite Hz.
    assert (Hw : Forall wf (extents b)) by apply Hinv.
    pose proof (extents_readable_nonneg _ Hw).
    rewrite Z.min_l by lia.
    rewrite subspan_to_nonpos, subspan_from_nonpos by lia.
    splits; auto. lia.
  - destruct (dynamic_read_loop_spec fuel (size dst) [] dst 0 b Hinv) as (b' & H);
      [lia | | exists b'; exact H].
    unfold drain_fuel, drain_measure in *.
    destruct (extents b) as [|e l]; [lia | ].
    destruct (read_window_size e =? 0); lia.
Qed.

(** *** More fuel changes no result *)

Lemma write_loop_mono fuel : forall buf b r fuel',
  write_loop extent_size blank fuel buf b = Ok r ->
  (fuel <= fuel')%nat ->
  write_loop extent_size blank fuel' buf b = Ok r.
Proof.
  induction fuel as [|fuel IH]; intros buf b r fuel' H Hle;
    [discriminate | ].
  destruct fuel' as [|fuel']; [lia | ]. cbn [write_loop] in *.
  destruct (at_index _ _) as [e | | | ]; cbn [bind] in *;
    try discriminate.
  destruct (fixed_buffer.write extent_size buf e) as (e', n).
  destruct (size (subspan_from n buf) =? 0); [assumption | ].
  apply IH; [assumption | lia].
Qed.

Lemma discard_loop_mono fuel : forall n nleft discards b r fuel',
  discard_loop extent_size fuel n nleft discards b = Ok r ->
  (fuel <= fuel')%nat ->
  discard_loop extent_size fuel' n nleft discards b = Ok r.
Proof.
  induction fuel as [|fuel IH]; intros n nleft discards b r fuel' H Hle;
    [discriminate | ].
  destruct fuel' as [|fuel']; [lia | ]. cbn [discard_loop] in *.
  destruct (extents b) as [|front rest]; [assumption | ].
  destruct (read_window_size front =? 0); [assumption | ].
  destruct (fixed_buffer.discard nleft front) as (front', m).
  destruct (if dead extent_size front' then _ else _) as [b1 | | | ];
    cbn [bind] in *; try discriminate.
  destruct (discards + m =? n); [assumption | ].
  apply IH; [assumption | lia].
Qed.

Lemma read_loop_mono fuel : forall total filled buf bytes_read b r fuel',
  read_loop extent_size fuel total filled buf bytes_read b = Ok r ->
  (fuel <= fuel')%nat ->
  read_loop extent_size fuel' total filled buf bytes_read b = Ok r.
Proof.
  induction fuel as [|fuel IH];
    intros total filled buf bytes_read b r fuel' H Hle; [discriminate | ].
  destruct fuel' as [|fuel']; [lia | ]. cbn [read_loop] in *.
  destruct (extents b) as [|front rest]; [assumption | ].
  destruct (read_window_size front =? 0); [assumption | ].
  destruct (fixed_buffer.read buf front) as ((front', buf'), n).
  destruct (if dead extent_size front' then _ else _) as [b1 | | | ];
    cbn [bind] in *; try discriminate.
  destruct (bytes_read + n =? total); [assumption | ].
  apply IH; [assumption | lia].
Qed.

(** *** What every operation keeps *)

Lemma dynamic_write_inv fuel src b b' n :
  inv b -> dynamic_ready b ->
  write extent_size blank fuel src b = Ok (b', n) ->
  inv b' /\ dynamic_ready b'.
Proof.
  intros Hinv Hrdy H.
  destruct (dynamic_write_spec (Nat.max fuel (write_fuel src b)) src b Hinv)
    as (b2 & H2 & Hinv2 & _ & Hrdy2); [lia | ].
  assert (Heq : write extent_size blank (Nat.max fuel (write_fuel src b))
                  src b = Ok (b', n)).
  { unfold write in *. destruct (size src =? 0); [assumption | ].
    destruct (assert _) as [u | | | ]; cbn [bind] in *; try discriminate.
    destruct (write_loop extent_size blank fuel src b) as [b1 | | | ] eqn:Hl;
      cbn [bind] in *; try discriminate.
    rewrite (write_loop_mono fuel src b b1 _ Hl) by lia. exact H. }
  rewrite H2 in Heq. inversion Heq; subst. auto.
Qed.

Lemma dynamic_discard_inv fuel n b b' m :
  inv b -> dynamic_ready b -> 0 <= n ->
  discard extent_size fuel n b = Ok (b', m) ->
  inv b' /\ dynamic_ready b'.
Proof.
  intros Hinv Hrdy Hn H.
  destruct (dynamic_discard_spec (Nat.max fuel (drain_fuel b)) n b Hinv Hn)
    as (b2 & H2 & Hinv2 & _ & _ & Hrdy2); [lia | ].
  unfold discard in *.
  rewrite (discard_loop_mono fuel n n 0 b _ _ H) in H2 by lia.
  inversion H2; subst. auto.
Qed.

Lemma dynamic_read_inv fuel dst b b' dst' n :
  inv b -> dynamic_ready b ->
  read extent_size fuel dst b = Ok (b', dst', n) ->
  inv b' /\ dynamic_ready b'.
Proof.
  intros Hinv Hrdy H.
  destruct (dynamic_read_spec (Nat.max fuel (drain_fuel b)) dst b Hinv)
    as (b2 & H2 & Hinv2 & _ & _ & Hrdy2); [lia | ].
  unfold read in *. destruct (size dst =? 0).
  - inversion H; subst. auto.
  - rewrite (read_loop_mono fuel _ _ _ _ b _ _ H) in H2 by lia.
    inversion H2; subst. auto.
Qed.

Lemma ensure_minfree_inv b b' :
  inv b ->
  ensure_minfree extent_size blank b = Ok b' ->
  inv b' /\ needs_space extent_size b' = false
  /\ (dynamic_ready b -> dynamic_ready b').
Proof.
  intros Hinv H.
  destruct (ensure_minfree_spec b Hinv) as (b2 & H2 & Hinv2 & _ & Hns & Hr).
  rewrite H in H2. inversion H2; subst.
  splits. intros Hrdy. left. auto.
Qed.

Lemma dynamic_commit_loop_inv fuel : forall n left b b' m,
  inv b ->
  commit_loop extent_size blank fuel n left b = Ok (b', m) ->
  inv b' /\ dynamic_ready b' /\ needs_space extent_size b' = false
  /\ m = n.
Proof.
  induction fuel as [|fuel IH]; intros n left b b' m Hinv H;
    [discriminate | ].
  cbn [commit_loop] in H.
  destruct (Nat.ltb_spec (write_pointer b) (length (extents b)))
    as [Hlt | Hge]; cbn [assert bind] in H; [ | discriminate].
  destruct (inv_split b Hlt) as (pre & e & post & ->).
  cbn [extents write_pointer] in *.
  rewrite at_index_app in H. cbn [bind] in H.
  unfold fixed_buffer.commit, set_extents, set_write_pointer in H.
  cbn [extents write_pointer] in H. rewrite replace_at_app in H.
  set (c := Z.min left (span_size (fixed_buffer.write_window extent_size e)))
    in *.
  destruct (Z.ltb_spec 0 c) as [Hc | Hc]; cbn [assert bind] in H;
    [ | discriminate].
  set (e' := {| fixed_buffer.data := fixed_buffer.data e;
                fixed_buffer.read_cursor := fixed_buffer.read_cursor e;
                fixed_buffer.write_cursor :=
                  fixed_buffer.write_cursor e + c |}) in *.
  apply inv_at in Hinv as (Hw & Hl & Hf & Hp).
  pose proof Hw as Hw'. pose proof Hl as Hl'.
  apply Forall_app in Hw' as (Hw1 & Hw2).
  inversion Hw2 as [|? ? Hwe Hw3]; subst.
  apply Forall_app in Hl' as (Hl1 & Hl2).
  inversion Hl2 as [|? ? Hle Hl3]; subst.
  assert (Hcw : c <= extent_size - fixed_buffer.write_cursor e)
    by (subst c; ext_unfold; lia).
  assert (Hwe' : wf e') by (subst e'; ext_unfold; lia).
  assert (Hle' : live e') by (subst e'; ext_unfold; bool_lia).
  assert (Hinv1 : inv {| extents := pre ++ e' :: post;
                         write_pointer := length pre |}).
  { apply inv_at. splits.
    - apply Forall_app. split; [assumption | now constructor].
    - apply Forall_app. split; [assumption | now constructor]. }
  destruct (Z.eqb_spec (left - c) 0) as [Hz | Hz].
  - destruct (ensure_minfree extent_size blank _) as [b1 | | | ] eqn:He;
      cbn [bind] in H; try discriminate.
    inversion H; subst.
    destruct (ensure_minfree_inv _ _ Hinv1 He) as (Hinv' & Hns & Hrdy).
    splits; auto. apply Hrdy. left. cbn [extents write_pointer].
    rewrite length_app. simpl. lia.
  - eapply IH; [ | exact H].
    apply inv_advance; [assumption | ].
    subst e' c. ext_unfold. lia.
Qed.

Lemma dynamic_commit_inv fuel n b b' m :
  inv b -> dynamic_ready b ->
  commit extent_size blank fuel n b = Ok (b', m) ->
  inv b' /\ dynamic_ready b' /\ m = n
  /\ (n <> 0 -> needs_space extent_size b' = false).
Proof.
  intros Hinv Hrdy H. unfold commit in H.
  destruct (Z.eqb_spec n 0) as [Hz | Hz].
  - inversion H; subst. splits; auto. congruence.
  - destruct (assert _) as [u | | | ]; cbn [bind] in H; try discriminate.
    destruct (dynamic_commit_loop_inv fuel n n b b' m Hinv H) as (? & ? & ? & ?).
    splits; auto.
Qed.

Lemma dynamic_store_inv i offset v b :
  inv b -> inv (store extent_size i offset v b).
Proof.
  intros Hinv. unfold store.
  destruct (nth_error (extents b) i) as [e | ] eqn:He; [ | assumption].
  destruct (nth_error_split _ _ He) as (pre & post & Hl & <-).
  destruct b as [l wp]. cbn [extents write_pointer] in *. subst l.
  unfold set_extents. cbn [extents write_pointer].
  rewrite replace_at_app.
  set (e' := fixed_buffer.store extent_size offset v e).
  assert (Hc : fixed_buffer.read_cursor e' = fixed_buffer.read_cursor e
               /\ fixed_buffer.write_cursor e'
                  = fixed_buffer.write_cursor e).
  { subst e'. unfold fixed_buffer.store.
    destruct (_ && _); split; reflexivity. }
  destruct Hc as (Hrc & Hwc).
  assert (Hwf : wf e -> wf e').
  { intros (Hd & Hr & Hrw & Hw). unfold extent_wf. rewrite Hrc, Hwc.
    splits. subst e'. unfold fixed_buffer.store.
    destruct (Z.leb_spec (fixed_buffer.write_cursor e) offset);
      destruct (Z.ltb_spec offset extent_size); cbn [andb fixed_buffer.data];
      try assumption.
    rewrite size_copy_at; [assumption | lia | ]. unfold size at 1. simpl. lia. }
  destruct Hinv as (H1 & H2 & H3 & H4 & H5).
  unfold dynamic_inv. cbn [extents write_pointer] in *.
  rewrite length_app in *. cbn [length] in *.
  splits.
  - eapply Forall_swap; [exact Hwf | assumption].
  - eapply Forall_swap; [ | exact H2].
    unfold extent_live, dead, read_window_size, write_window_size,
      fixed_buffer.read_window, fixed_buffer.write_window, make_span.
    cbn [span_size]. now rewrite Hrc, Hwc.
  - eapply Forall_firstn_swap; [ | exact H4].
    unfold extent_full. now rewrite Hwc.
  - eapply Forall_skipn_swap; [ | exact H5].
    unfold extent_fresh. now rewrite Hrc, Hwc.
Qed.

Lemma dynamic_store_ready i offset v b :
  dynamic_ready b -> dynamic_ready (store extent_size i offset v b).
Proof.
  unfold store, dynamic_ready.
  destruct (nth_error (extents b) i) as [e | ]; [ | auto].
  unfold set_extents. cbn [extents write_pointer].
  rewrite length_replace_at. intros [H | H]; [now left | right].
  rewrite H. now destruct i.
Qed.

Lemma dynamic_writable_ranges_inv b b' ranges :
  inv b ->
  writable_ranges extent_size blank b = Ok (b', ranges) ->
  inv b' /\ dynamic_ready b'
  /\ ensure_minfree extent_size blank b = Ok b'
  /\ needs_space extent_size b' = false.
Proof.
  intros Hinv H. unfold writable_ranges in H.
  destruct (ensure_minfree extent_size blank b) as [b1 | | | ] eqn:He;
    cbn [bind] in H; try discriminate.
  destruct (ensure_minfree_inv b b1 Hinv He) as (Hinv1 & Hns & _).
  destruct (Nat.ltb_spec (write_pointer b1) (length (extents b1)));
    cbn [assert bind] in H; [ | discriminate].
  destruct (writable_loop _ _ _ _ _) as [r | | | ]; cbn [bind] in H;
    try discriminate.
  inversion H; subst. splits; auto. now left.
Qed.

Lemma dynamic_create_inv : inv (@create A).
Proof. apply (inv_fresh []); constructor. Qed.

(** Every reachable state has the shape of [dynamic_inv]. *)
Lemma reachable_inv b :
  reachable extent_size blank b -> inv b /\ dynamic_ready b.
Proof.
  induction 1 as [ | fuel src b b' n _ (Hi & Hr) H
                   | fuel dst b b' dst' n _ (Hi & Hr) H
                   | fuel n b b' m _ (Hi & Hr) Hn H
                   | fuel n b b' m _ (Hi & Hr) Hn H
                   | b b' ranges _ (Hi & Hr) H
                   | b b' _ (Hi & Hr) H
                   | i offset v b _ (Hi & Hr) ].
  - split; [apply dynamic_create_inv | now right].
  - eapply dynamic_write_inv; eassumption.
  - eapply dynamic_read_inv; eassumption.
  - eapply dynamic_discard_inv; eassumption.
  - destruct (dynamic_commit_inv _ _ _ _ _ Hi Hr H) as (? & ? & _). auto.
  - destruct (dynamic_writable_ranges_inv _ _ _ Hi H) as (? & ? & _). auto.
  - destruct (ensure_minfree_inv _ _ Hi H) as (? & _ & ?). auto.
  - split; [now apply dynamic_store_inv | now apply dynamic_store_ready].
Qed.

(** *** What the ranges designate *)

Lemma readable_loop_view : forall l pre ret wp,
  concat (map (range_view {| extents := pre ++ l; write_pointer := wp |})
            (readable_loop (length pre) l ret))
  = concat (map (range_view
                   {| extents := pre ++ l; write_pointer := wp |}) ret)
    ++ extents_contents l.
Proof.
  induction l as [|e l IH]; intros pre ret wp; cbn [readable_loop].
  - unfold extents_contents. simpl. now rewrite !app_nil_r.
  - specialize (IH (pre ++ [e])). rewrite <- app_assoc in IH.
    cbn [app] in IH. rewrite length_app, Nat.add_comm in IH.
    cbn [length Nat.add] in IH.
    destruct (Z.eqb_spec (read_window_size e) 0) as [Hz | Hz].
    + rewrite IH, extents_contents_cons. f_equal.
      unfold extent_contents, view. unfold read_window_size in Hz.
      rewrite Hz. now rewrite subrange_empty by lia.
    + rewrite IH, map_app, concat_app, <- app_assoc. f_equal.
      cbn [map concat]. rewrite app_nil_r, extents_contents_cons. f_equal.
      unfold range_view. cbn [fst snd extents].
      rewrite nth_error_app2, Nat.sub_diag by lia. reflexivity.
Qed.

Lemma dynamic_contents_extents b :
  contents b = extents_contents (extents b).
Proof.
  unfold contents, readable_ranges. destruct b as [l wp].
  cbn [extents]. apply (readable_loop_view l [] [] wp).
Qed.

Lemma readable_loop_size : forall l i ret,
  total_size (readable_loop i l ret)
  = total_size ret + extents_readable l.
Proof.
  induction l as [|e l IH]; intros i ret; cbn [readable_loop].
  - simpl. lia.
  - rewrite extents_readable_cons.
    destruct (Z.eqb_spec (read_window_size e) 0) as [Hz | Hz].
    + rewrite IH. lia.
    + rewrite IH. unfold total_size. rewrite fold_right_app.
      cbn [fold_right snd].
      assert (Hacc : forall (r : list (nat * span)) z,
                 fold_right (fun r acc => span_size (snd r) + acc) z r
                 = fold_right (fun r acc => span_size (snd r) + acc) 0 r + z).
      { induction r as [|x r IHr]; intros z; simpl; [lia | ].
        rewrite IHr. lia. }
      rewrite Hacc. unfold read_window_size. lia.
Qed.

Lemma dynamic_readable_size_extents b :
  readable_size b = extents_readable (extents b).
Proof.
  unfold readable_size, readable_ranges. rewrite readable_loop_size.
  reflexivity.
Qed.

Lemma readable_loop_none : forall l i ret,
  extents_readable l = 0 -> Forall wf l ->
  readable_loop i l ret = ret.
Proof.
  induction l as [|e l IH]; intros i ret Hz Hw; cbn [readable_loop];
    [reflexivity | ].
  inversion Hw as [|? ? He Hl]; subst.
  rewrite extents_readable_cons in Hz.
  pose proof (extents_readable_nonneg l Hl).
  assert (0 <= read_window_size e) by (ext_unfold; lia).
  replace (read_window_size e =? 0) with true by bool_lia.
  apply IH; [lia | assumption].
Qed.

(** *** Growth *)

Lemma ensure_minfree_length b b' :
  ensure_minfree extent_size blank b = Ok b' ->
  (length (extents b) <= length (extents b'))%nat.
Proof.
  unfold ensure_minfree, emplace_back, set_extents, set_write_pointer.
  destruct (needs_space extent_size b); cbn [extents write_pointer].
  - destruct (at_index _ _) as [e | | | ]; cbn [bind]; try discriminate.
    destruct (write_window_size extent_size e =? 0); intros [= <-];
      cbn [extents]; rewrite length_app; lia.
  - intros [= <-]. lia.
Qed.

Lemma dynamic_write_loop_length fuel : forall buf b b',
  write_loop extent_size blank fuel buf b = Ok b' ->
  (length (extents b) <= length (extents b'))%nat.
Proof.
  induction fuel as [|fuel IH]; intros buf b b' H; [discriminate | ].
  cbn [write_loop] in H.
  set (b1 := if (write_pointer b =? length (extents b))%nat
             then emplace_back extent_size blank b else b) in *.
  assert (Hb1 : (length (extents b) <= length (extents b1))%nat).
  { subst b1. destruct (_ =? _)%nat; [ | lia].
    unfold emplace_back, set_extents. cbn [extents].
    rewrite length_app. lia. }
  destruct (at_index _ _) as [e | | | ]; cbn [bind] in H; try discriminate.
  destruct (fixed_buffer.write extent_size buf e) as (e', n).
  unfold set_extents, set_write_pointer in H.
  cbn [extents write_pointer] in H.
  destruct (size (subspan_from n buf) =? 0).
  - apply ensure_minfree_length in H. cbn [extents] in H.
    rewrite length_replace_at in H. lia.
  - apply IH in H. cbn [extents] in H.
    rewrite length_replace_at in H. lia.
Qed.

Lemma dynamic_write_length fuel src b b' n :
  write extent_size blank fuel src b = Ok (b', n) ->
  (length (extents b) <= length (extents b'))%nat.
Proof.
  unfold write. destruct (size src =? 0); [intros [= <- _]; lia | ].
  destruct (assert _) as [u | | | ]; cbn [bind]; try discriminate.
  destruct (write_loop extent_size blank fuel src b) as [b1 | | | ] eqn:Hl;
    cbn [bind]; try discriminate.
  intros [= <- _]. eapply dynamic_write_loop_length; eassumption.
Qed.

(** *** The writable ranges *)

Lemma extents_writable_nonneg l : Forall wf l -> 0 <= extents_writable extent_size l.
Proof.
  induction 1 as [|e l He _ IH]; simpl; [lia | ].
  ext_unfold. lia.
Qed.


Lemma total_size_app (r r' : list (nat * span)) :
  total_size (r ++ r') = total_size r + total_size r'.
Proof.
  induction r as [|x r IH]; simpl; [reflexivity | ]. rewrite IH. lia.
Qed.

Lemma writable_loop_size wp : forall l i ret r,
  writable_loop extent_size wp i l ret = Ok r ->
  total_size r = total_size ret + extents_writable extent_size l.
Proof.
  induction l as [|e l IH]; intros i ret r; cbn [writable_loop].
  - intros [= <-]. simpl. lia.
  - destruct (assert (0 <? _)) as [u | | | ]; cbn [bind]; try discriminate.
    destruct (assert (_ || _)) as [u' | | | ]; cbn [bind]; try discriminate.
    intros H. apply IH in H. rewrite H, total_size_app.
    unfold extents_writable, total_size. cbn [fold_right snd].
    unfold write_window_size. lia.
Qed.

Lemma needs_space_false b :
  needs_space extent_size b = false ->
  exists l back,
    extents b = l ++ [back]
    /\ minfree extent_size <= write_window_size extent_size back.
Proof.
  unfold needs_space. destruct (rev (extents b)) as [|back l] eqn:Hr;
    [discriminate | ].
  intros H. exists (rev l), back. split; [ | bool_lia].
  rewrite <- (rev_involutive (extents b)), Hr. reflexivity.
Qed.

Lemma needs_space_true b :
  needs_space extent_size b = true ->
  extents b = []
  \/ exists l back,
       extents b = l ++ [back]
       /\ write_window_size extent_size back < minfree extent_size.
Proof.
  unfold needs_space. destruct (rev (extents b)) as [|back l] eqn:Hr.
  - intros _. left. rewrite <- (rev_involutive (extents b)), Hr.
    reflexivity.
  - intros H. right. exists (rev l), back. split; [ | bool_lia].
    rewrite <- (rev_involutive (extents b)), Hr. reflexivity.
Qed.


(** *** The empty buffer *)

Lemma dynamic_empty b :
  inv b -> extents_readable (extents b) = 0 ->
  readable_ranges b = []
  /\ (forall fuel n, discard extent_size (S fuel) n b = Ok (b, 0))
  /\ (forall fuel dst, read extent_size (S fuel) dst b = Ok (b, dst, 0)).
Proof.
  intros Hinv Hz. assert (Hw : Forall wf (extents b)) by apply Hinv.
  split; [ | split].
  - unfold readable_ranges. now apply readable_loop_none.
  - intros fuel n. unfold discard. cbn [discard_loop].
    destruct (extents b) as [|front rest]; [reflexivity | ].
    inversion Hw as [|? ? He Hl]; subst.
    rewrite extents_readable_cons in Hz.
    pose proof (extents_readable_nonneg rest Hl).
    assert (0 <= read_window_size front) by (ext_unfold; lia).
    replace (read_window_size front =? 0) with true by bool_lia.
    reflexivity.
  - intros fuel dst. unfold read.
    destruct (size dst =? 0); [reflexivity | ]. cbn [read_loop].
    destruct (extents b) as [|front rest]; [reflexivity | ].
    inversion Hw as [|? ? He Hl]; subst.
    rewrite extents_readable_cons in Hz.
    pose proof (extents_readable_nonneg rest Hl).
    assert (0 <= read_window_size front) by (ext_unfold; lia).
    replace (read_window_size front =? 0) with true by bool_lia.
    reflexivity.
Qed.
End DynamicLemmas.

(** ** The properties of the two buffers *)

Section Properties.
Context {A : Type}.

Local Open Scope Z_scope.

Local Abbreviation ring := (circular_buffer.t A).
Local Abbreviation dynamic := (dynamic_buffer.t A).

(** C1.  Round trip: starting from an empty buffer, writing a sequence no
    longer than the available capacity (which bounds the ring buffer
    only) and then reading as many units into a destination yields the
    written sequence, in order, for the ring buffer and for the segmented
    buffer. *)
Theorem write_read_round_trip
    (buffer_size extent_size : Z) (blank : A)
    (rb : ring) (db : dynamic) (src dst : list A) (fuel : nat) :
  valid_buffer_size buffer_size ->
  ring_wf buffer_size rb ->
  circular_buffer.read_pointer rb = circular_buffer.write_pointer rb ->
  size src <= circular_buffer.writable_size buffer_size rb ->
  0 < extent_size ->
  reachable extent_size blank db ->
  dynamic_buffer.readable_size db = 0 ->
  size dst = size src ->
  (write_fuel src db <= fuel)%nat ->
  (exists rb1 rb2,
      circular_buffer.write buffer_size src rb = Ok (rb1, size src)
      /\ circular_buffer.read buffer_size dst rb1
         = Ok (rb2, src, size src))
  /\ (exists db1,
         dynamic_buffer.write extent_size blank fuel src db
         = Ok (db1, size src)
         /\ forall fuel', (drain_fuel db1 <= fuel')%nat ->
            exists db2,
              dynamic_buffer.read extent_size fuel' dst db1
              = Ok (db2, src, size src)).
Proof.
  intros Hsize Hwf Hempty Hcap Hext Hreach Hnone Hdst Hfuel.
  pose proof (size_nonneg src) as Hsrc. split.
  - destruct (ring_write_spec buffer_size Hsize src rb Hwf)
      as (rb1 & Hw & Hwf1 & _ & Hc).
    rewrite Z.min_l in Hw, Hc by lia.
    assert (Hnil : circular_buffer.contents buffer_size rb = []).
    { apply size_zero_nil. rewrite ring_size_contents by assumption.
      now apply empty_pointers. }
    rewrite Hnil, subspan_to_all in Hc by lia. cbn [app] in Hc.
    destruct (ring_read_spec buffer_size Hsize dst rb1 Hwf1)
      as (rb2 & Hr & _).
    rewrite <- (ring_size_contents buffer_size Hsize rb1 Hwf1), Hc in Hr.
    rewrite Hdst, Z.min_id in Hr.
    rewrite subspan_to_all, subspan_from_all, app_nil_r in Hr by lia.
    exists rb1, rb2. auto.
  - destruct (reachable_inv extent_size blank Hext db Hreach) as (Hinv & _).
    destruct (dynamic_write_spec extent_size blank Hext fuel src db Hinv
                Hfuel) as (db1 & Hw & Hinv1 & Hc & _).
    rewrite dynamic_readable_size_extents in Hnone.
    assert (Hnil : extents_contents (dynamic_buffer.extents db) = []).
    { apply size_zero_nil.
      rewrite (size_extents_contents extent_size) by apply Hinv.
      assumption. }
    rewrite Hnil in Hc. cbn [app] in Hc.
    exists db1. split; [exact Hw | ]. intros fuel' Hfuel'.
    destruct (dynamic_read_spec extent_size Hext fuel' dst db1 Hinv1 Hfuel')
      as (db2 & Hr & _).
    rewrite <- (size_extents_contents extent_size), Hc in Hr
      by apply Hinv1.
    rewrite Hdst, Z.min_id in Hr.
    rewrite subspan_to_all, subspan_from_all, app_nil_r in Hr by lia.
    exists db2. exact Hr.
Qed.

(** C2.  The segmented buffer's [write] is never short: in every
    reachable state and for every source it consumes all of the source
    and returns its length, the queue of extents only growing; so does a
    write of [k] times the extent size plus one unit. *)
Theorem dynamic_write_never_short
    (extent_size : Z) (blank : A) (b : dynamic) (src : list A)
    (fuel : nat) :
  0 < extent_size ->
  reachable extent_size blank b ->
  (write_fuel src b <= fuel)%nat ->
  exists b',
    dynamic_buffer.write extent_size blank fuel src b = Ok (b', size src)
    /\ dynamic_buffer.contents b' = dynamic_buffer.contents b ++ src
    /\ dynamic_buffer.readable_size b'
       = dynamic_buffer.readable_size b + size src
    /\ (length (dynamic_buffer.extents b)
        <= length (dynamic_buffer.extents b'))%nat
    /\ reachable extent_size blank b'.
Proof.
  intros Hext Hreach Hfuel.
  destruct (reachable_inv extent_size blank Hext b Hreach) as (Hinv & _).
  destruct (dynamic_write_spec extent_size blank Hext fuel src b Hinv Hfuel)
    as (b' & Hw & Hinv' & Hc & _).
  exists b'. split; [exact Hw | ].
  rewrite !dynamic_contents_extents, !dynamic_readable_size_extents.
  split; [exact Hc | ]. split; [ | split].
  - rewrite <- !(size_extents_contents extent_size), Hc, size_app
      by (apply Hinv || apply Hinv').
    reflexivity.
  - eapply dynamic_write_length; eassumption.
  - eapply reach_write; eassumption.
Qed.

(** C3.  Capacity bound of the ring buffer: after any sequence of calls
    on a new buffer, the number of unread units is at most the size of
    the storage minus one. *)
Theorem ring_capacity_bound
    (buffer_size : Z) (storage : list A) (ops : list (ring_op (A:=A)))
    (b : ring) :
  valid_buffer_size buffer_size ->
  size storage = buffer_size + 1 ->
  ring_run buffer_size ops (circular_buffer.create storage) = Ok b ->
  size (circular_buffer.data b) = size storage
  /\ (exists ranges,
        circular_buffer.readable_ranges buffer_size b = Ok ranges
        /\ circular_buffer.readable_size buffer_size b
           = circular_buffer.total_size ranges)
  /\ 0 <= circular_buffer.readable_size buffer_size b
     <= size (circular_buffer.data b) - 1.
Proof.
  intros Hsize Hst Hrun.
  pose proof (ring_run_wf buffer_size Hsize ops _ b
                (ring_create_wf buffer_size Hsize storage Hst) Hrun) as Hwf.
  pose proof (ring_readable_size_bound buffer_size Hsize b Hwf) as Hb.
  destruct (readable_ranges_inside buffer_size Hsize b Hwf)
    as (ranges & Hr & _).
  destruct Hwf as (Hd & _). rewrite Hd, Hst.
  split; [reflexivity | ]. split; [ | lia].
  exists ranges. split; [exact Hr | ].
  unfold circular_buffer.readable_size. now rewrite Hr.
Qed.

(** C7.  Short write of the ring buffer: a write of more units than the
    free space returns the free space, leaves the buffer full and stores
    the first units of the source, as many as there was free space. *)
Theorem ring_short_write
    (buffer_size : Z) (b : ring) (src : list A) :
  valid_buffer_size buffer_size ->
  ring_wf buffer_size b ->
  circular_buffer.writable_size buffer_size b < size src ->
  exists b',
    circular_buffer.write buffer_size src b
    = Ok (b', circular_buffer.writable_size buffer_size b)
    /\ circular_buffer.writable_size buffer_size b' = 0
    /\ circular_buffer.readable_size buffer_size b' = buffer_size
    /\ circular_buffer.contents buffer_size b'
       = circular_buffer.contents buffer_size b
         ++ subspan_to (circular_buffer.writable_size buffer_size b) src
    /\ readable_ok buffer_size b /\ readable_ok buffer_size b'.
Proof.
  intros Hsize Hwf Hlt.
  destruct (ring_write_spec buffer_size Hsize src b Hwf)
    as (b' & Hw & Hwf' & _ & Hc).
  rewrite Z.min_r in Hw, Hc by lia.
  pose proof (ring_readable_size_bound buffer_size Hsize b Hwf) as Hb.
  pose proof (ring_writable_size_eq buffer_size Hsize b Hwf) as Hws.
  assert (Hr : circular_buffer.readable_size buffer_size b' = buffer_size).
  { rewrite <- ring_size_contents, Hc, size_app, ring_size_contents
      by assumption.
    rewrite size_subspan_to by lia. lia. }
  exists b'. split; [exact Hw | ].
  rewrite (ring_writable_size_eq buffer_size Hsize b' Hwf'), Hr.
  split; [lia | ]. split; [reflexivity | ]. split; [exact Hc | ].
  split; apply ring_readable_ok; assumption.
Qed.

(** C9.  [commit n] of the ring buffer, for [n] within the writable
    ranges: it returns [n], moves the write pointer by [n] around the
    end of the storage, and makes the first [n] units of the writable
    space readable behind the unread data, which it leaves as they
    are. *)
Theorem ring_commit_within_writable
    (buffer_size : Z) (b : ring) (n : Z) :
  valid_buffer_size buffer_size ->
  ring_wf buffer_size b ->
  0 <= n <= circular_buffer.writable_size buffer_size b ->
  exists b',
    circular_buffer.commit buffer_size n b = Ok (b', n)
    /\ circular_buffer.data b' = circular_buffer.data b
    /\ circular_buffer.read_pointer b' = circular_buffer.read_pointer b
    /\ circular_buffer.write_pointer b'
       = (circular_buffer.write_pointer b + n) mod (buffer_size + 1)
    /\ circular_buffer.contents buffer_size b'
       = circular_buffer.contents buffer_size b
         ++ subspan_to n (circular_buffer.writable_space buffer_size b)
    /\ circular_buffer.readable_size buffer_size b'
       = circular_buffer.readable_size buffer_size b + n
    /\ readable_ok buffer_size b /\ readable_ok buffer_size b'.
Proof.
  intros Hsize Hwf Hn.
  destruct (ring_commit_spec buffer_size Hsize n b Hwf Hn)
    as (b' & Hc & Hd & Hr & Hw & Hwf' & Hcs).
  exists b'. repeat (split; [assumption | ]).
  split; [ | split; apply ring_readable_ok; assumption].
  rewrite <- !ring_size_contents, Hcs, size_app by assumption.
  f_equal. rewrite size_subspan_to_gen.
  assert (Hs : size (circular_buffer.writable_space buffer_size b)
               = circular_buffer.writable_size buffer_size b).
  { unfold circular_buffer.writable_space, circular_buffer.writable_size.
    pose proof (writable_ranges_inside buffer_size b Hwf) as Hin.
    induction Hin as [|s l Hs _ IH]; [reflexivity | ].
    cbn [map concat circular_buffer.total_size fold_right].
    rewrite size_app, size_view by assumption.
    unfold circular_buffer.total_size in IH. rewrite IH. reflexivity. }
  rewrite Hs. lia.
Qed.

(** C8.  [discard n] takes exactly the smaller of [n] and the number of
    unread units off the front, in the ring buffer and in the segmented
    buffer; on a buffer without unread data, new or drained, [read] and
    [discard] return 0 and change nothing, and [readable_ranges] is
    empty. *)
Theorem discard_counts_and_empty_buffer
    (buffer_size extent_size : Z) (blank : A)
    (rb : ring) (db : dynamic) (n : Z) (dst : list A) (fuel : nat) :
  valid_buffer_size buffer_size ->
  ring_wf buffer_size rb ->
  0 < extent_size ->
  reachable extent_size blank db ->
  0 <= n ->
  (drain_fuel db <= fuel)%nat ->
  (exists rb',
      circular_buffer.discard buffer_size n rb
      = Ok (rb', Z.min n (circular_buffer.readable_size buffer_size rb))
      /\ circular_buffer.contents buffer_size rb'
         = subspan_from
             (Z.min n (circular_buffer.readable_size buffer_size rb))
             (circular_buffer.contents buffer_size rb)
      /\ readable_ok buffer_size rb /\ readable_ok buffer_size rb')
  /\ (exists db',
         dynamic_buffer.discard extent_size fuel n db
         = Ok (db', Z.min n (dynamic_buffer.readable_size db))
         /\ dynamic_buffer.contents db'
            = subspan_from (Z.min n (dynamic_buffer.readable_size db))
                (dynamic_buffer.contents db))
  /\ (circular_buffer.readable_size buffer_size rb = 0 ->
      circular_buffer.read buffer_size dst rb = Ok (rb, dst, 0)
      /\ circular_buffer.discard buffer_size n rb = Ok (rb, 0)
      /\ circular_buffer.readable_ranges buffer_size rb = Ok [])
  /\ (dynamic_buffer.readable_size db = 0 ->
      dynamic_buffer.read extent_size fuel dst db = Ok (db, dst, 0)
      /\ dynamic_buffer.discard extent_size fuel n db = Ok (db, 0)
      /\ dynamic_buffer.readable_ranges db = []).
Proof.
  intros Hsize Hwf Hext Hreach Hn Hfuel.
  destruct (reachable_inv extent_size blank Hext db Hreach) as (Hinv & _).
  split; [ | split; [ | split ] ].
  - destruct (ring_discard_spec buffer_size Hsize n rb Hwf Hn)
      as (rb' & Hd & _ & _ & Hwf' & Hc).
    exists rb'. split; [exact Hd | ]. split; [exact Hc | ].
    split; apply ring_readable_ok; assumption.
  - destruct (dynamic_discard_spec extent_size Hext fuel n db Hinv Hn Hfuel)
      as (db' & Hd & _ & Hc & _).
    exists db'.
    rewrite !dynamic_contents_extents, dynamic_readable_size_extents. auto.
  - intros Hz. apply (empty_pointers buffer_size Hsize rb Hwf) in Hz.
    destruct (empty_ring buffer_size rb Hz) as (Hr & Hd & Hrd). auto.
  - rewrite dynamic_readable_size_extents. intros Hz.
    destruct (dynamic_empty extent_size db Hinv Hz) as (Hr & Hd & Hrd).
    unfold drain_fuel in Hfuel. destruct fuel as [|fuel]; [lia | ]. auto.
Qed.

(** C10.  In every reachable state of the segmented buffer, when the
    front extent has nothing to read no extent has; hence [read] and
    [discard], which stop at such a front extent, give all the unread
    data there is up to the amount asked for. *)
Theorem front_empty_means_all_empty
    (extent_size : Z) (blank : A) (b : dynamic)
    (front : fixed_buffer.t A) (rest : list (fixed_buffer.t A))
    (n : Z) (dst : list A) (fuel : nat) :
  0 < extent_size ->
  reachable extent_size blank b ->
  dynamic_buffer.extents b = front :: rest ->
  dynamic_buffer.read_window_size front = 0 ->
  0 <= n ->
  (drain_fuel b <= fuel)%nat ->
  Forall (fun e => dynamic_buffer.read_window_size e = 0) rest
  /\ dynamic_buffer.readable_size b = 0
  /\ dynamic_buffer.discard extent_size fuel n b
     = Ok (b, Z.min n (dynamic_buffer.readable_size b))
  /\ dynamic_buffer.read extent_size fuel dst b
     = Ok (b, dst, Z.min (size dst) (dynamic_buffer.readable_size b)).
Proof.
  intros Hext Hreach Hb Hfront Hn Hfuel.
  destruct (reachable_inv extent_size blank Hext b Hreach) as (Hinv & _).
  destruct b as [l wp]. cbn [dynamic_buffer.extents] in Hb. subst l.
  pose proof (front_empty_all_empty extent_size Hext front rest wp Hinv Hfront)
    as Hfresh.
  assert (Hz : extents_readable (front :: rest) = 0).
  { rewrite extents_readable_cons, Hfront.
    now rewrite (extents_readable_fresh rest Hfresh). }
  split; [ | split ].
  - eapply Forall_impl; [ | exact Hfresh].
    intros e (Hr & Hw). unfold dynamic_buffer.read_window_size,
      fixed_buffer.read_window, make_span. cbn [span_size]. lia.
  - now rewrite dynamic_readable_size_extents.
  - rewrite dynamic_readable_size_extents. cbn [dynamic_buffer.extents].
    rewrite Hz. pose proof (size_nonneg dst). rewrite !Z.min_r by lia.
    destruct (dynamic_empty extent_size _ Hinv Hz) as (_ & Hd & Hrd).
    unfold drain_fuel in Hfuel. destruct fuel as [|fuel]; [lia | ]. auto.
Qed.

(** C5, as amended.  [ensure_minfree] appends a new extent exactly when
    there is no extent or the write capacity left in the last extent is
    below [minfree]; when it appends and the extent at [write_pointer]
    has no write capacity left, it moves [write_pointer] on by one, and
    [write_pointer] then designates an extent with write capacity.  This
    is for every state of the queue of extents [write], [commit] and
    [writable_ranges] call it in, the extent at [write_pointer] just
    filled or not. *)
Theorem ensure_minfree_appends_on_low_back
    (extent_size : Z) (blank : A) (b : dynamic) :
  0 < extent_size ->
  dynamic_inv extent_size b ->
  let low_back :=
    dynamic_buffer.extents b = []
    \/ exists l back,
         dynamic_buffer.extents b = l ++ [back]
         /\ dynamic_buffer.write_window_size extent_size back
            < dynamic_buffer.minfree extent_size in
  exists b',
    dynamic_buffer.ensure_minfree extent_size blank b = Ok b'
    /\ (low_back ->
        dynamic_buffer.extents b'
        = dynamic_buffer.extents b ++ [new_extent extent_size blank]
        /\ dynamic_buffer.write_pointer b'
           = match write_target b with
             | Some e =>
                 if dynamic_buffer.write_window_size extent_size e =? 0
                 then S (dynamic_buffer.write_pointer b)
                 else dynamic_buffer.write_pointer b
             | None => dynamic_buffer.write_pointer b
             end
        /\ exists e',
             write_target b' = Some e'
             /\ 0 < dynamic_buffer.write_window_size extent_size e')
    /\ (~ low_back ->
        dynamic_buffer.extents b' = dynamic_buffer.extents b).
Proof.
  intros Hext Hinv low_back.
  unfold dynamic_buffer.ensure_minfree.
  destruct (dynamic_buffer.needs_space extent_size b) eqn:Hn.
  - pose proof (needs_space_true extent_size b Hn) as Hlow.
    unfold dynamic_buffer.emplace_back, dynamic_buffer.set_extents,
      dynamic_buffer.set_write_pointer, write_target.
    fold (new_extent extent_size blank).
    cbn [dynamic_buffer.extents dynamic_buffer.write_pointer].
    destruct (inv_here extent_size b Hinv) as [Hlt | Hend].
    + destruct (inv_split b Hlt) as (pre & e & post & ->).
      cbn [dynamic_buffer.extents dynamic_buffer.write_pointer] in *.
      apply inv_at in Hinv as (Hw & _ & _ & Hp).
      apply Forall_app in Hw as (_ & Hw).
      inversion Hw as [|? ? (_ & _ & _ & Hwe) _]; subst.
      rewrite <- app_assoc, <- app_comm_cons, at_index_app.
      cbn [bind]. rewrite nth_error_app2, Nat.sub_diag by lia.
      cbn [nth_error].
      destruct (Z.eqb_spec
                  (dynamic_buffer.write_window_size extent_size e) 0)
        as [He | He]; eexists; (split; [reflexivity | ]);
        cbn [dynamic_buffer.extents dynamic_buffer.write_pointer];
        (split; [intros _ | intros Hno; now elim Hno]);
        (split; [reflexivity | ]); (split; [reflexivity | ]).
      * rewrite nth_error_app2 by lia.
        replace (S (length pre) - length pre)%nat with 1%nat by lia.
        cbn [nth_error].
        assert (Hf : Forall extent_fresh
                       (post ++ [new_extent extent_size blank])).
        { apply Forall_app. split; [assumption | ].
          constructor; [apply new_extent_fresh | constructor]. }
        destruct (post ++ [new_extent extent_size blank]) as [|e' l] eqn:Hl;
          [now destruct post | ].
        inversion Hf as [|? ? (Hr' & Hw') _]; subst.
        exists e'. split; [reflexivity | ].
        unfold dynamic_buffer.write_window_size,
          fixed_buffer.write_window, make_span. cbn [span_size]. lia.
      * rewrite nth_error_app2, Nat.sub_diag by lia. cbn [nth_error].
        exists e. split; [reflexivity | ].
        unfold dynamic_buffer.write_window_size,
          fixed_buffer.write_window, make_span in *.
        cbn [span_size] in *. lia.
    + (* [write_pointer] is past the last extent, or there is none *)
      destruct b as [l wp].
      cbn [dynamic_buffer.extents dynamic_buffer.write_pointer] in *.
      injection Hend as Hwp. subst wp.
      rewrite (at_index_app l (new_extent extent_size blank) []).
      cbn [bind].
      assert (Hnew : 0 < dynamic_buffer.write_window_size extent_size
                           (new_extent extent_size blank)).
      { unfold new_extent, dynamic_buffer.write_window_size,
          fixed_buffer.write_window, fixed_buffer.create, make_span.
        cbn [span_size fixed_buffer.write_cursor]. lia. }
      replace (dynamic_buffer.write_window_size extent_size
                 (new_extent extent_size blank) =? 0) with false
        by (symmetry; apply Z.eqb_neq; lia).
      eexists. split; [reflexivity | ].
      cbn [dynamic_buffer.extents dynamic_buffer.write_pointer].
      split; [intros _ | intros Hno; now elim Hno].
      split; [reflexivity | ]. split.
      * now rewrite (proj2 (nth_error_None l (length l)) (le_n _)).
      * exists (new_extent extent_size blank). split; [ | exact Hnew].
        rewrite nth_error_app2, Nat.sub_diag by lia. reflexivity.
  - exists b. split; [reflexivity | ].
    split; [ | reflexivity].
    intros Hlow. exfalso.
    destruct (needs_space_false extent_size b Hn) as (l & back & Hb & Hm).
    destruct Hlow as [Hnil | (l' & back' & Hb' & Hm')].
    + rewrite Hnil in Hb. now destruct l.
    + rewrite Hb in Hb'. apply app_inj_tail in Hb' as (_ & <-). lia.
Qed.
End Properties.

(** ** The wraparound scenario *)

Section ScenarioProperties.
Context {T : Type}.

Local Open Scope Z_scope.

(** C4.  Wraparound on a ring buffer of capacity 8: six units written,
    four read, five more written around the end of the storage, and the
    seven unread units come out in the order written.  Capacity 8 is
    taken both as a storage of 8 elements and as [buffer_size = 8]. *)
Theorem ring_wraparound_scenario
    (A B C D E F G H I J K : T)
    (s0 s1 s2 s3 s4 s5 s6 s7 s8 x0 x1 x2 x3 y0 y1 y2 y3 y4 y5 y6 : T) :
  wraparound A B C D E F G H I J K 7
    [s0; s1; s2; s3; s4; s5; s6; s7] [x0; x1; x2; x3]
    [y0; y1; y2; y3; y4; y5; y6]
  /\ wraparound A B C D E F G H I J K 8
       [s0; s1; s2; s3; s4; s5; s6; s7; s8] [x0; x1; x2; x3]
       [y0; y1; y2; y3; y4; y5; y6].
Proof.
  split; unfold wraparound; do 4 eexists;
    repeat (split; [vm_compute; reflexivity | ]); vm_compute; reflexivity.
Qed.
End ScenarioProperties.

(** ** The properties at the instances *)

Section InstanceProperties.
Local Open Scope Z_scope.
Local Open Scope char_scope.

Import dynamic_buffer.

(** Closed comparisons of integers. *)
Ltac compare :=
  repeat split; vm_compute; try reflexivity; try discriminate.

Lemma example_abc_reachable : reachable 4 "." example_abc.
Proof.
  apply (reach_write 4 "." 4 (letters "ABC") create example_abc 3);
    [apply reach_create | reflexivity].
Defined.

Lemma example_abcd_reachable : reachable 4 "." example_abcd.
Proof.
  apply (reach_write 4 "." 4 (letters "D") example_abc example_abcd 1);
    [apply example_abc_reachable | reflexivity].
Defined.

Lemma example_drained_reachable : reachable 4 "." example_drained.
Proof.
  apply (reach_read 4 "." 4 (letters "???") example_abc example_drained
           (letters "ABC") 3);
    [apply example_abc_reachable | reflexivity].
Defined.


Lemma valid_buffer_size_7 : valid_buffer_size 7.
Proof. compare. Defined.

(** The round trip of "HELLO" through a new ring buffer and through a
    new segmented buffer. *)
Lemma write_read_round_trip_witness :
  (exists rb1 rb2,
      circular_buffer.write 7 (letters "HELLO")
        (circular_buffer.create (letters "........"))
      = Ok (rb1, 5)
      /\ circular_buffer.read 7 (letters "?????") rb1
         = Ok (rb2, letters "HELLO", 5))
  /\ (exists db1,
         write 4 "."%char 6 (letters "HELLO") create = Ok (db1, 5)
         /\ forall fuel', (drain_fuel db1 <= fuel')%nat ->
            exists db2,
              read 4 fuel' (letters "?????") db1
              = Ok (db2, letters "HELLO", 5)).
Proof.
  apply (write_read_round_trip 7 4 "."%char
           (circular_buffer.create (letters "........")) create
           (letters "HELLO") (letters "?????") 6).
  - exact valid_buffer_size_7.
  - compare.
  - reflexivity.
  - compare.
  - compare.
  - apply reach_create.
  - reflexivity.
  - reflexivity.
  - compare.
Defined.

(** Nine units, twice the extent size plus one, written behind "ABC". *)
Lemma dynamic_write_never_short_witness :
  exists b',
    write 4 "."%char 12 (letters "DEFGHIJKL") example_abc = Ok (b', 9)
    /\ contents b' = letters "ABCDEFGHIJKL".
Proof.
  destruct (dynamic_write_never_short 4 "."%char example_abc
              (letters "DEFGHIJKL") 12)
    as (b' & Hw & Hc & _).
  - compare.
  - exact example_abc_reachable.
  - compare.
  - exists b'. split; [exact Hw | exact Hc].
Defined.

Lemma ring_capacity_bound_witness :
  size (circular_buffer.data example_ring) = 8
  /\ 0 <= circular_buffer.readable_size 7 example_ring <= 8 - 1.
Proof.
  refine ((fun H => conj (proj1 H) (proj2 (proj2 H))) _).
  apply (ring_capacity_bound 7 (letters "........")
           [ring_write (letters "ABCDEF"); ring_read (letters "????");
            ring_write (letters "GHIJK"); ring_commit 0; ring_discard 2;
            ring_store 3 "x"%char]
           example_ring).
  - exact valid_buffer_size_7.
  - reflexivity.
  - reflexivity.
Defined.

(** Three units written where one fits. *)
Lemma ring_short_write_witness :
  exists b',
    circular_buffer.write 7 (letters "XYZ") example_ring_abcdef
    = Ok (b', 1)
    /\ circular_buffer.writable_size 7 b' = 0
    /\ circular_buffer.readable_size 7 b' = 7
    /\ circular_buffer.contents 7 b' = letters "ABCDEFX".
Proof.
  destruct (ring_short_write 7 example_ring_abcdef (letters "XYZ"))
    as (b' & Hw & Hz & Hr & Hc & _).
  - exact valid_buffer_size_7.
  - compare.
  - compare.
  - exists b'. split; [exact Hw | ]. split; [exact Hz | ].
    split; [exact Hr | exact Hc].
Defined.

Lemma ring_commit_within_writable_witness :
  exists b',
    circular_buffer.commit 7 4 example_ring_ef = Ok (b', 4)
    /\ circular_buffer.write_pointer b' = 2.
Proof.
  destruct (ring_commit_within_writable 7 example_ring_ef 4)
    as (b' & Hc & _ & _ & Hw & _).
  - exact valid_buffer_size_7.
  - compare.
  - compare.
  - exists b'. split; [exact Hc | exact Hw].
Defined.

Lemma discard_counts_and_empty_buffer_witness :
  (exists rb',
      circular_buffer.discard 7 9 example_ring_abcdef = Ok (rb', 6))
  /\ (exists db', discard 4 6 9 example_abc = Ok (db', 3))
  /\ read 4 6 (letters "??") example_drained
     = Ok (example_drained, letters "??", 0).
Proof.
  destruct (discard_counts_and_empty_buffer 7 4 "."%char
              example_ring_abcdef example_abc 9 (letters "??") 6)
    as ((rb' & Hr & _) & (db' & Hd & _) & _).
  - exact valid_buffer_size_7.
  - compare.
  - compare.
  - exact example_abc_reachable.
  - compare.
  - compare.
  - split; [exists rb'; exact Hr | ]. split; [exists db'; exact Hd | ].
    reflexivity.
Defined.

Lemma front_empty_means_all_empty_witness :
  readable_size example_drained = 0
  /\ discard 4 6 2 example_drained = Ok (example_drained, 0).
Proof.
  destruct (front_empty_means_all_empty 4 "."%char example_drained
              {| fixed_buffer.data := letters "ABC.";
                 fixed_buffer.read_cursor := 3;
                 fixed_buffer.write_cursor := 3 |}
              [new_extent 4 "."%char] 2 (letters "??") 6)
    as (_ & Hz & Hd & _).
  - compare.
  - exact example_drained_reachable.
  - reflexivity.
  - reflexivity.
  - compare.
  - compare.
  - split; [exact Hz | exact Hd].
Defined.

Lemma example_full_target_inv : dynamic_inv 4 example_full_target.
Proof.
  unfold dynamic_inv, example_full_target.
  cbn [extents write_pointer firstn skipn length].
  repeat split; repeat constructor; vm_compute; try reflexivity;
    try discriminate.
Defined.

(** In [write("ABCD")] on a new buffer [ensure_minfree] is called with
    the only extent just filled: it appends an extent and moves
    [write_pointer] on to it. *)
Lemma ensure_minfree_appends_on_low_back_witness :
  write 4 "."%char 1 (letters "ABCD") create
  = (do b' <- ensure_minfree 4 "."%char example_full_target; Ok (b', 4))
  /\ exists b',
       ensure_minfree 4 "."%char example_full_target = Ok b'
       /\ extents b'
          = extents example_full_target ++ [new_extent 4 "."%char]
       /\ write_pointer b' = 1%nat
       /\ exists e',
            write_target b' = Some e' /\ 0 < write_window_size 4 e'.
Proof.
  split; [reflexivity | ].
  destruct (ensure_minfree_appends_on_low_back 4 "."%char
              example_full_target)
    as (b' & He & Hlow & _).
  - compare.
  - exact example_full_target_inv.
  - exists b'. split; [exact He | ].
    apply Hlow. right.
    exists [], {| fixed_buffer.data := letters "ABCD";
                  fixed_buffer.read_cursor := 0;
                  fixed_buffer.write_cursor := 4 |}.
    split; [reflexivity | compare].
Defined.

(** The write pointer of [example_abc] designates an extent with one
    unit of write capacity, less than [minfree]; [ensure_minfree] appends
    nothing, the last extent being unused. *)
Lemma ensure_minfree_write_target_counterexample :
  ~ (forall b b' : dynamic_buffer.t ascii,
        reachable 4 "."%char b ->
        ensure_minfree 4 "."%char b = Ok b' ->
        (length (extents b') = S (length (extents b))
         <-> extents b = []
             \/ exists e,
                  write_target b = Some e
                  /\ write_window_size 4 e < minfree 4)).
Proof.
  intros Hclaim.
  destruct (Hclaim example_abc example_abc example_abc_reachable eq_refl)
    as (_ & Happend).
  assert (Hlen : length (extents example_abc)
                 = S (length (extents example_abc))).
  { apply Happend. right. eexists. split; reflexivity. }
  discriminate Hlen.
Qed.

(** The write pointer can be left on a full extent: after [write] of
    three units and of one more, [ensure_minfree] appends nothing and
    moves nothing, and [writable_ranges] fails its assertion that every
    extent from [write_pointer] on has free space. *)
Lemma write_pointer_left_on_full_extent :
  reachable 4 "."%char example_abcd
  /\ write 4 "."%char 4 (letters "D") example_abc = Ok (example_abcd, 1)
  /\ option_map (write_window_size 4) (write_target example_abcd)
     = Some 0
  /\ writable_ranges 4 "."%char example_abcd = AssertionFailure.
Proof.
  split; [exact example_abcd_reachable | ].
  repeat split; reflexivity.
Qed.
End InstanceProperties.
(** ** More about circular_buffer *)

Section RingMore.
Context {A : Type}.
Variable buffer_size : Z.
Hypothesis Hsize : valid_buffer_size buffer_size.

Local Open Scope Z_scope.
Import circular_buffer.

Implicit Types b : circular_buffer.t A.

Ltac size_lia :=
  pose proof two_63_lt_64; unfold valid_buffer_size in *; lia.

Ltac ring_cases :=
  repeat (first
    [ rewrite size_cast_small by size_lia
    | match goal with
      | H : context [size_cast _] |- _ =>
          rewrite size_cast_small in H by size_lia
      | |- context [Z.eqb ?a ?b] => destruct (Z.eqb_spec a b)
      | |- context [Z.leb ?a ?b] => destruct (Z.leb_spec a b)
      | |- context [Z.ltb ?a ?b] => destruct (Z.ltb_spec a b)
      | |- context [Z.min ?a ?b] =>
          let Hm := fresh "Hm" in
          destruct (Z.min_spec a b) as [[? Hm] | [? Hm]];
          rewrite Hm in *; clear Hm
      end ];
    cbn [data read_pointer write_pointer span_begin span_size fst snd
         andb negb orb map concat app total_size fold_right length] in *;
    try lia).

Ltac ranges_unfold :=
  unfold readable_size, writable_size, readable_ranges, writable_ranges,
    assert, bind, push_nonempty, span_empty, make_span, data_end,
    data_begin, span_inside, spans_apart in *;
  cbn [data read_pointer write_pointer span_begin span_size fst snd] in *.

(** *** The ranges *)

(** X1.  The ranges a caller works with: [readable_ranges] returns, it and
    [writable_ranges] give at most two spans each, none empty, all inside
    the storage, no writable span shares an element with a readable
    one, and together they cover [buffer_size] units. *)
Theorem ring_ranges_shape b :
  ring_wf buffer_size b ->
  exists readable,
    readable_ranges buffer_size b = Ok readable
    /\ (length readable <= 2)%nat
    /\ (length (writable_ranges buffer_size b) <= 2)%nat
    /\ Forall (fun s => 0 < span_size s /\ span_inside (data b) s)
         readable
    /\ Forall (fun s => 0 < span_size s /\ span_inside (data b) s)
         (writable_ranges buffer_size b)
    /\ Forall (fun w => Forall (spans_apart w) readable)
         (writable_ranges buffer_size b)
    /\ total_size readable + total_size (writable_ranges buffer_size b)
       = buffer_size.
Proof.
  intros (Hd & Hr & Hw). ranges_unfold.
  ring_cases; (eexists; split; [reflexivity | ]);
    cbn [length app total_size fold_right span_size];
    repeat split; try lia;
    repeat constructor;
    cbn [data read_pointer write_pointer span_begin span_size]; lia.
Qed.

(** *** commit beyond the writable space *)

Lemma ring_commit_over n b :
  ring_wf buffer_size b ->
  writable_size buffer_size b < n ->
  commit buffer_size n b
  = if (0 <? write_pointer b) && (write_pointer b <? read_pointer b)
    then AssertionFailure
    else commit buffer_size (writable_size buffer_size b) b.
Proof.
  intros Hwf Hn.
  rewrite ring_writable_size_eq, ring_readable_size_eq in * by assumption.
  destruct Hwf as (Hd & Hr & Hw).
  unfold commit, assert, bind, set_write_pointer, data_end, data_begin in *;
  cbn [data read_pointer write_pointer span_begin span_size fst snd] in *.
  ring_cases; try reflexivity; do 2 f_equal; try lia; f_equal; lia.
Qed.

(** X2.  [commit n] for any [n]: with the write pointer strictly between
    [data.begin()] and the read pointer, an [n] above the writable space
    fails the assertion; in every other state [commit] returns
    [min n writable_size], and that many units of the writable space
    have become readable. *)
Theorem ring_commit_any n b :
  ring_wf buffer_size b ->
  0 <= n ->
  if (0 <? write_pointer b) && (write_pointer b <? read_pointer b)
     && (writable_size buffer_size b <? n)
  then commit buffer_size n b = AssertionFailure
  else
    let k := Z.min n (writable_size buffer_size b) in
    exists b',
      commit buffer_size n b = Ok (b', k)
      /\ data b' = data b
      /\ read_pointer b' = read_pointer b
      /\ write_pointer b' = (write_pointer b + k) mod (buffer_size + 1)
      /\ ring_wf buffer_size b'
      /\ contents buffer_size b'
         = contents buffer_size b
           ++ subspan_to k (writable_space buffer_size b).
Proof.
  intros Hwf Hn.
  pose proof (ring_readable_size_bound buffer_size Hsize b Hwf) as Hb.
  pose proof (ring_writable_size_eq buffer_size Hsize b Hwf) as Hws.
  destruct (Z.ltb_spec (writable_size buffer_size b) n) as [Hlt | Hle].
  - rewrite (ring_commit_over n b Hwf Hlt).
    rewrite Z.min_r by lia. rewrite andb_true_r.
    destruct ((0 <? write_pointer b) && (write_pointer b <? read_pointer b));
      [reflexivity | ].
    apply (ring_commit_spec buffer_size Hsize); [assumption | lia].
  - rewrite !andb_false_r. rewrite Z.min_l by lia.
    apply (ring_commit_spec buffer_size Hsize); [assumption | lia].
Qed.

(** *** Empty and full *)

Lemma succ_mod x n :
  0 <= x < n -> (x + 1) mod n = if x + 1 =? n then 0 else x + 1.
Proof.
  intros Hx. destruct (Z.eqb_spec (x + 1) n) as [-> | Hne].
  - apply Z_mod_same_full.
  - apply Z.mod_small. lia.
Qed.

(** X3.  The buffer has no unread data exactly when both pointers are
    equal, and no writable space exactly when the write pointer is one
    step (cyclically) before the read pointer, which is when
    [buffer_size] units are unread. *)
Theorem ring_empty_full b :
  ring_wf buffer_size b ->
  (readable_ranges buffer_size b = Ok []
   <-> read_pointer b = write_pointer b)
  /\ (writable_ranges buffer_size b = []
      <-> (write_pointer b + 1) mod (buffer_size + 1) = read_pointer b)
  /\ (writable_ranges buffer_size b = []
      <-> readable_size buffer_size b = buffer_size).
Proof.
  intros Hwf. pose proof Hwf as (Hd & Hr & Hw).
  rewrite (ring_readable_size_eq buffer_size Hsize b Hwf).
  rewrite (succ_mod (write_pointer b) (buffer_size + 1)) by lia.
  ranges_unfold.
  ring_cases; repeat split; intros; try discriminate; try lia;
    try reflexivity.
Qed.

(** *** Stores into the writable space *)

Lemma ring_store_contents offset v b :
  ring_wf buffer_size b ->
  in_ranges offset (writable_ranges buffer_size b) = true ->
  ring_wf buffer_size (set_data (copy_at [v] offset (data b)) b)
  /\ contents buffer_size (set_data (copy_at [v] offset (data b)) b)
     = contents buffer_size b.
Proof.
  intros Hwf Hin.
  pose proof (in_ranges_inside (data b) offset _
                (writable_ranges_inside buffer_size b Hwf) Hin) as Hoff.
  assert (Hwf' : ring_wf buffer_size
                   (set_data (copy_at [v] offset (data b)) b)).
  { destruct Hwf as (Hd & Hr & Hw). unfold ring_wf, set_data.
    cbn [data read_pointer write_pointer].
    rewrite size_copy_at by (cbn; lia). lia. }
  split; [assumption | ].
  rewrite (ring_contents_eq buffer_size Hsize _ Hwf').
  rewrite (ring_contents_eq buffer_size Hsize _ Hwf).
  destruct Hwf as (Hd & Hr & Hw).
  unfold in_ranges in Hin. ranges_unfold. unfold set_data.
  cbn [data read_pointer write_pointer].
  assert (Hv : size [v] = 1) by reflexivity.
  revert Hin.
  ring_cases; cbn [existsb span_begin span_size app]; intros Hin;
    try discriminate;
    repeat match type of Hin with
    | context [Z.leb ?a ?b] => destruct (Z.leb_spec a b)
    | context [Z.ltb ?a ?b] => destruct (Z.ltb_spec a b)
    end; cbn [andb orb] in Hin; try discriminate;
    repeat first
      [ rewrite subrange_copy_at_before by lia
      | rewrite subrange_copy_at_after by lia ];
    reflexivity.
Qed.

(** *** read and write in any state *)

(** X4.  [read] in any state: it returns [min (size dst) readable_size],
    puts the front of the unread data at the front of [dst] and leaves
    the rest of [dst] as it was; it changes neither the storage nor the
    write pointer, what was read becomes writable space, and a count
    below [size dst] leaves the buffer empty. *)
Theorem ring_read_any dst b :
  ring_wf buffer_size b ->
  let k := Z.min (size dst) (readable_size buffer_size b) in
  exists b',
    read buffer_size dst b
    = Ok (b', subspan_to k (contents buffer_size b) ++ subspan_from k dst,
          k)
    /\ data b' = data b
    /\ write_pointer b' = write_pointer b
    /\ contents buffer_size b' = subspan_from k (contents buffer_size b)
    /\ writable_size buffer_size b' = writable_size buffer_size b + k
    /\ (k < size dst -> read_pointer b' = write_pointer b').
Proof.
  intros Hwf k.
  pose proof (ring_size_contents buffer_size Hsize b Hwf) as Hsz.
  destruct (readable_ranges_inside buffer_size Hsize b Hwf)
    as (ranges & Hr & Hin).
  pose proof (size_nonneg dst) as Hdst.
  pose proof (ring_readable_size_bound buffer_size Hsize b Hwf) as Hb.
  assert (Hk : 0 <= k) by (unfold k; lia).
  destruct (ring_discard_spec buffer_size Hsize k b Hwf Hk)
    as (b' & Hdis & Hdata & Hwp & Hwf' & Hc).
  replace (Z.min k (readable_size buffer_size b)) with k in *
    by (unfold k; lia).
  assert (Hrs : readable_size buffer_size b'
                = readable_size buffer_size b - k).
  { rewrite <- (ring_size_contents buffer_size Hsize b' Hwf'), Hc.
    rewrite size_subspan_from by (unfold k; lia). lia. }
  exists b'. unfold read. rewrite Hr. cbn [bind].
  rewrite (ring_read_loop_spec ranges (data b) [] dst 0 Hin). cbn zeta.
  assert (Hcs : concat (map (view (data b)) ranges)
                = contents buffer_size b)
    by (unfold contents; now rewrite Hr).
  rewrite Hcs, Hsz. fold k. cbn [app]. rewrite Z.add_0_l, Hdis. cbn [bind].
  split; [reflexivity | ]. split; [assumption | ].
  split; [assumption | ]. split; [assumption | ].
  split.
  - rewrite !(ring_writable_size_eq buffer_size Hsize) by assumption. lia.
  - intros Hshort.
    apply (empty_pointers buffer_size Hsize b' Hwf'). unfold k in *. lia.
Qed.

Lemma app_eq_size (l1 l2 r1 r2 : list A) :
  size l1 = size r1 -> l1 ++ l2 = r1 ++ r2 -> l1 = r1 /\ l2 = r2.
Proof.
  unfold size. intros Hs. revert r1 Hs.
  induction l1 as [|x l1 IH]; intros [|y r1] Hs Heq;
    cbn [length app] in *; try lia.
  - now split.
  - injection Heq as -> Heq.
    destruct (IH r1 ltac:(lia) Heq) as (-> & ->). now split.
Qed.

Lemma same_views (d d' : list A) ranges :
  size d' = size d ->
  Forall (span_inside d) ranges ->
  concat (map (view d') ranges) = concat (map (view d) ranges) ->
  Forall (fun s => span_inside d' s /\ view d' s = view d s) ranges.
Proof.
  intros Hd Hin. induction Hin as [|s ranges Hs Hin IH];
    cbn [map concat]; intros Heq; constructor;
    assert (Hs' : span_inside d' s)
      by (unfold span_inside in *; rewrite Hd; exact Hs);
    assert (Hsz : size (view d' s) = size (view d s))
      by (rewrite !size_view by assumption; reflexivity);
    destruct (app_eq_size _ _ _ _ Hsz Heq) as (Hv & Hrest).
  - now split.
  - now apply IH.
Qed.

(** X5.  [write] in any state returns [min (size src) writable_size] and
    does not invalidate the ranges [readable_ranges] returned before it:
    each of them still lies in the storage and designates the same
    units, and the unread data are now those units followed by what was
    written. *)
Theorem ring_write_keeps_readable src b :
  ring_wf buffer_size b ->
  let k := Z.min (size src) (writable_size buffer_size b) in
  exists b' ranges,
    write buffer_size src b = Ok (b', k)
    /\ readable_ranges buffer_size b = Ok ranges
    /\ read_pointer b' = read_pointer b
    /\ write_pointer b' = (write_pointer b + k) mod (buffer_size + 1)
    /\ Forall (fun s => span_inside (data b') s
                        /\ view (data b') s = view (data b) s) ranges
    /\ contents buffer_size b'
       = concat (map (view (data b')) ranges) ++ subspan_to k src.
Proof.
  intros Hwf k.
  destruct (ring_write_loop_spec buffer_size Hsize src b Hwf)
    as (d' & Hl & Hwf' & Hc & Hs).
  fold k in Hl, Hs.
  assert (Hk : 0 <= k <= writable_size buffer_size (set_data d' b)).
  { rewrite writable_size_set_data, ring_writable_size_eq by assumption.
    pose proof (ring_readable_size_bound buffer_size Hsize b Hwf).
    pose proof (size_nonneg src).
    unfold k. rewrite ring_writable_size_eq by assumption. lia. }
  destruct (ring_commit_spec buffer_size Hsize _ _ Hwf' Hk)
    as (b' & Hcm & Hdata & Hrp & Hwp & Hwf'' & Hc').
  destruct (readable_ranges_inside buffer_size Hsize b Hwf)
    as (ranges & Hr & Hin).
  exists b', ranges. unfold write. rewrite Hl, Hcm. cbn [bind].
  split; [reflexivity | ]. split; [assumption | ].
  split; [exact Hrp | ]. split; [exact Hwp | ].
  assert (Hviews : Forall (fun s => span_inside d' s
                                    /\ view d' s = view (data b) s) ranges).
  { apply same_views.
    - destruct Hwf as (Hd & _), Hwf' as (Hd' & _).
      cbn [data set_data] in Hd'. lia.
    - assumption.
    - unfold contents in Hc.
      change (readable_ranges buffer_size (set_data d' b))
        with (readable_ranges buffer_size b) in Hc.
      rewrite Hr in Hc. exact Hc. }
  rewrite Hdata. cbn [data set_data]. split; [exact Hviews | ].
  rewrite Hc', Hc, Hs. f_equal.
  unfold contents. rewrite Hr. f_equal.
  clear - Hviews. induction Hviews as [|s l (_ & Hv) _ IH]; cbn [map].
  - reflexivity.
  - now rewrite Hv, IH.
Qed.

(** *** The buffer as a queue *)

Lemma ring_queue_step_spec (op : ring_op (A:=A)) b :
  ring_wf buffer_size b ->
  is_commit op = false ->
  exists b',
    ring_step buffer_size op b = Ok b'
    /\ ring_wf buffer_size b'
    /\ contents buffer_size b'
       = ring_queue_step buffer_size op (contents buffer_size b).
Proof.
  intros Hwf Hop.
  pose proof (ring_size_contents buffer_size Hsize b Hwf) as Hsz.
  destruct op as [src | n | dst | n | | offset v];
    cbn [is_commit] in Hop; try discriminate;
    cbn [ring_step ring_queue_step]; rewrite ?Hsz.
  - destruct (ring_write_spec buffer_size Hsize src b Hwf)
      as (b' & Hw & Hwf' & _ & Hc).
    exists b'. rewrite Hw. cbn [bind].
    rewrite <- (ring_writable_size_eq buffer_size Hsize b Hwf).
    split; [reflexivity | split; assumption].
  - destruct (ring_read_spec buffer_size Hsize dst b Hwf)
      as (b' & Hr & Hwf' & _ & Hc).
    exists b'. rewrite Hr. cbn [bind]. split; [reflexivity | split; assumption].
  - destruct (ring_discard_spec buffer_size Hsize (Z.of_nat n) b Hwf
                ltac:(lia)) as (b' & Hd & _ & _ & Hwf' & Hc).
    exists b'. rewrite Hd. cbn [bind]. split; [reflexivity | split; assumption].
  - exists (clear b). split; [reflexivity | ]. split; [ | reflexivity].
    destruct Hwf as (Hd & _). unfold ring_wf, clear, data_begin.
    cbn [data read_pointer write_pointer].
    unfold valid_buffer_size in Hsize. lia.
  - destruct (in_ranges offset (writable_ranges buffer_size b)) eqn:Hin.
    + destruct (ring_store_contents offset v b Hwf Hin) as (Hwf' & Hc).
      eexists. split; [reflexivity | split; assumption].
    + exists b. split; [reflexivity | split; [assumption | reflexivity] ].
Qed.

(** X6.  Without calls of [commit], the buffer is a queue bounded by
    [buffer_size]: every sequence of [write], [read], [discard], [clear]
    and stores into writable ranges returns, and the unread data at its
    end are what the same sequence leaves in the queue. *)
Theorem ring_queue_refinement (ops : list (ring_op (A:=A))) b :
  ring_wf buffer_size b ->
  forallb (fun op => negb (is_commit op)) ops = true ->
  exists b',
    ring_run buffer_size ops b = Ok b'
    /\ ring_wf buffer_size b'
    /\ contents buffer_size b'
       = ring_queue_run buffer_size ops (contents buffer_size b).
Proof.
  revert b. induction ops as [|op ops IH]; intros b Hwf Hops.
  - exists b. split; [reflexivity | split; [assumption | reflexivity] ].
  - cbn [forallb] in Hops. apply andb_true_iff in Hops as (Hop & Hops).
    apply negb_true_iff in Hop.
    destruct (ring_queue_step_spec op b Hwf Hop) as (b1 & Hs & Hwf1 & Hc1).
    destruct (IH b1 Hwf1 Hops) as (b' & Hrun & Hwf' & Hc').
    exists b'. cbn [ring_run]. rewrite Hs. cbn [bind].
    split; [exact Hrun | ]. split; [assumption | ].
    unfold ring_queue_run in *. cbn [fold_left]. now rewrite <- Hc1.
Qed.
End RingMore.
(** ** More about dynamic_buffer *)

Section DynamicMore.
Context {A : Type}.
Variable extent_size : Z.
Variable blank : A.

Local Open Scope Z_scope.

Hypothesis Hextent : 0 < extent_size.
Import dynamic_buffer.

Local Abbreviation extent := (fixed_buffer.t A).
Local Abbreviation buffer := (dynamic_buffer.t A).
Local Abbreviation inv := (dynamic_inv extent_size).
Local Abbreviation wf := (extent_wf extent_size).
Local Abbreviation full := (extent_full extent_size).
Local Abbreviation live := (extent_live extent_size).

Implicit Types (b : buffer) (e : extent) (l pre post : list extent).

Ltac ext_unfold :=
  unfold extent_wf, extent_full, extent_fresh, extent_live, dead,
    extent_contents, extent_space, read_window_size, write_window_size,
    fixed_buffer.read_window, fixed_buffer.write_window, make_span, view,
    fixed_buffer.write, fixed_buffer.commit, fixed_buffer.discard,
    fixed_buffer.read, fixed_buffer.create, fixed_buffer.store in *;
  cbn [fixed_buffer.data fixed_buffer.read_cursor fixed_buffer.write_cursor
       span_begin span_size fst snd] in *.

Ltac splits :=
  repeat match goal with |- _ /\ _ => split end; try assumption.

Ltac bool_lia :=
  repeat match goal with
  | H : context [Z.eqb ?a ?b] |- _ => destruct (Z.eqb_spec a b)
  | H : context [Z.ltb ?a ?b] |- _ => destruct (Z.ltb_spec a b)
  | H : context [Z.leb ?a ?b] |- _ => destruct (Z.leb_spec a b)
  | |- context [Z.eqb ?a ?b] => destruct (Z.eqb_spec a b)
  | |- context [Z.ltb ?a ?b] => destruct (Z.ltb_spec a b)
  | |- context [Z.leb ?a ?b] => destruct (Z.leb_spec a b)
  end; cbn [andb orb negb] in *; try congruence; try lia.

(** *** The buffer as a queue *)

Lemma dynamic_queue_step_spec (op : dynamic_op (A:=A)) b :
  inv b ->
  exists b',
    dynamic_step extent_size blank op b = Ok b'
    /\ inv b'
    /\ contents b' = dynamic_queue_step op (contents b).
Proof.
  intros Hinv.
  assert (Hsz : size (contents b) = extents_readable (extents b)).
  { rewrite dynamic_contents_extents.
    apply (size_extents_contents extent_size). apply Hinv. }
  destruct op as [src | dst | n]; cbn [dynamic_step dynamic_queue_step];
    rewrite ?Hsz, !dynamic_contents_extents.
  - destruct (dynamic_write_spec extent_size blank Hextent
                (write_fuel src b) src b Hinv (le_n _))
      as (b' & Hw & Hinv' & Hc & _).
    exists b'. rewrite Hw. cbn [bind]. rewrite dynamic_contents_extents.
    splits. reflexivity.
  - destruct (dynamic_read_spec extent_size Hextent (drain_fuel b) dst b
                Hinv (le_n _)) as (b' & Hr & Hinv' & Hc & _).
    exists b'. rewrite Hr. cbn [bind]. rewrite dynamic_contents_extents.
    splits. reflexivity.
  - destruct (dynamic_discard_spec extent_size Hextent (drain_fuel b)
                (Z.of_nat n) b Hinv ltac:(lia) (le_n _))
      as (b' & Hd & Hinv' & Hc & _).
    exists b'. rewrite Hd. cbn [bind]. rewrite dynamic_contents_extents.
    splits. reflexivity.
Qed.

(** X7.  The segmented buffer is a queue without bound: from a reachable
    state every sequence of [write], [read] and [discard] returns, and
    the unread data at its end are what the same sequence leaves in the
    queue; nothing written is lost and nothing is read twice. *)
Theorem dynamic_queue_refinement (ops : list (dynamic_op (A:=A))) b :
  reachable extent_size blank b ->
  exists b',
    dynamic_run extent_size blank ops b = Ok b'
    /\ contents b' = dynamic_queue_run ops (contents b).
Proof.
  intros Hreach.
  destruct (reachable_inv extent_size blank Hextent b Hreach) as (Hinv & _).
  clear Hreach. revert b Hinv.
  induction ops as [|op ops IH]; intros b Hinv.
  - exists b. split; reflexivity.
  - destruct (dynamic_queue_step_spec op b Hinv) as (b1 & Hs & Hinv1 & Hc1).
    destruct (IH b1 Hinv1) as (b' & Hrun & Hc').
    exists b'. cbn [dynamic_run]. rewrite Hs. cbn [bind].
    split; [exact Hrun | ].
    unfold dynamic_queue_run in *. cbn [fold_left]. now rewrite <- Hc1.
Qed.

(** X8.  [read] in any reachable state: it returns
    [min (size dst) readable_size], puts the front of the unread data at
    the front of [dst] and leaves the rest of [dst] as it was; a count
    below [size dst] leaves no readable range. *)
Theorem dynamic_read_any dst b :
  reachable extent_size blank b ->
  let k := Z.min (size dst) (readable_size b) in
  exists b',
    read extent_size (drain_fuel b) dst b
    = Ok (b', subspan_to k (contents b) ++ subspan_from k dst, k)
    /\ contents b' = subspan_from k (contents b)
    /\ readable_size b' = readable_size b - k
    /\ (k < size dst -> readable_ranges b' = []).
Proof.
  intros Hreach k.
  destruct (reachable_inv extent_size blank Hextent b Hreach) as (Hinv & _).
  unfold k. rewrite !dynamic_contents_extents,
    !dynamic_readable_size_extents.
  destruct (dynamic_read_spec extent_size Hextent (drain_fuel b) dst b
              Hinv (le_n _)) as (b' & Hr & Hinv' & Hc & Hn & _).
  exists b'. rewrite dynamic_contents_extents,
    dynamic_readable_size_extents.
  splits. intros Hshort.
  apply (dynamic_empty extent_size b' Hinv'). lia.
Qed.

(** *** The readable ranges *)

Lemma dynamic_state_cases b :
  inv b ->
  (exists pre e post,
     b = {| extents := pre ++ e :: post; write_pointer := length pre |}
     /\ Forall wf (pre ++ e :: post) /\ Forall live (pre ++ e :: post)
     /\ Forall full pre /\ Forall extent_fresh post)
  \/ (b = {| extents := extents b; write_pointer := length (extents b) |}
      /\ Forall wf (extents b) /\ Forall live (extents b)
      /\ Forall full (extents b)).
Proof.
  intros Hinv. destruct (inv_here extent_size b Hinv) as [Hlt | Heq].
  - left. destruct (inv_split b Hlt) as (pre & e & post & ->).
    exists pre, e, post. split; [reflexivity | ].
    now apply (inv_at extent_size).
  - right. split; [exact Heq | ]. rewrite Heq in Hinv.
    now apply (inv_end extent_size) in Hinv.
Qed.

Lemma readable_loop_acc l i ret :
  readable_loop i l ret = ret ++ readable_loop i l [].
Proof.
  revert i ret. induction l as [|e l IH]; intros i ret; cbn [readable_loop].
  - now rewrite app_nil_r.
  - destruct (read_window_size e =? 0); [apply IH | ].
    rewrite (IH (S i) (ret ++ _)), (IH (S i) ([] ++ _)).
    now rewrite <- app_assoc.
Qed.

Lemma readable_loop_cons i e l :
  readable_loop i (e :: l) []
  = (if read_window_size e =? 0 then []
     else [(i, fixed_buffer.read_window e)])
    ++ readable_loop (S i) l [].
Proof.
  cbn [readable_loop]. destruct (read_window_size e =? 0);
    [reflexivity | ].
  apply readable_loop_acc.
Qed.

Lemma readable_loop_app l1 l2 i :
  readable_loop i (l1 ++ l2) []
  = readable_loop i l1 [] ++ readable_loop (i + length l1) l2 [].
Proof.
  revert i. induction l1 as [|e l1 IH]; intros i.
  - cbn [app length]. now rewrite Nat.add_0_r.
  - cbn [app length]. rewrite !readable_loop_cons, IH, <- app_assoc.
    now rewrite Nat.add_succ_r.
Qed.

Lemma full_readable e : wf e -> live e -> full e -> 0 < read_window_size e.
Proof. ext_unfold. intros Hw Hl Hf. bool_lia. Qed.

Lemma readable_loop_full l i :
  Forall wf l -> Forall live l -> Forall full l ->
  map fst (readable_loop i l []) = seq i (length l).
Proof.
  intros Hw. revert i. induction Hw as [|e l He Hw IH]; intros i Hl Hf.
  - reflexivity.
  - inversion Hl; inversion Hf; subst.
    rewrite readable_loop_cons.
    pose proof (full_readable e He ltac:(assumption) ltac:(assumption)).
    destruct (Z.eqb_spec (read_window_size e) 0); [lia | ].
    cbn [app map fst length seq]. f_equal. now apply IH.
Qed.

Lemma readable_loop_inside b i l :
  (forall k e, nth_error l k = Some e ->
               nth_error (extents b) (i + k) = Some e /\ wf e) ->
  Forall (range_inside b) (readable_loop i l []).
Proof.
  revert i. induction l as [|e l IH]; intros i Hl.
  - constructor.
  - rewrite readable_loop_cons. apply Forall_app. split.
    + destruct (Hl 0%nat e eq_refl) as (Hn & He).
      rewrite Nat.add_0_r in Hn.
      destruct (Z.eqb_spec (read_window_size e) 0); constructor;
        [ | constructor].
      unfold range_inside. cbn [fst snd]. split.
      * ext_unfold. lia.
      * exists e. split; [exact Hn | ].
        unfold span_inside. ext_unfold. lia.
    + apply IH. intros k e' Hk. specialize (Hl (S k) e' Hk).
      now rewrite Nat.add_succ_r in Hl.
Qed.

Lemma readable_loop_fresh l i :
  Forall wf l -> Forall extent_fresh l -> readable_loop i l [] = [].
Proof.
  intros Hw Hf. apply (readable_loop_none extent_size); [ | assumption].
  now apply extents_readable_fresh.
Qed.

(** X9.  In a reachable state [readable_ranges] gives one range per
    extent that holds unread data, each a non-empty span inside the
    storage of its extent; these are the leading extents, in order, and
    there are [write_pointer] of them or one more. *)
Theorem dynamic_readable_ranges_shape b :
  reachable extent_size blank b ->
  Forall (range_inside b) (readable_ranges b)
  /\ map fst (readable_ranges b) = seq 0 (length (readable_ranges b))
  /\ (write_pointer b <= length (readable_ranges b)
      <= S (write_pointer b))%nat.
Proof.
  intros Hreach.
  destruct (reachable_inv extent_size blank Hextent b Hreach) as (Hinv & _).
  split.
  - apply readable_loop_inside. intros k e Hk. split; [exact Hk | ].
    destruct Hinv as (Hw & _). rewrite Forall_forall in Hw.
    apply Hw. eapply nth_error_In. exact Hk.
  - assert (Hlen : forall r : list (nat * span),
                     length r = length (map fst r))
      by (intros r; now rewrite length_map).
    destruct (dynamic_state_cases b Hinv)
      as [(pre & e & post & -> & Hw & Hl & Hf & Hfr)
         | (Hb & Hw & Hl & Hf)].
    + unfold readable_ranges. cbn [extents write_pointer].
      apply Forall_app in Hw as (Hwp & Hwe).
      apply Forall_app in Hl as (Hlp & Hle).
      inversion Hwe; inversion Hle; subst.
      rewrite readable_loop_app, readable_loop_cons.
      rewrite (readable_loop_fresh post) by assumption.
      rewrite app_nil_r.
      rewrite (Hlen (_ ++ _)), map_app, length_app.
      rewrite (readable_loop_full pre 0 Hwp Hlp Hf), length_seq.
      destruct (read_window_size e =? 0); cbn [map fst length];
        cbn [Nat.add].
      * rewrite app_nil_r, Nat.add_0_r. split; [reflexivity | lia].
      * rewrite Nat.add_1_r, seq_S. split; [reflexivity | lia].
    + unfold readable_ranges. rewrite Hb. cbn [extents write_pointer].
      rewrite (Hlen (readable_loop _ _ _)).
      rewrite (readable_loop_full _ 0 Hw Hl Hf), length_seq.
      split; [reflexivity | lia].
Qed.

(** *** commit *)

Lemma window_nonneg e : wf e -> 0 <= write_window_size extent_size e.
Proof. ext_unfold. lia. Qed.

Lemma extents_writable_cons e l :
  extents_writable extent_size (e :: l)
  = write_window_size extent_size e + extents_writable extent_size l.
Proof. reflexivity. Qed.

Lemma commit_loop_over post :
  forall fuel n left pre,
    Forall wf post ->
    extents_writable extent_size post < left ->
    (length post < fuel)%nat ->
    commit_loop extent_size blank fuel n left
      {| extents := pre ++ post; write_pointer := length pre |}
    = AssertionFailure.
Proof.
  induction post as [|e post IH]; intros fuel n left pre Hw Hleft Hfuel;
    (destruct fuel as [|fuel]; [cbn [length] in Hfuel; lia | ]);
    cbn [commit_loop extents write_pointer].
  - rewrite app_nil_r, Nat.ltb_irrefl. reflexivity.
  - inversion Hw as [|? ? He Hpost]; subst.
    pose proof (window_nonneg e He) as Hwin.
    pose proof (extents_writable_nonneg extent_size post Hpost) as Hrest.
    rewrite extents_writable_cons in Hleft.
    replace (length pre <? length (pre ++ e :: post))%nat with true
      by (symmetry; apply Nat.ltb_lt; rewrite length_app; cbn [length];
          lia).
    cbn [assert bind]. rewrite at_index_app. cbn [bind].
    unfold fixed_buffer.commit. fold (write_window_size extent_size e).
    rewrite Z.min_r by lia.
    unfold set_extents, set_write_pointer. cbn [extents write_pointer].
    rewrite replace_at_app.
    destruct (Z.ltb_spec 0 (write_window_size extent_size e));
      [ | reflexivity].
    cbn [assert bind].
    destruct (Z.eqb_spec (left - write_window_size extent_size e) 0);
      [lia | ].
    match goal with
    | |- commit_loop _ _ _ _ _ {| extents := pre ++ ?e' :: post |} = _ =>
        replace (pre ++ e' :: post) with ((pre ++ [e']) ++ post)
          by (now rewrite <- app_assoc);
        replace (S (length pre)) with (length (pre ++ [e']))
          by (rewrite length_app; cbn [length]; lia)
    end.
    apply IH; [assumption | lia | cbn [length] in Hfuel; lia].
Qed.

(** X10.  [commit] of more than the write capacity from [write_pointer]
    on does not return a short count: an assertion fails. *)
Theorem dynamic_commit_beyond_capacity fuel n b :
  reachable extent_size blank b ->
  dynamic_writable_size extent_size b < n ->
  (length (extents b) - write_pointer b < fuel)%nat ->
  commit extent_size blank fuel n b = AssertionFailure.
Proof.
  intros Hreach Hn Hfuel.
  destruct (reachable_inv extent_size blank Hextent b Hreach) as (Hinv & _).
  assert (Hw : Forall wf (extents b)) by apply Hinv.
  assert (Hwp : (write_pointer b <= length (extents b))%nat)
    by apply Hinv.
  unfold dynamic_writable_size in Hn.
  pose proof (extents_writable_nonneg extent_size _
                (Forall_skipn_of _ (write_pointer b) _ Hw)) as Hpos.
  destruct b as [l wp]. cbn [extents write_pointer] in *.
  unfold commit. cbn [extents write_pointer].
  destruct (Z.eqb_spec n 0); [lia | ].
  destruct (Nat.ltb_spec wp (length l)); [ | reflexivity].
  cbn [assert bind].
  replace {| extents := l; write_pointer := wp |}
    with {| extents := firstn wp l ++ skipn wp l;
            write_pointer := length (firstn wp l) |}
    by (rewrite firstn_skipn, length_firstn; f_equal; lia).
  apply commit_loop_over.
  - now apply Forall_skipn_of.
  - assumption.
  - rewrite length_skipn. lia.
Qed.

Lemma extent_commit_spec m e :
  wf e -> live e ->
  0 < m <= write_window_size extent_size e ->
  exists e',
    fixed_buffer.commit extent_size m e = (e', m)
    /\ wf e' /\ live e'
    /\ extent_contents e'
       = extent_contents e ++ subspan_to m (extent_space extent_size e)
    /\ (m = write_window_size extent_size e -> full e').
Proof.
  intros (Hd & Hr & Hrw & Hw) Hl Hm. unfold fixed_buffer.commit.
  ext_unfold. rewrite Z.min_l by lia.
  eexists. split; [reflexivity | ]. cbn [fixed_buffer.data
    fixed_buffer.read_cursor fixed_buffer.write_cursor].
  splits; try lia.
  rewrite subspan_to_subrange, Z.min_l by lia.
  replace (fixed_buffer.write_cursor e + m - fixed_buffer.read_cursor e)
    with ((fixed_buffer.write_cursor e - fixed_buffer.read_cursor e) + m)
    by lia.
  rewrite subrange_split by lia. do 2 f_equal. lia.
Qed.

Lemma size_extent_space e :
  wf e -> size (extent_space extent_size e) = write_window_size extent_size e.
Proof.
  intros (Hd & Hr & Hrw & Hw). ext_unfold. rewrite size_subrange; lia.
Qed.

Lemma fresh_window e :
  extent_fresh e -> write_window_size extent_size e = extent_size.
Proof. ext_unfold. intros (_ & ->). lia. Qed.

Lemma commit_loop_within post :
  forall fuel n left pre e,
    inv {| extents := pre ++ e :: post; write_pointer := length pre |} ->
    0 < write_window_size extent_size e ->
    0 < left
    <= write_window_size extent_size e + extents_writable extent_size post ->
    (length post < fuel)%nat ->
    exists b',
      commit_loop extent_size blank fuel n left
        {| extents := pre ++ e :: post; write_pointer := length pre |}
      = Ok (b', n)
      /\ inv b'
      /\ extents_contents (extents b')
         = extents_contents (pre ++ e :: post)
           ++ subspan_to left
                (extent_space extent_size e
                 ++ concat (map (extent_space extent_size) post)).
Proof.
  induction post as [|e2 post IH]; intros fuel n left pre e Hinv Hwin Hleft
    Hfuel;
    (destruct fuel as [|fuel]; [cbn [length] in Hfuel; lia | ]);
    pose proof Hinv as Hinv0;
    apply (inv_at extent_size) in Hinv as (Hw & Hl & Hf & Hfr);
    pose proof Hw as Hw0; pose proof Hl as Hl0;
    apply Forall_app in Hw as (Hwp & Hwe);
    apply Forall_app in Hl as (Hlp & Hle);
    inversion Hwe as [|? ? He Hwpost]; inversion Hle as [|? ? Hle' Hlpost];
    subst;
    cbn [commit_loop extents write_pointer];
    (replace (length pre <? length (pre ++ e :: _))%nat with true
      by (symmetry; apply Nat.ltb_lt; rewrite length_app; cbn [length];
          lia));
    cbn [assert bind]; rewrite at_index_app; cbn [bind].
  - (* the last extent *)
    cbn [extents_writable fold_right] in Hleft.
    destruct (extent_commit_spec left e He Hle' ltac:(lia))
      as (e' & Hc & He' & Hle2 & Hce & _).
    rewrite Hc. unfold set_extents, set_write_pointer.
    cbn [extents write_pointer]. rewrite replace_at_app.
    replace (0 <? left) with true by (symmetry; apply Z.ltb_lt; lia).
    cbn [assert bind]. rewrite Z.sub_diag, Z.eqb_refl.
    assert (Hinv' : inv {| extents := pre ++ [e'];
                           write_pointer := length pre |}).
    { apply (inv_at extent_size). splits.
      - apply Forall_app. split; [assumption | now constructor].
      - apply Forall_app. split; [assumption | now constructor]. }
    destruct (ensure_minfree_spec extent_size blank Hextent _ Hinv')
      as (b' & Hen & Hinv2 & Hc2 & _).
    exists b'. rewrite Hen. cbn [bind]. splits; [reflexivity | ].
    rewrite Hc2. cbn [extents map concat].
    rewrite !extents_contents_app, !extents_contents_cons.
    unfold extents_contents at 2 4. cbn [map concat].
    rewrite !app_nil_r, Hce, <- app_assoc. reflexivity.
  - (* more extents follow *)
    inversion Hfr as [|? ? Hfr2 Hfrpost]; subst.
    inversion Hwpost as [|? ? He2 Hwpost']; subst.
    pose proof (fresh_window e2 Hfr2) as Hwin2.
    pose proof (extents_writable_nonneg extent_size post Hwpost') as Hrest.
    rewrite extents_writable_cons in Hleft.
    destruct (Z.le_gt_cases left (write_window_size extent_size e))
      as [Hfit | Hmore].
    + (* it ends in this extent *)
      destruct (extent_commit_spec left e He Hle' ltac:(lia))
        as (e' & Hc & He' & Hle2 & Hce & _).
      rewrite Hc. unfold set_extents, set_write_pointer.
      cbn [extents write_pointer]. rewrite replace_at_app.
      replace (0 <? left) with true by (symmetry; apply Z.ltb_lt; lia).
      cbn [assert bind]. rewrite Z.sub_diag, Z.eqb_refl.
      assert (Hinv' : inv {| extents := pre ++ e' :: e2 :: post;
                             write_pointer := length pre |}).
      { apply (inv_at extent_size). splits.
        - apply Forall_app. split; [assumption | now constructor].
        - apply Forall_app. split; [assumption | now constructor]. }
      destruct (ensure_minfree_spec extent_size blank Hextent _ Hinv')
        as (b' & Hen & Hinv2 & Hc2 & _).
      exists b'. rewrite Hen. cbn [bind]. splits; [reflexivity | ].
      rewrite Hc2. cbn [extents].
      rewrite !(contents_at pre _ (e2 :: post)) by assumption.
      rewrite Hce, <- app_assoc. do 2 f_equal.
      rewrite subspan_to_app, size_extent_space by assumption.
      rewrite (subspan_to_nonpos _ (left - _)) by lia.
      now rewrite app_nil_r.
    + (* this extent is used up *)
      destruct (extent_commit_spec (write_window_size extent_size e) e He
                  Hle' ltac:(lia))
        as (e' & Hc & He' & Hle2 & Hce & Hfull).
      unfold fixed_buffer.commit in Hc |- *.
      fold (write_window_size extent_size e) in Hc |- *.
      rewrite Z.min_r by lia. rewrite Z.min_l in Hc by lia.
      injection Hc as Hc.
      unfold set_extents, set_write_pointer.
      cbn [extents write_pointer]. rewrite replace_at_app.
      replace (0 <? write_window_size extent_size e) with true
        by (symmetry; apply Z.ltb_lt; lia).
      cbn [assert bind].
      destruct (Z.eqb_spec (left - write_window_size extent_size e) 0);
        [lia | ].
      rewrite Hc.
      replace (pre ++ e' :: e2 :: post) with ((pre ++ [e']) ++ e2 :: post)
        by (now rewrite <- app_assoc).
      replace (S (length pre)) with (length (pre ++ [e']))
        by (rewrite length_app; cbn [length]; lia).
      assert (Hinv' : inv {| extents := (pre ++ [e']) ++ e2 :: post;
                             write_pointer := length (pre ++ [e']) |}).
      { apply (inv_at extent_size). splits.
        - rewrite <- app_assoc. apply Forall_app.
          split; [assumption | now constructor].
        - rewrite <- app_assoc. apply Forall_app.
          split; [assumption | now constructor].
        - apply Forall_app. split; [assumption | ].
          constructor; [now apply Hfull | constructor]. }
      destruct (IH fuel n (left - write_window_size extent_size e)
                  (pre ++ [e']) e2 Hinv' ltac:(lia) ltac:(lia)
                  ltac:(cbn [length] in Hfuel; lia))
        as (b' & Hloop & Hinv2 & Hc2).
      exists b'. splits.
      rewrite Hc2.
      rewrite <- (app_assoc pre [e']). cbn [app].
      rewrite (contents_at pre e (e2 :: post)) by assumption.
      rewrite !extents_contents_app, !extents_contents_cons.
      rewrite (fresh_contents e2 Hfr2), (fresh_all_contents post Hfrpost).
      rewrite Hce. cbn [app]. rewrite !app_nil_r, <- !app_assoc.
      do 2 f_equal. cbn [map concat].
      rewrite (subspan_to_app (extent_space extent_size e)).
      rewrite size_extent_space by assumption.
      rewrite !(subspan_to_all _ (extent_space extent_size e))
        by (rewrite size_extent_space by assumption; lia).
      reflexivity.
Qed.

(** X11.  With write capacity left in the extent [write_pointer]
    designates, [commit n] for [0 < n] within the write capacity from
    [write_pointer] on returns [n]: the first [n] units of the writable
    space, across extents, are appended to the unread data. *)
Theorem dynamic_commit_within_capacity fuel n b :
  reachable extent_size blank b ->
  write_target_full extent_size b = false ->
  0 < n <= dynamic_writable_size extent_size b ->
  (length (extents b) - write_pointer b <= fuel)%nat ->
  exists b',
    commit extent_size blank fuel n b = Ok (b', n)
    /\ contents b'
       = contents b ++ subspan_to n (dynamic_writable_space extent_size b)
    /\ readable_size b' = readable_size b + n.
Proof.
  intros Hreach Hfull Hn Hfuel.
  destruct (reachable_inv extent_size blank Hextent b Hreach) as (Hinv & _).
  assert (Hsize : forall b0, inv b0 -> readable_size b0 = size (contents b0)).
  { intros b0 H0.
    rewrite dynamic_readable_size_extents, dynamic_contents_extents.
    symmetry. apply (size_extents_contents extent_size). apply H0. }
  unfold dynamic_writable_size, dynamic_writable_space,
    write_target_full, write_target in *.
  destruct (dynamic_state_cases b Hinv)
    as [(pre & e & post & -> & Hw & Hl & Hf & Hfr) | (Hb & Hw & Hl & Hf)].
  - cbn [extents write_pointer] in *.
    rewrite skipn_length_app in *.
    rewrite nth_error_app2, Nat.sub_diag in Hfull by lia.
    cbn [nth_error] in Hfull.
    assert (He : wf e).
    { apply Forall_app in Hw as (_ & Hw). now inversion Hw. }
    pose proof (window_nonneg e He).
    rewrite extents_writable_cons in Hn.
    destruct (commit_loop_within post fuel n n pre e Hinv ltac:(bool_lia)
                Hn ltac:(rewrite length_app in Hfuel; cbn [length] in Hfuel;
                         lia))
      as (b' & Hloop & Hinv' & Hc).
    exists b'. unfold commit. cbn [extents write_pointer].
    destruct (Z.eqb_spec n 0); [lia | ].
    replace (length pre <? length (pre ++ e :: post))%nat with true
      by (symmetry; apply Nat.ltb_lt; rewrite length_app; cbn [length];
          lia).
    cbn [assert bind]. split; [exact Hloop | ].
    assert (Hcs : contents b'
                  = contents {| extents := pre ++ e :: post;
                                write_pointer := length pre |}
                    ++ subspan_to n
                         (concat (map (extent_space extent_size)
                                    (e :: post)))).
    { rewrite !dynamic_contents_extents. exact Hc. }
    split; [exact Hcs | ].
    rewrite !Hsize, Hcs, size_app by assumption. f_equal.
    apply size_subspan_to. cbn [map concat]. rewrite size_app.
    rewrite size_extent_space by assumption.
    assert (Hsp : forall l, Forall wf l ->
                    size (concat (map (extent_space extent_size) l))
                    = extents_writable extent_size l).
    { induction 1 as [|x l Hx _ IHl]; [reflexivity | ].
      cbn [map concat]. rewrite size_app, size_extent_space, IHl by assumption.
      reflexivity. }
    rewrite Hsp; [lia | ].
    apply Forall_app in Hw as (_ & Hw). now inversion Hw.
  - rewrite Hb in Hn. cbn [extents write_pointer] in Hn.
    rewrite skipn_all in Hn. cbn in Hn. lia.
Qed.

(** *** The write pointer on a full extent *)

Lemma skipn_nth_error (T : Type) (l : list T) i x :
  nth_error l i = Some x -> skipn i l = x :: skipn (S i) l.
Proof.
  revert i. induction l as [|y l IH]; intros [|i] Hn; cbn in Hn |- *;
    try discriminate.
  - now injection Hn as ->.
  - now apply IH.
Qed.

(** X12.  While [write_pointer] designates an extent without write
    capacity, every [commit] of [n > 0] fails an assertion, and so does
    [writable_ranges] unless [ensure_minfree] appends an extent, that
    is, unless the last extent has less than [minfree] left. *)
Theorem dynamic_full_target_aborts b :
  write_target_full extent_size b = true ->
  (forall fuel n,
     0 < n -> commit extent_size blank (S fuel) n b = AssertionFailure)
  /\ (needs_space extent_size b = false ->
      writable_ranges extent_size blank b = AssertionFailure).
Proof.
  unfold write_target_full, write_target. intros Hfull.
  destruct (nth_error (extents b) (write_pointer b)) as [e|] eqn:Hn;
    [ | discriminate].
  apply Z.eqb_eq in Hfull.
  assert (Hlt : (write_pointer b <? length (extents b))%nat = true).
  { apply Nat.ltb_lt. apply nth_error_Some. congruence. }
  split.
  - intros fuel n Hpos. unfold commit.
    destruct (Z.eqb_spec n 0); [lia | ].
    rewrite Hlt. cbn [assert bind commit_loop]. rewrite Hlt.
    cbn [assert bind]. unfold at_index. rewrite Hn. cbn [bind].
    unfold fixed_buffer.commit.
    fold (write_window_size extent_size e). rewrite Hfull.
    rewrite Z.min_r by lia. reflexivity.
  - intros Hspace. unfold writable_ranges, ensure_minfree.
    rewrite Hspace. cbn [bind]. rewrite Hlt. cbn [assert bind].
    rewrite (skipn_nth_error _ _ _ _ Hn). cbn [writable_loop].
    rewrite Hfull. reflexivity.
Qed.

(** *** The writable ranges *)

Lemma nth_error_skipn_In (T : Type) (l : list T) i x :
  nth_error l i = Some x -> In x (skipn i l).
Proof.
  intros Hn. rewrite (skipn_nth_error _ _ _ _ Hn). now left.
Qed.

Lemma ensure_minfree_target b :
  inv b -> dynamic_ready b ->
  write_target_full extent_size b && negb (needs_space extent_size b)
  = false ->
  exists pre e post,
    ensure_minfree extent_size blank b
    = Ok {| extents := pre ++ e :: post; write_pointer := length pre |}
    /\ inv {| extents := pre ++ e :: post; write_pointer := length pre |}
    /\ extents_contents (pre ++ e :: post) = extents_contents (extents b)
    /\ 0 < write_window_size extent_size e
    /\ Forall extent_fresh post.
Proof.
  intros Hinv Hready Hstuck.
  destruct (ensure_minfree_spec extent_size blank Hextent b Hinv)
    as (b' & Hen & Hinv' & Hc & _ & Hlt).
  specialize (Hlt Hready).
  destruct (inv_split b' Hlt) as (pre & e & post & ->).
  exists pre, e, post. cbn [extents] in Hc.
  pose proof Hinv' as Hat.
  apply (inv_at extent_size) in Hat as (Hw & _ & _ & Hfr).
  assert (He : wf e).
  { apply Forall_app in Hw as (_ & Hw). now inversion Hw. }
  splits.
  pose proof (window_nonneg e He) as Hnn.
  destruct (Z.eq_dec (write_window_size extent_size e) 0) as [Hz | ];
    [exfalso | lia].
  assert (Htarget : forall l0, l0 = pre ++ e :: post ->
                      nth_error l0 (length pre) = Some e).
  { intros l0 ->. rewrite nth_error_app2, Nat.sub_diag by lia.
    reflexivity. }
  unfold ensure_minfree in Hen.
  destruct (needs_space extent_size b) eqn:Hns.
  - unfold emplace_back, set_extents, set_write_pointer in Hen.
    cbn [extents write_pointer] in Hen.
    unfold at_index in Hen.
    destruct (nth_error (extents b ++ _) (write_pointer b)) as [e0|]
      eqn:Hn0; [ | discriminate].
    cbn [bind] in Hen.
    destruct (Z.eqb_spec (write_window_size extent_size e0) 0) as [Hz0 | Hz0];
      injection Hen as Hl Hwp.
    + (* the pointer was advanced to an unused extent *)
      assert (Hlt0 : (write_pointer b < length (extents b))%nat).
      { apply nth_error_Some. intros Hnone.
        apply nth_error_None in Hnone.
        rewrite nth_error_app2 in Hn0 by lia.
        assert (Hwp0 : write_pointer b = length (extents b)).
        { destruct Hinv as (_ & _ & Hle & _). lia. }
        rewrite Hwp0, Nat.sub_diag in Hn0. cbn [nth_error] in Hn0.
        injection Hn0 as <-. ext_unfold. lia. }
      assert (Hin : In e (skipn (S (write_pointer b))
                            (extents b
                             ++ [fixed_buffer.create
                                   (repeat blank (Z.to_nat extent_size))]))).
      { apply nth_error_skipn_In. rewrite Hwp. now apply Htarget. }
      rewrite skipn_app in Hin.
      replace (S (write_pointer b) - length (extents b))%nat with 0%nat
        in Hin by lia.
      cbn [skipn] in Hin. apply in_app_or in Hin as [Hin | [<- | []]].
      * destruct Hinv as (_ & _ & _ & _ & Hfresh).
        rewrite Forall_forall in Hfresh.
        pose proof (fresh_window e (Hfresh e Hin)). lia.
      * ext_unfold. lia.
    + rewrite Hwp, (Htarget _ Hl) in Hn0. congruence.
  - injection Hen as ->.
    unfold write_target_full, write_target in Hstuck.
    cbn [extents write_pointer] in Hstuck.
    rewrite (Htarget _ eq_refl) in Hstuck.
    rewrite Hz in Hstuck. discriminate.
Qed.

Lemma writable_loop_ok wp l :
  forall i ret,
    (forall k e, nth_error l k = Some e ->
                 0 < write_window_size extent_size e
                 /\ ((i + k)%nat = wp
                     \/ write_window_size extent_size e = extent_size)) ->
    writable_loop extent_size wp i l ret
    = Ok (ret ++ combine (seq i (length l))
                   (map (fixed_buffer.write_window extent_size) l)).
Proof.
  induction l as [|e l IH]; intros i ret Hl; cbn [writable_loop].
  - cbn. now rewrite app_nil_r.
  - destruct (Hl 0%nat e eq_refl) as (Hpos & Hat).
    rewrite Nat.add_0_r in Hat.
    replace (0 <? write_window_size extent_size e) with true
      by (symmetry; apply Z.ltb_lt; lia).
    replace ((i =? wp)%nat || (write_window_size extent_size e =? extent_size))
      with true
      by (symmetry; apply orb_true_iff;
          destruct Hat; [left; now apply Nat.eqb_eq
                        | right; now apply Z.eqb_eq]).
    cbn [assert bind]. rewrite IH.
    + cbn [length seq map combine]. now rewrite <- app_assoc.
    + intros k e' Hk. specialize (Hl (S k) e' Hk).
      now rewrite Nat.add_succ_r in Hl.
Qed.

Lemma map_fst_windows (T : Type) (f : extent -> T) l i :
  map fst (combine (seq i (length l)) (map f l)) = seq i (length l).
Proof.
  revert i. induction l as [|e l IH]; intros i; cbn [length seq map combine fst].
  - reflexivity.
  - now rewrite IH.
Qed.

Lemma windows_inside b l :
  forall i,
    (forall k e, nth_error l k = Some e ->
                 nth_error (extents b) (i + k) = Some e
                 /\ wf e /\ 0 < write_window_size extent_size e) ->
    let ranges :=
      combine (seq i (length l))
        (map (fixed_buffer.write_window extent_size) l) in
    Forall (range_inside b) ranges
    /\ concat (map (range_view b) ranges)
       = concat (map (extent_space extent_size) l)
    /\ Forall (fun w =>
                 exists e, nth_error (extents b) (fst w) = Some e
                           /\ snd w
                              = fixed_buffer.write_window extent_size e)
         ranges.
Proof.
  induction l as [|e l IH]; intros i Hl; cbn [length seq map combine concat].
  - splits; constructor.
  - destruct (Hl 0%nat e eq_refl) as (Hn & He & Hpos).
    rewrite Nat.add_0_r in Hn.
    destruct (IH (S i)) as (Hin & Hv & Hwin).
    { intros k e' Hk. specialize (Hl (S k) e' Hk).
      now rewrite Nat.add_succ_r in Hl. }
    splits.
    + constructor; [ | exact Hin].
      unfold range_inside. cbn [fst snd]. split; [exact Hpos | ].
      exists e. split; [exact Hn | ].
      destruct He as (Hd & Hr & Hrw & Hw).
      unfold span_inside. ext_unfold. lia.
    + rewrite Hv. f_equal. unfold range_view. cbn [fst snd].
      now rewrite Hn.
    + constructor; [ | exact Hwin]. exists e. now split.
Qed.

Lemma readable_loop_windows b l :
  forall i,
    (forall k e, nth_error l k = Some e ->
                 nth_error (extents b) (i + k) = Some e) ->
    Forall (fun r =>
              exists e, nth_error (extents b) (fst r) = Some e
                        /\ snd r = fixed_buffer.read_window e)
      (readable_loop i l []).
Proof.
  induction l as [|e l IH]; intros i Hl.
  - constructor.
  - rewrite readable_loop_cons. apply Forall_app. split.
    + pose proof (Hl 0%nat e eq_refl) as Hn. rewrite Nat.add_0_r in Hn.
      destruct (read_window_size e =? 0); constructor; [ | constructor].
      exists e. now split.
    + apply IH. intros k e' Hk. specialize (Hl (S k) e' Hk).
      now rewrite Nat.add_succ_r in Hl.
Qed.

(** X13.  Unless [write_pointer] was left on an extent without write
    capacity while the last extent has [minfree] left, [writable_ranges]
    returns in a reachable state: it leaves the unread data alone and
    gives one range per extent from [write_pointer] on, at least one,
    each a non-empty span inside the storage of its extent, together the
    write capacity of the buffer; no writable range shares an element
    with a readable range. *)
Theorem dynamic_writable_ranges_shape b :
  reachable extent_size blank b ->
  write_target_full extent_size b && negb (needs_space extent_size b)
  = false ->
  exists b' ranges,
    writable_ranges extent_size blank b = Ok (b', ranges)
    /\ contents b' = contents b
    /\ ranges <> []
    /\ Forall (range_inside b') ranges
    /\ map fst ranges = seq (write_pointer b') (length ranges)
    /\ concat (map (range_view b') ranges)
       = dynamic_writable_space extent_size b'
    /\ total_size ranges = dynamic_writable_size extent_size b'
    /\ Forall (fun w =>
                 Forall (fun r => fst r = fst w ->
                                  spans_apart (snd w) (snd r))
                   (readable_ranges b')) ranges.
Proof.
  intros Hreach Hstuck.
  destruct (reachable_inv extent_size blank Hextent b Hreach)
    as (Hinv & Hready).
  destruct (ensure_minfree_target b Hinv Hready Hstuck)
    as (pre & e & post & Hen & Hinv' & Hc & Hpos & Hfr).
  pose proof Hinv' as Hat.
  apply (inv_at extent_size) in Hat as (Hw & _ & _ & _).
  set (b' := {| extents := pre ++ e :: post;
                write_pointer := length pre |}) in *.
  assert (Hnth : forall k e', nth_error (e :: post) k = Some e' ->
                   nth_error (extents b') (length pre + k) = Some e').
  { intros k e' Hk. unfold b'. cbn [extents].
    rewrite nth_error_app2 by lia.
    now replace (length pre + k - length pre)%nat with k by lia. }
  assert (Hwe : Forall wf (e :: post))
    by (now apply Forall_app in Hw as (_ & Hw)).
  assert (Hwin : forall k e', nth_error (e :: post) k = Some e' ->
                   0 < write_window_size extent_size e'
                   /\ ((length pre + k)%nat = length pre
                       \/ write_window_size extent_size e' = extent_size)).
  { intros [|k] e' Hk; cbn [nth_error] in Hk.
    - injection Hk as <-. split; [exact Hpos | left; lia].
    - rewrite Forall_forall in Hfr.
      pose proof (fresh_window e' (Hfr e' (nth_error_In _ _ Hk))).
      split; [lia | now right]. }
  pose proof (writable_loop_ok (length pre) (e :: post) (length pre) []
                Hwin) as Hloop.
  cbn [app] in Hloop.
  destruct (windows_inside b' (e :: post) (length pre))
    as (Hin & Hview & Hwins).
  { intros k e' Hk. split; [now apply Hnth | ].
    rewrite Forall_forall in Hwe.
    split; [apply Hwe; eapply nth_error_In; exact Hk | ].
    exact (proj1 (Hwin k e' Hk)). }
  pose proof (readable_loop_windows b' (extents b') 0
                ltac:(intros k e' Hk; exact Hk)) as Hreads.
  fold (readable_ranges b') in Hreads.
  exists b'. eexists. unfold writable_ranges. rewrite Hen. cbn [bind].
  subst b'. cbn [extents write_pointer] in *.
  replace (length pre <? length (pre ++ e :: post))%nat with true
    by (symmetry; apply Nat.ltb_lt; rewrite length_app; cbn [length]; lia).
  cbn [assert bind]. rewrite skipn_length_app, Hloop. cbn [bind].
  split; [reflexivity | ].
  split; [now rewrite !dynamic_contents_extents | ].
  split; [discriminate | ].
  split; [exact Hin | ].
  split.
  { rewrite map_fst_windows, length_combine, length_seq, length_map.
    now rewrite Nat.min_id. }
  split.
  { rewrite Hview. unfold dynamic_writable_space.
    cbn [extents write_pointer]. now rewrite skipn_length_app. }
  split.
  { rewrite (writable_loop_size extent_size _ _ _ _ _ Hloop).
    unfold dynamic_writable_size. cbn [extents write_pointer].
    now rewrite skipn_length_app. }
  rewrite Forall_forall in Hwins, Hreads |- *.
  intros w Hinw. rewrite Forall_forall. intros r Hinr Hsame.
  destruct (Hwins w Hinw) as (ew & Hnw & ->).
  destruct (Hreads r Hinr) as (er & Hnr & ->).
  rewrite Hsame, Hnw in Hnr. injection Hnr as <-.
  unfold spans_apart. ext_unfold. lia.
Qed.

(** *** write and the readable ranges *)

Lemma extent_extends_refl e : extent_extends e e.
Proof. unfold extent_extends. splits; try reflexivity; try lia. Qed.

Lemma extent_extends_trans e1 e2 e3 :
  extent_extends e1 e2 -> extent_extends e2 e3 -> extent_extends e1 e3.
Proof.
  intros (Hs1 & Hr1 & Hw1 & Hv1) (Hs2 & Hr2 & Hw2 & Hv2).
  unfold extent_extends. splits; try congruence; try lia.
  intros s Hb Hn Hle. rewrite Hv2 by lia. now apply Hv1.
Qed.

Lemma extents_extend_refl l : extents_extend l l.
Proof. intros i e Hn. exists e. split; [exact Hn | apply extent_extends_refl]. Qed.

Lemma extents_extend_trans l1 l2 l3 :
  extents_extend l1 l2 -> extents_extend l2 l3 -> extents_extend l1 l3.
Proof.
  intros H12 H23 i e Hn.
  destruct (H12 i e Hn) as (e2 & Hn2 & He2).
  destruct (H23 i e2 Hn2) as (e3 & Hn3 & He3).
  exists e3. split; [exact Hn3 | ]. now apply extent_extends_trans with e2.
Qed.

Lemma extents_extend_app l l' : extents_extend l (l ++ l').
Proof.
  intros i e Hn. exists e. split; [ | apply extent_extends_refl].
  rewrite nth_error_app1; [exact Hn | ].
  apply nth_error_Some. congruence.
Qed.

Lemma nth_error_replace_at (T : Type) (l : list T) i j x :
  nth_error (replace_at i x l) j
  = if (j =? i)%nat
    then match nth_error l j with Some _ => Some x | None => None end
    else nth_error l j.
Proof.
  revert i j. induction l as [|y l IH]; intros [|i] [|j];
    cbn [replace_at nth_error Nat.eqb]; try reflexivity.
  - now destruct (j =? i)%nat.
  - apply IH.
Qed.

Lemma extents_extend_replace l i e e' :
  nth_error l i = Some e -> extent_extends e e' ->
  extents_extend l (replace_at i e' l).
Proof.
  intros Hn He j x Hj. rewrite nth_error_replace_at.
  destruct (Nat.eqb_spec j i) as [-> | Hne].
  - rewrite Hj. exists e'. split; [reflexivity | ]. congruence.
  - exists x. split; [exact Hj | apply extent_extends_refl].
Qed.

Lemma Forall_replace_at (T : Type) (P : T -> Prop) (xs : list T) i x :
  Forall P xs -> P x -> Forall P (replace_at i x xs).
Proof.
  intros Hl Hx. revert i. induction Hl as [|y xs Hy Hl IH]; intros [|i];
    cbn [replace_at]; constructor; auto.
Qed.

Lemma extent_write_extends buf e :
  wf e ->
  wf (fst (fixed_buffer.write extent_size buf e))
  /\ extent_extends e (fst (fixed_buffer.write extent_size buf e)).
Proof.
  intros (Hd & Hr & Hrw & Hw). pose proof (size_nonneg buf) as Hb.
  unfold fixed_buffer.write, extent_extends. ext_unfold. cbn [fst].
  cbn [fixed_buffer.data fixed_buffer.read_cursor
       fixed_buffer.write_cursor].
  assert (Hs : size (subspan_to
                       (Z.min (size buf)
                          (extent_size - fixed_buffer.write_cursor e)) buf)
               = Z.min (size buf)
                   (extent_size - fixed_buffer.write_cursor e))
    by (apply size_subspan_to; lia).
  assert (Hsz : size (copy_at
                        (subspan_to
                           (Z.min (size buf)
                              (extent_size - fixed_buffer.write_cursor e))
                           buf)
                        (fixed_buffer.write_cursor e) (fixed_buffer.data e))
                = size (fixed_buffer.data e))
    by (apply size_copy_at; lia).
  splits; try lia.
  intros s Hbs Hn Hle. apply subrange_copy_at_before; lia.
Qed.

Lemma ensure_minfree_extends b b' :
  ensure_minfree extent_size blank b = Ok b' ->
  Forall wf (extents b) ->
  extents_extend (extents b) (extents b') /\ Forall wf (extents b').
Proof.
  unfold ensure_minfree, emplace_back, set_extents, set_write_pointer.
  cbn [extents write_pointer]. intros Hen Hw.
  destruct (needs_space extent_size b).
  - destruct (at_index _ _) as [e | | |]; try discriminate.
    cbn [bind] in Hen.
    assert (Hw' : Forall wf
                    (extents b
                     ++ [fixed_buffer.create
                           (repeat blank (Z.to_nat extent_size))])).
    { apply Forall_app. split; [assumption | ].
      constructor; [apply (new_extent_wf extent_size blank Hextent)
                   | constructor]. }
    destruct (write_window_size extent_size e =? 0);
      injection Hen as <-; cbn [extents];
      (split; [apply extents_extend_app | exact Hw']).
  - injection Hen as <-. split; [apply extents_extend_refl | exact Hw].
Qed.

Lemma write_loop_extends fuel :
  forall buf b b',
    Forall wf (extents b) ->
    write_loop extent_size blank fuel buf b = Ok b' ->
    extents_extend (extents b) (extents b').
Proof.
  induction fuel as [|fuel IH]; intros buf b b' Hw Hloop;
    cbn [write_loop] in Hloop; [discriminate | ].
  set (b1 := if (write_pointer b =? length (extents b))%nat
             then emplace_back extent_size blank b else b) in *.
  assert (H1 : extents_extend (extents b) (extents b1)
               /\ Forall wf (extents b1)).
  { unfold b1. destruct (write_pointer b =? length (extents b))%nat.
    - unfold emplace_back, set_extents. cbn [extents].
      split; [apply extents_extend_app | ].
      apply Forall_app. split; [assumption | ].
      constructor; [apply (new_extent_wf extent_size blank Hextent)
                   | constructor].
    - split; [apply extents_extend_refl | assumption]. }
  destruct H1 as (Hx1 & Hw1).
  unfold at_index in Hloop.
  destruct (nth_error (extents b1) (write_pointer b1)) as [e|] eqn:Hn;
    [ | discriminate].
  cbn [bind] in Hloop.
  assert (He : wf e).
  { rewrite Forall_forall in Hw1. apply Hw1. eapply nth_error_In.
    exact Hn. }
  destruct (extent_write_extends buf e He) as (He' & Hxe).
  destruct (fixed_buffer.write extent_size buf e) as [e' n].
  cbn [fst] in He', Hxe.
  unfold set_extents, set_write_pointer in Hloop.
  cbn [extents write_pointer] in Hloop.
  apply extents_extend_trans with (extents b1); [exact Hx1 | ].
  apply extents_extend_trans
    with (replace_at (write_pointer b1) e' (extents b1));
    [now apply extents_extend_replace with e | ].
  assert (Hw2 : Forall wf (replace_at (write_pointer b1) e' (extents b1)))
    by (now apply Forall_replace_at).
  destruct (size (subspan_from n buf) =? 0).
  - now apply (ensure_minfree_extends _ _ Hloop).
  - apply IH in Hloop; [exact Hloop | exact Hw2].
Qed.

(** X14.  [write] does not invalidate the ranges [readable_ranges]
    returned before it: in a reachable state [write] returns
    [size src], every such range still designates the same units inside
    the storage of its extent, and the unread data are now those units
    followed by [src]. *)
Theorem dynamic_write_keeps_readable src b :
  reachable extent_size blank b ->
  exists b',
    write extent_size blank (write_fuel src b) src b = Ok (b', size src)
    /\ Forall (fun r => range_inside b' r
                        /\ range_view b' r = range_view b r)
         (readable_ranges b)
    /\ contents b'
       = concat (map (range_view b') (readable_ranges b)) ++ src.
Proof.
  intros Hreach.
  destruct (reachable_inv extent_size blank Hextent b Hreach) as (Hinv & _).
  assert (Hw : Forall wf (extents b)) by apply Hinv.
  destruct (dynamic_write_spec extent_size blank Hextent
              (write_fuel src b) src b Hinv (le_n _))
    as (b' & Hwrite & Hinv' & Hc & _).
  exists b'. split; [exact Hwrite | ].
  assert (Hx : extents_extend (extents b) (extents b')).
  { unfold write in Hwrite. destruct (size src =? 0).
    - injection Hwrite as <-. apply extents_extend_refl.
    - destruct (write_pointer b <=? length (extents b))%nat;
        [ | discriminate].
      cbn [assert bind] in Hwrite.
      destruct (write_loop _ _ _ _ _) as [b1 | | |] eqn:Hloop;
        try discriminate.
      cbn [bind] in Hwrite. injection Hwrite as <-.
      now apply (write_loop_extends _ _ _ _ Hw Hloop). }
  assert (Hkeep : Forall (fun r => range_inside b' r
                                   /\ range_view b' r = range_view b r)
                    (readable_ranges b)).
  { pose proof (readable_loop_windows b (extents b) 0
                  ltac:(intros k e' Hk; exact Hk)) as Hreads.
    pose proof (readable_loop_inside b 0 (extents b)) as Hins.
    fold (readable_ranges b) in Hreads, Hins.
    assert (Hins' : Forall (range_inside b) (readable_ranges b)).
    { apply Hins. intros k e Hk. split; [exact Hk | ].
      rewrite Forall_forall in Hw. apply Hw. eapply nth_error_In.
      exact Hk. }
    clear Hins. rewrite Forall_forall in Hreads, Hins' |- *.
    intros r Hr. destruct (Hreads r Hr) as (e & Hn & Hs).
    destruct (Hins' r Hr) as (Hpos & e0 & Hn0 & Hin).
    rewrite Hn in Hn0. injection Hn0 as <-.
    destruct (Hx _ _ Hn) as (e' & Hn' & Hsz & Hrc & Hwc & Hv).
    assert (He : wf e).
    { rewrite Forall_forall in Hw. apply Hw. eapply nth_error_In.
      exact Hn. }
    destruct He as (Hd & Hr0 & Hrw & Hwe).
    split.
    - split; [exact Hpos | ]. exists e'. split; [exact Hn' | ].
      unfold span_inside in *. rewrite Hsz. exact Hin.
    - unfold range_view. rewrite Hn, Hn'. apply Hv; rewrite Hs;
        ext_unfold; lia. }
  split; [exact Hkeep | ].
  rewrite !dynamic_contents_extents, Hc, <- dynamic_contents_extents.
  f_equal. unfold contents. f_equal.
  clear - Hkeep. induction Hkeep as [|r l (_ & Hv) _ IH]; cbn [map].
  - reflexivity.
  - now rewrite Hv, IH.
Qed.

(** *** The extents held *)

Lemma tight_replace_at b i e e' :
  dynamic_tight b ->
  nth_error (extents b) i = Some e ->
  fixed_buffer.read_cursor e' = fixed_buffer.read_cursor e ->
  dynamic_tight
    {| extents := replace_at i e' (extents b);
       write_pointer := write_pointer b |}.
Proof.
  intros (Hlen & Hrc) Hn He. split; cbn [extents write_pointer].
  - now rewrite length_replace_at.
  - intros j x. rewrite nth_error_replace_at.
    destruct (Nat.eqb_spec (S j) i) as [<- | Hne].
    + rewrite Hn. intros Hx. injection Hx as <-. rewrite He.
      now apply (Hrc j e).
    + apply Hrc.
Qed.

Lemma tight_advance l wp :
  dynamic_tight {| extents := l; write_pointer := wp |} ->
  dynamic_tight {| extents := l; write_pointer := S wp |}.
Proof.
  intros (Hlen & Hrc). split; cbn [extents write_pointer] in *;
    [lia | exact Hrc].
Qed.

Lemma tight_emplace_back b :
  dynamic_tight b ->
  (length (extents b) <= S (write_pointer b))%nat ->
  dynamic_tight (emplace_back extent_size blank b).
Proof.
  intros (Hlen & Hrc) Hle. unfold emplace_back, set_extents.
  split; cbn [extents write_pointer].
  - rewrite length_app. cbn [length]. lia.
  - intros i e Hn.
    destruct (Nat.lt_ge_cases (S i) (length (extents b))) as [Hlt | Hge].
    + rewrite nth_error_app1 in Hn by assumption. now apply (Hrc i e).
    + rewrite nth_error_app2 in Hn by assumption.
      destruct (S i - length (extents b))%nat as [|[|k]];
        cbn [nth_error] in Hn; try discriminate.
      injection Hn as <-. reflexivity.
Qed.

Lemma ensure_minfree_tight b b' :
  inv b -> dynamic_tight b ->
  ensure_minfree extent_size blank b = Ok b' ->
  dynamic_tight b'.
Proof.
  intros Hinv Htight Hen. unfold ensure_minfree in Hen.
  destruct (needs_space extent_size b) eqn:Hns;
    [ | now injection Hen as <-].
  assert (Hle : (length (extents b) <= S (write_pointer b))%nat).
  { destruct (needs_space_true extent_size b Hns)
      as [-> | (l & back & Hl & Hback)]; [cbn [length]; lia | ].
    destruct (Nat.le_gt_cases (length (extents b)) (S (write_pointer b)))
      as [Hle | Hgt]; [exact Hle | exfalso].
    destruct Hinv as (_ & _ & _ & _ & Hfresh).
    rewrite Hl in Hfresh, Hgt. rewrite length_app in Hgt.
    cbn [length] in Hgt.
    rewrite skipn_app in Hfresh.
    replace (S (write_pointer b) - length l)%nat with 0%nat in Hfresh
      by lia.
    cbn [skipn] in Hfresh. apply Forall_app in Hfresh as (_ & Hfresh).
    inversion Hfresh as [|? ? Hfb _]; subst.
    pose proof (fresh_window back Hfb). pose proof minfree_le extent_size.
    lia. }
  pose proof (tight_emplace_back b Htight Hle) as Ht1.
  destruct (at_index _ _) as [e | | |]; try discriminate.
  cbn [bind] in Hen.
  destruct (write_window_size extent_size e =? 0); injection Hen as <-.
  - unfold emplace_back, set_extents, set_write_pointer in *.
    cbn [extents write_pointer]. now apply tight_advance.
  - exact Ht1.
Qed.

Lemma write_loop_tight fuel :
  forall buf b b',
    inv b -> dynamic_tight b ->
    write_loop extent_size blank fuel buf b = Ok b' ->
    dynamic_tight b'.
Proof.
  induction fuel as [|fuel IH]; intros buf b b' Hinv Htight Hloop;
    cbn [write_loop] in Hloop; [discriminate | ].
  set (b1 := if (write_pointer b =? length (extents b))%nat
             then emplace_back extent_size blank b else b) in *.
  assert (H1 : exists pre e post,
             b1 = {| extents := pre ++ e :: post;
                     write_pointer := length pre |}
             /\ inv b1 /\ dynamic_tight b1).
  { unfold b1. destruct (inv_here extent_size b Hinv) as [Hlt | Heq].
    - replace (write_pointer b =? length (extents b))%nat with false
        by (symmetry; apply Nat.eqb_neq; lia).
      destruct (inv_split b Hlt) as (pre & e & post & Hb).
      exists pre, e, post. now splits.
    - assert (Hwp : write_pointer b = length (extents b))
        by (rewrite Heq; reflexivity).
      rewrite Hwp, Nat.eqb_refl.
      exists (extents b), (new_extent extent_size blank), [].
      split; [ | split].
      + unfold emplace_back, set_extents. now rewrite Hwp.
      + rewrite Heq. unfold emplace_back, set_extents.
        cbn [extents write_pointer].
        apply (emplace_back_end extent_size blank Hextent).
        now rewrite <- Heq.
      + apply tight_emplace_back; [assumption | lia]. }
  destruct H1 as (pre & e & post & Hb1 & Hinv1 & Htight1).
  clearbody b1. subst b1. cbn [extents write_pointer] in Hloop.
  rewrite at_index_app in Hloop. cbn [bind] in Hloop.
  pose proof Hinv1 as Hat.
  apply (inv_at extent_size) in Hat as (Hw & Hl & Hf & Hfr).
  pose proof Hw as Hw0. pose proof Hl as Hl0.
  apply Forall_app in Hw0 as (Hwp & Hwe).
  apply Forall_app in Hl0 as (Hlp & Hle).
  inversion Hwe as [|? ? He Hwpost]; inversion Hle as [|? ? Hle' Hlpost];
    subst.
  destruct (extent_write_spec extent_size buf e He Hle')
    as (e' & Hwr & He' & Hl' & _ & Hfull).
  destruct (extent_write_extends buf e He) as (_ & _ & Hrc & _).
  rewrite Hwr in Hloop, Hrc. cbn [fst] in Hrc.
  unfold set_extents, set_write_pointer in Hloop.
  cbn [extents write_pointer] in Hloop. rewrite replace_at_app in Hloop.
  assert (Hinv2 : inv {| extents := pre ++ e' :: post;
                         write_pointer := length pre |}).
  { apply (inv_at extent_size). splits.
    - apply Forall_app. split; [assumption | now constructor].
    - apply Forall_app. split; [assumption | now constructor]. }
  assert (Htight2 : dynamic_tight {| extents := pre ++ e' :: post;
                                     write_pointer := length pre |}).
  { pose proof (tight_replace_at _ (length pre) e e' Htight1) as Ht.
    cbn [extents write_pointer] in Ht. rewrite replace_at_app in Ht.
    apply Ht; [ | exact Hrc].
    rewrite nth_error_app2, Nat.sub_diag by lia. reflexivity. }
  pose proof (window_nonneg e He) as Hwin.
  pose proof (size_nonneg buf) as Hbuf.
  destruct (Z.eqb_spec
              (size (subspan_from
                       (Z.min (size buf) (write_window_size extent_size e))
                       buf)) 0) as [Hz | Hz].
  - now apply (ensure_minfree_tight _ _ Hinv2 Htight2).
  - rewrite size_subspan_from in Hz by lia.
    apply IH in Hloop; [exact Hloop | | now apply tight_advance].
    apply (inv_advance extent_size); [assumption | ]. apply Hfull. lia.
Qed.

Lemma commit_loop_tight fuel :
  forall n left b b' m,
    inv b -> dynamic_tight b ->
    commit_loop extent_size blank fuel n left b = Ok (b', m) ->
    dynamic_tight b'.
Proof.
  induction fuel as [|fuel IH]; intros n left b b' m Hinv Htight H;
    [discriminate | ].
  cbn [commit_loop] in H.
  destruct (Nat.ltb_spec (write_pointer b) (length (extents b)))
    as [Hlt | Hge]; cbn [assert bind] in H; [ | discriminate].
  destruct (inv_split b Hlt) as (pre & e & post & ->).
  cbn [extents write_pointer] in *.
  rewrite at_index_app in H. cbn [bind] in H.
  unfold fixed_buffer.commit, set_extents, set_write_pointer in H.
  cbn [extents write_pointer] in H. rewrite replace_at_app in H.
  set (c := Z.min left (span_size (fixed_buffer.write_window extent_size e)))
    in *.
  destruct (Z.ltb_spec 0 c) as [Hc | Hc]; cbn [assert bind] in H;
    [ | discriminate].
  set (e' := {| fixed_buffer.data := fixed_buffer.data e;
                fixed_buffer.read_cursor := fixed_buffer.read_cursor e;
                fixed_buffer.write_cursor :=
                  fixed_buffer.write_cursor e + c |}) in *.
  pose proof Hinv as Hat.
  apply (inv_at extent_size) in Hat as (Hw & Hl & Hf & Hp).
  pose proof Hw as Hw'. pose proof Hl as Hl'.
  apply Forall_app in Hw' as (Hw1 & Hw2).
  inversion Hw2 as [|? ? Hwe Hw3]; subst.
  apply Forall_app in Hl' as (Hl1 & Hl2).
  inversion Hl2 as [|? ? Hle Hl3]; subst.
  assert (Hcw : c <= extent_size - fixed_buffer.write_cursor e)
    by (subst c; ext_unfold; lia).
  assert (Hwe' : wf e') by (subst e'; ext_unfold; lia).
  assert (Hle' : live e') by (subst e'; ext_unfold; bool_lia).
  assert (Hinv1 : inv {| extents := pre ++ e' :: post;
                         write_pointer := length pre |}).
  { apply (inv_at extent_size). splits.
    - apply Forall_app. split; [assumption | now constructor].
    - apply Forall_app. split; [assumption | now constructor]. }
  assert (Htight1 : dynamic_tight {| extents := pre ++ e' :: post;
                                     write_pointer := length pre |}).
  { pose proof (tight_replace_at _ (length pre) e e' Htight) as Ht.
    cbn [extents write_pointer] in Ht. rewrite replace_at_app in Ht.
    apply Ht; [ | reflexivity].
    rewrite nth_error_app2, Nat.sub_diag by lia. reflexivity. }
  destruct (Z.eqb_spec (left - c) 0) as [Hz | Hz].
  - destruct (ensure_minfree extent_size blank _) as [b1 | | | ] eqn:He;
      cbn [bind] in H; try discriminate.
    injection H as <- _.
    now apply (ensure_minfree_tight _ _ Hinv1 Htight1).
  - apply IH in H; [exact H | | now apply tight_advance].
    apply (inv_advance extent_size); [assumption | ].
    subst e' c. ext_unfold. lia.
Qed.

Lemma drain_step_tight front front' rest wp b2 :
  dynamic_tight {| extents := front :: rest; write_pointer := wp |} ->
  (if dead extent_size front'
   then remove_front extent_size
          {| extents := front' :: rest; write_pointer := wp |}
   else Ok {| extents := front' :: rest; write_pointer := wp |}) = Ok b2 ->
  dynamic_tight b2.
Proof.
  intros (Hlen & Hrc) Hstep. cbn [extents write_pointer length] in *.
  destruct (dead extent_size front').
  - unfold remove_front, set_extents, set_write_pointer in Hstep.
    cbn [extents write_pointer] in Hstep.
    destruct (assert _) as [u | | |]; try discriminate.
    cbn [bind] in Hstep. injection Hstep as <-.
    split.
    + destruct wp as [|wp]; cbn [Nat.ltb Nat.leb Nat.pred extents
        write_pointer]; lia.
    + destruct (0 <? wp)%nat; cbn [extents write_pointer]; intros i e Hn;
        now apply (Hrc (S i) e).
  - injection Hstep as <-. split; cbn [extents write_pointer length].
    + lia.
    + intros i e Hn. now apply (Hrc i e).
Qed.

Lemma discard_loop_tight fuel :
  forall n nleft discards b b' m,
    dynamic_tight b ->
    discard_loop extent_size fuel n nleft discards b = Ok (b', m) ->
    dynamic_tight b'.
Proof.
  induction fuel as [|fuel IH]; intros n nleft discards b b' m Htight H;
    [discriminate | ].
  cbn [discard_loop] in H. destruct b as [[|front rest] wp];
    cbn [extents write_pointer] in H; [now injection H as <- _ | ].
  destruct (read_window_size front =? 0); [now injection H as <- _ | ].
  unfold fixed_buffer.discard, set_extents in H.
  cbn [extents write_pointer] in H.
  match type of H with
  | context [dead _ ?f] => set (front' := f) in *
  end.
  destruct (if dead extent_size front' then _ else _) as [b2 | | |] eqn:Hs;
    try discriminate.
  cbn [bind] in H.
  pose proof (drain_step_tight _ _ _ _ _ Htight Hs) as Ht2.
  destruct (_ =? n); [now injection H as <- _ | ].
  now apply IH in H.
Qed.

Lemma read_loop_tight fuel :
  forall total filled buf bytes_read b b' dst n,
    dynamic_tight b ->
    read_loop extent_size fuel total filled buf bytes_read b
    = Ok (b', dst, n) ->
    dynamic_tight b'.
Proof.
  induction fuel as [|fuel IH];
    intros total filled buf bytes_read b b' dst n Htight H;
    [discriminate | ].
  cbn [read_loop] in H. destruct b as [[|front rest] wp];
    cbn [extents write_pointer] in H; [now injection H as <- _ _ | ].
  destruct (read_window_size front =? 0); [now injection H as <- _ _ | ].
  unfold fixed_buffer.read, set_extents in H.
  cbn [extents write_pointer] in H.
  match type of H with
  | context [dead _ ?f] => set (front' := f) in *
  end.
  destruct (if dead extent_size front' then _ else _) as [b2 | | |] eqn:Hs;
    try discriminate.
  cbn [bind] in H.
  pose proof (drain_step_tight _ _ _ _ _ Htight Hs) as Ht2.
  destruct (_ =? total); [now injection H as <- _ _ | ].
  now apply IH in H.
Qed.

Lemma reachable_tight b :
  reachable extent_size blank b -> dynamic_tight b.
Proof.
  induction 1 as [ | fuel src b b' n Hr IH Hop | fuel dst b b' dst' n Hr IH Hop
                 | fuel n b b' m Hr IH Hn Hop | fuel n b b' m Hr IH Hn Hop
                 | b b' ranges Hr IH Hop | b b' Hr IH Hop
                 | i offset v b Hr IH ];
    try (destruct (reachable_inv extent_size blank Hextent b Hr)
           as (Hinv & Hready)).
  - split; cbn [create extents write_pointer length]; [lia | ].
    intros i e Hn. discriminate.
  - unfold write in Hop. destruct (size src =? 0);
      [now injection Hop as <- _ | ].
    destruct (assert _) as [u | | |]; try discriminate.
    cbn [bind] in Hop.
    destruct (write_loop _ _ _ _ _) as [b1 | | |] eqn:Hloop;
      try discriminate.
    cbn [bind] in Hop. injection Hop as <- _.
    now apply (write_loop_tight _ _ _ _ Hinv IH Hloop).
  - unfold read in Hop. destruct (size dst =? 0);
      [now injection Hop as <- _ _ | ].
    now apply (read_loop_tight _ _ _ _ _ _ _ _ _ IH Hop).
  - now apply (discard_loop_tight _ _ _ _ _ _ _ IH Hop).
  - unfold commit in Hop. destruct (n =? 0);
      [now injection Hop as <- _ | ].
    destruct (assert _) as [u | | |]; try discriminate.
    cbn [bind] in Hop.
    now apply (commit_loop_tight _ _ _ _ _ _ Hinv IH Hop).
  - destruct (dynamic_writable_ranges_inv extent_size blank Hextent _ _ _
                Hinv Hop) as (_ & _ & Hen & _).
    now apply (ensure_minfree_tight _ _ Hinv IH Hen).
  - now apply (ensure_minfree_tight _ _ Hinv IH Hop).
  - unfold store. destruct (nth_error (extents b) i) as [e|] eqn:Hn;
      [ | exact IH].
    unfold set_extents. apply (tight_replace_at b i e); [exact IH | exact Hn | ].
    unfold fixed_buffer.store. now destruct (_ && _).
Qed.

Lemma full_extents_readable l :
  Forall wf l -> Forall full l ->
  (forall e, In e l -> fixed_buffer.read_cursor e = 0) ->
  extents_readable l = Z.of_nat (length l) * extent_size.
Proof.
  intros Hw. induction Hw as [|e l He Hw IH]; intros Hf Hrc.
  - reflexivity.
  - inversion Hf; subst. rewrite extents_readable_cons, IH;
      [ | assumption | intros x Hx; apply Hrc; now right].
    pose proof (Hrc e (or_introl eq_refl)).
    cbn [length]. ext_unfold. lia.
Qed.

(** X15.  The buffer holds no extent it does not need: in a reachable
    state at most two extents are not before [write_pointer], so that
    the storage held exceeds the unread data by less than three
    extents; extents read to the end are given back. *)
Theorem dynamic_extents_bound b :
  reachable extent_size blank b ->
  (length (extents b) <= write_pointer b + 2)%nat
  /\ Z.of_nat (length (extents b)) * extent_size
     < readable_size b + 3 * extent_size.
Proof.
  intros Hreach.
  destruct (reachable_inv extent_size blank Hextent b Hreach) as (Hinv & _).
  destruct (reachable_tight b Hreach) as (Hlen & Hrc).
  split; [exact Hlen | ].
  rewrite dynamic_readable_size_extents.
  assert (Hw : Forall wf (extents b)) by apply Hinv.
  assert (Hl : Forall live (extents b)) by apply Hinv.
  assert (Hf : Forall full (firstn (write_pointer b) (extents b)))
    by apply Hinv.
  assert (Hwp : (write_pointer b <= length (extents b))%nat)
    by apply Hinv.
  destruct b as [l wp]. cbn [extents write_pointer] in *.
  pose proof (firstn_skipn wp l) as Hsplit.
  assert (Hpre : length (firstn wp l) = wp)
    by (rewrite length_firstn; lia).
  remember (firstn wp l) as pre eqn:Heqpre.
  remember (skipn wp l) as post eqn:Heqpost.
  clear Heqpre Heqpost Hreach Hinv. subst l.
  apply Forall_app in Hw as (Hwpre & Hwpost).
  apply Forall_app in Hl as (Hlpre & _).
  rewrite length_app in *.
  assert (Hsum : extents_readable (pre ++ post)
                 = extents_readable pre + extents_readable post).
  { clear. induction pre as [|e pre IH]; [reflexivity | ].
    cbn [app]. rewrite !extents_readable_cons, IH. lia. }
  rewrite Hsum.
  pose proof (extents_readable_nonneg extent_size post Hwpost) as Hpost.
  destruct pre as [|front pre].
  - cbn [length] in Hpre. cbn [extents_readable fold_right]. nia.
  - inversion Hwpre as [|? ? Hwf Hwpre']; inversion Hlpre as [|? ? Hlf _];
      inversion Hf as [|? ? Hff Hf']; subst.
    rewrite extents_readable_cons.
    pose proof (full_readable front Hwf Hlf Hff) as Hfront.
    rewrite (full_extents_readable pre Hwpre' Hf').
    + cbn [length] in *. nia.
    + intros e He. apply In_nth_error in He as (i & Hi).
      apply (Hrc i e). cbn [app nth_error].
      rewrite nth_error_app1; [exact Hi | ].
      apply nth_error_Some. congruence.
Qed.

(** X16.  Asking for the writable ranges again changes nothing: after a
    call of [writable_ranges] that returned, a second call returns the
    same ranges and leaves the buffer as it is, no further extent being
    appended. *)
Theorem dynamic_writable_ranges_again b b' ranges :
  reachable extent_size blank b ->
  writable_ranges extent_size blank b = Ok (b', ranges) ->
  writable_ranges extent_size blank b' = Ok (b', ranges).
Proof.
  intros Hreach Hop.
  destruct (reachable_inv extent_size blank Hextent b Hreach) as (Hinv & _).
  destruct (dynamic_writable_ranges_inv extent_size blank Hextent _ _ _
              Hinv Hop) as (_ & _ & Hen & Hns).
  unfold writable_ranges in Hop |- *. rewrite Hen in Hop.
  cbn [bind] in Hop. unfold ensure_minfree at 1. rewrite Hns.
  cbn [bind]. exact Hop.
Qed.

(** *** ensure_minfree after commit and in writable_ranges *)




End DynamicMore.
(** ** Instances of the further properties *)

Section MoreInstanceProperties.
Local Open Scope Z_scope.
Local Open Scope char_scope.

Import dynamic_buffer.

Ltac compare :=
  repeat split; vm_compute; try reflexivity; try discriminate.

Lemma extent_size_4 : 0 < 4.
Proof. reflexivity. Defined.

(** The wrapped ring: five units unread in two ranges, two writable. *)
Lemma ring_ranges_shape_witness :
  exists readable,
    circular_buffer.readable_ranges 7 example_ring = Ok readable
    /\ circular_buffer.total_size readable
       + circular_buffer.total_size
           (circular_buffer.writable_ranges 7 example_ring) = 7.
Proof.
  destruct (ring_ranges_shape 7 valid_buffer_size_7 example_ring)
    as (r & Hr & _ & _ & _ & _ & _ & Ht).
  - compare.
  - exists r. split; [exact Hr | exact Ht].
Defined.

(** Three units committed where two are writable and the write pointer is
    between the start and the read pointer; nine where five are writable
    and it is not. *)
Lemma ring_commit_any_witness :
  circular_buffer.commit 7 3 example_ring = AssertionFailure
  /\ exists b', circular_buffer.commit 7 9 example_ring_ef = Ok (b', 5).
Proof.
  split.
  - apply (ring_commit_any 7 valid_buffer_size_7 3 example_ring); compare.
  - assert (Hwf : ring_wf 7 example_ring_ef) by compare.
    assert (Hn : 0 <= 9) by compare.
    pose proof (ring_commit_any 7 valid_buffer_size_7 9 example_ring_ef
                  Hwf Hn) as H.
    hnf in H. destruct H as (b' & Hc & _).
    exists b'. exact Hc.
Defined.

Lemma ring_empty_full_witness :
  circular_buffer.readable_ranges 7 example_ring = Ok []
  <-> circular_buffer.read_pointer example_ring
      = circular_buffer.write_pointer example_ring.
Proof.
  apply (ring_empty_full 7 valid_buffer_size_7 example_ring). compare.
Defined.

(** Seven units asked of the five unread ones. *)
Lemma ring_read_any_witness :
  exists b',
    circular_buffer.read 7 (letters "???????") example_ring
    = Ok (b', letters "GHIJK??", 5)
    /\ circular_buffer.read_pointer b' = circular_buffer.write_pointer b'.
Proof.
  assert (Hwf : ring_wf 7 example_ring) by compare.
  pose proof (ring_read_any 7 valid_buffer_size_7 (letters "???????")
                example_ring Hwf) as H.
  hnf in H. destruct H as (b' & Hr & _ & _ & _ & _ & Hshort).
  exists b'. split; [exact Hr | ].
  apply Hshort. vm_compute. reflexivity.
Defined.

Lemma ring_write_keeps_readable_witness :
  exists b' ranges,
    circular_buffer.write 7 (letters "XYZ") example_ring_ef = Ok (b', 3)
    /\ circular_buffer.readable_ranges 7 example_ring_ef = Ok ranges
    /\ circular_buffer.contents 7 b'
       = concat (map (view (circular_buffer.data b')) ranges)
         ++ letters "XYZ".
Proof.
  assert (Hwf : ring_wf 7 example_ring_ef) by compare.
  pose proof (ring_write_keeps_readable 7 valid_buffer_size_7
                (letters "XYZ") example_ring_ef Hwf) as H.
  hnf in H. destruct H as (b' & ranges & Hw & Hr & _ & _ & _ & Hc).
  exists b', ranges. split; [exact Hw | ]. split; [exact Hr | exact Hc].
Defined.

(** Ten units written where seven fit, three read, two written. *)
Lemma ring_queue_refinement_witness :
  exists b',
    ring_run 7
      [ring_write (letters "ABCDEFGHIJ"); ring_read (letters "???");
       ring_write (letters "XY")]
      (circular_buffer.create (letters "........")) = Ok b'
    /\ circular_buffer.contents 7 b' = letters "DEFGXY".
Proof.
  destruct (ring_queue_refinement 7 valid_buffer_size_7
              [ring_write (letters "ABCDEFGHIJ"); ring_read (letters "???");
               ring_write (letters "XY")]
              (circular_buffer.create (letters "........")))
    as (b' & Hrun & _ & Hc).
  - compare.
  - reflexivity.
  - exists b'. split; [exact Hrun | exact Hc].
Defined.

Lemma dynamic_queue_refinement_witness :
  exists b',
    dynamic_run 4 "."
      [dynamic_write (letters "HELLO"); dynamic_read (letters "??");
       dynamic_write (letters "WORLD!"); dynamic_discard 1]
      create = Ok b'
    /\ contents b' = letters "LOWORLD!".
Proof.
  destruct (dynamic_queue_refinement 4 "." extent_size_4
              [dynamic_write (letters "HELLO"); dynamic_read (letters "??");
               dynamic_write (letters "WORLD!"); dynamic_discard 1]
              create (reach_create 4 "."))
    as (b' & Hrun & Hc).
  exists b'. split; [exact Hrun | exact Hc].
Defined.

(** Five units asked of the three unread ones. *)
Lemma dynamic_read_any_witness :
  exists b',
    read 4 (drain_fuel example_abc) (letters "?????") example_abc
    = Ok (b', letters "ABC??", 3)
    /\ readable_ranges b' = [].
Proof.
  pose proof (dynamic_read_any 4 "." extent_size_4 (letters "?????")
                example_abc example_abc_reachable) as H.
  hnf in H. destruct H as (b' & Hr & _ & _ & Hshort).
  exists b'. split; [exact Hr | ].
  apply Hshort. vm_compute. reflexivity.
Defined.

Lemma dynamic_readable_ranges_shape_witness :
  Forall (range_inside example_abcd) (readable_ranges example_abcd)
  /\ map fst (readable_ranges example_abcd)
     = seq 0 (length (readable_ranges example_abcd))
  /\ (write_pointer example_abcd <= length (readable_ranges example_abcd)
      <= S (write_pointer example_abcd))%nat.
Proof.
  exact (dynamic_readable_ranges_shape 4 "." extent_size_4 example_abcd
           example_abcd_reachable).
Defined.

(** Six units committed where five are writable. *)
Lemma dynamic_commit_beyond_capacity_witness :
  commit 4 "." 3 6 example_abc = AssertionFailure.
Proof.
  apply (dynamic_commit_beyond_capacity 4 "." extent_size_4 3 6 example_abc
           example_abc_reachable).
  - vm_compute. reflexivity.
  - vm_compute. lia.
Defined.

(** Three units committed across two extents. *)
Lemma dynamic_commit_within_capacity_witness :
  exists b',
    commit 4 "." 2 3 example_abc = Ok (b', 3)
    /\ contents b' = letters "ABC...".
Proof.
  destruct (dynamic_commit_within_capacity 4 "." extent_size_4 2 3
              example_abc example_abc_reachable)
    as (b' & Hc & Hcs & _).
  - vm_compute. reflexivity.
  - compare.
  - vm_compute. lia.
  - exists b'. split; [exact Hc | exact Hcs].
Defined.

(** After [write("ABC")] and [write("D")] the write pointer is on a full
    extent. *)
Lemma dynamic_full_target_aborts_witness :
  reachable 4 "." example_abcd
  /\ commit 4 "." 1 1 example_abcd = AssertionFailure
  /\ writable_ranges 4 "." example_abcd = AssertionFailure.
Proof.
  destruct (dynamic_full_target_aborts 4 "." example_abcd) as (Hc & Hw).
  - vm_compute. reflexivity.
  - split; [exact example_abcd_reachable | ].
    split; [apply (Hc 0%nat 1); reflexivity | apply Hw; reflexivity].
Defined.

Lemma dynamic_writable_ranges_shape_witness :
  exists b' ranges,
    writable_ranges 4 "." example_abc = Ok (b', ranges)
    /\ ranges <> []
    /\ map fst ranges = seq (write_pointer b') (length ranges).
Proof.
  destruct (dynamic_writable_ranges_shape 4 "." extent_size_4 example_abc
              example_abc_reachable)
    as (b' & ranges & Hw & _ & Hne & _ & Hfst & _).
  - vm_compute. reflexivity.
  - exists b', ranges. split; [exact Hw | ]. split; [exact Hne | exact Hfst].
Defined.

Lemma dynamic_write_keeps_readable_witness :
  exists b',
    write 4 "." (write_fuel (letters "DEFGH") example_abc)
      (letters "DEFGH") example_abc = Ok (b', 5)
    /\ contents b'
       = concat (map (range_view b') (readable_ranges example_abc))
         ++ letters "DEFGH".
Proof.
  destruct (dynamic_write_keeps_readable 4 "." extent_size_4
              (letters "DEFGH") example_abc example_abc_reachable)
    as (b' & Hw & _ & Hc).
  exists b'. split; [exact Hw | exact Hc].
Defined.

(** Everything read: two extents are left. *)
Lemma dynamic_extents_bound_witness :
  (length (extents example_drained) <= write_pointer example_drained + 2)%nat
  /\ Z.of_nat (length (extents example_drained)) * 4
     < readable_size example_drained + 3 * 4.
Proof.
  exact (dynamic_extents_bound 4 "." extent_size_4 example_drained
           example_drained_reachable).
Defined.

Lemma dynamic_writable_ranges_again_witness :
  writable_ranges 4 "." example_one_extent
  = Ok (example_one_extent, [(0%nat, make_span 0 4)]).
Proof.
  apply (dynamic_writable_ranges_again 4 "." extent_size_4 create).
  - apply reach_create.
  - reflexivity.
Defined.



End MoreInstanceProperties.
